(** * Core rendering utilities (src/emu/rendutil.cpp): a shallow embedding

    The development follows the layout of the C++ file: machine integers
    and packed pixels, single-precision arithmetic, the three resamplers
    and their dispatcher, the line clipper, the line-to-quad converter,
    the stream and the JPEG source manager, the image loaders and the
    format sniffer.  Definitions come first, theorems afterwards. *)

From Stdlib Require Import ZArith List Bool Lia String.
From Stdlib Require Import SpecFloat.
From Stdlib Require Import QArith Reals Lra.
Import ListNotations.

Local Open Scope Z_scope.

(* ===================================================================== *)
(** ** Machine integers *)
(* ===================================================================== *)

(** [u8], [u32] and [u64] are the wrap-around of C++ unsigned arithmetic:
    every result of an unsigned operation is reduced by one of them. *)
Definition u8 (z : Z) : Z := z mod 2 ^ 8.
Definition u32 (z : Z) : Z := z mod 2 ^ 32.
Definition u64 (z : Z) : Z := z mod 2 ^ 64.

(** [s32(v)] : the two's complement reading of a 32-bit pattern. *)
Definition s32 (z : Z) : Z :=
  let v := u32 z in if v <? 2 ^ 31 then v else v - 2 ^ 32.

(** Integer division and remainder are undefined for a zero divisor. *)
Definition udiv (a b : Z) : option Z := if b =? 0 then None else Some (a / b).
Definition umod (a b : Z) : option Z := if b =? 0 then None else Some (a mod b).

(** A small option monad: [None] stands for undefined behaviour. *)
Definition obind {A B} (x : option A) (f : A -> option B) : option B :=
  match x with Some a => f a | None => None end.

Notation "x <- c ;; k" := (obind c (fun x => k))
  (at level 61, c at next level, right associativity).
Notation "' p <- c ;; k" := (obind c (fun x => let 'p := x in k))
  (at level 61, p pattern, c at next level, right associativity).

(** [for (i = start; i < start + n; i++) body] with a state that may
    become undefined. *)
Fixpoint for_loop {S : Type} (n : nat) (i : Z) (body : Z -> S -> option S)
    (s : S) : option S :=
  match n with
  | O => Some s
  | S n' => s' <- body i s ;; for_loop n' (i + 1) body s'
  end.

(* ===================================================================== *)
(** ** Packed pixels ([rgb_t]) and bitmaps *)
(* ===================================================================== *)

(** Modelled from the spec: [rgb_t] is declared in a header that is not
    part of the sources at hand; the data model calls a pixel a 32-bit
    packed colour quadruple (alpha, red, green, blue).  The constructor
    takes four 8-bit channels, so wider arguments are truncated. *)
Definition rgb_t (a r g b : Z) : Z :=
  u8 a * 2 ^ 24 + u8 r * 2 ^ 16 + u8 g * 2 ^ 8 + u8 b.

Definition pix_a (p : Z) : Z := u8 (p / 2 ^ 24).
Definition pix_r (p : Z) : Z := u8 (p / 2 ^ 16).
Definition pix_g (p : Z) : Z := u8 (p / 2 ^ 8).
Definition pix_b (p : Z) : Z := u8 p.

(** Pixel storage is addressed by a flat index from the base of row 0. *)
Definition pixmem := Z -> Z.

Definition store (m : pixmem) (i v : Z) : pixmem :=
  fun j => if j =? i then v else m j.

Record bitmap_argb32 := mk_bitmap {
  bm_width : Z;
  bm_height : Z;
  bm_rowpixels : Z;
  bm_base : pixmem
}.

(** [bitmap.pix(y, x)] *)
Definition bm_pix (b : bitmap_argb32) (y x : Z) : Z :=
  bm_base b (y * bm_rowpixels b + x).

Definition bm_set (b : bitmap_argb32) (y x v : Z) : bitmap_argb32 :=
  mk_bitmap (bm_width b) (bm_height b) (bm_rowpixels b)
            (store (bm_base b) (y * bm_rowpixels b + x) v).

(** [bitmap.reset()] leaves the empty bitmap; [bitmap.valid()] tells
    whether storage is attached. *)
Definition bm_empty : bitmap_argb32 := mk_bitmap 0 0 0 (fun _ => 0).

Definition bm_allocate (w h : Z) : bitmap_argb32 :=
  if (w <=? 0) || (h <=? 0) then bm_empty else mk_bitmap w h w (fun _ => 0).

Definition bm_valid (b : bitmap_argb32) : bool :=
  (0 <? bm_width b) && (0 <? bm_height b).

(** The container's invariant: the stride covers the width, and the
    storage is addressable by the 32-bit indices the samplers compute. *)
Definition bm_wf (b : bitmap_argb32) : Prop :=
  0 <= bm_width b <= bm_rowpixels b /\ 0 <= bm_height b /\
  bm_rowpixels b * bm_height b < 2 ^ 32 /\
  forall i, 0 <= bm_base b i < 2 ^ 32.

(* ===================================================================== *)
(** ** The weighted-average sampler: visited source cells *)
(* ===================================================================== *)

(** "determine the X (Y) contribution, clamping to the amount remaining":
    [chunk = 0x1000 - (cur & 0xfff); if (chunk > remaining) chunk = remaining]. *)
Definition clamp_chunk (cur remaining : Z) : Z :=
  let chunk := 0x1000 - Z.land cur 0xfff in
  if chunk >? remaining then remaining else chunk.

(** The inner loop of [resample_argb_bitmap_average]:
    [for (curx = startx; xremaining; curx += xchunk)].  Every round
    consumes at least one unit of [xremaining], which bounds the number
    of rounds.  The result lists each visited [curx] with its [xchunk]. *)
Fixpoint x_cells (fuel : nat) (curx xremaining : Z) : list (Z * Z) :=
  match fuel with
  | O => []
  | S fuel' =>
      if xremaining =? 0 then []
      else
        let xchunk := clamp_chunk curx xremaining in
        let xremaining := xremaining - xchunk in
        (curx, xchunk) :: x_cells fuel' (u32 (curx + xchunk)) xremaining
  end.

(** The outer loop [for (cury = starty; yremaining; cury += ychunk)];
    each visited cell is recorded as [(cury, curx, factor)] with
    [factor = xchunk * ychunk] in 32-bit arithmetic. *)
Fixpoint y_cells (fuel : nat) (startx dx cury yremaining : Z)
    : list (Z * Z * Z) :=
  match fuel with
  | O => []
  | S fuel' =>
      if yremaining =? 0 then []
      else
        let ychunk := clamp_chunk cury yremaining in
        let yremaining := yremaining - ychunk in
        map (fun c => (cury, fst c, u32 (snd c * ychunk)))
            (x_cells (Z.to_nat dx) startx dx)
        ++ y_cells fuel' startx dx (u32 (cury + ychunk)) yremaining
  end.

(** The cells visited for destination pixel [(x, y)]. *)
Definition average_cells (dx dy x y : Z) : list (Z * Z * Z) :=
  let starty := u32 (y * dy) in
  let startx := u32 (x * dx) in
  y_cells (Z.to_nat dy) startx dx starty dy.

Definition cell_factor (c : Z * Z * Z) : Z := snd c.
Definition cell_cury (c : Z * Z * Z) : Z := fst (fst c).
Definition cell_curx (c : Z * Z * Z) : Z := snd (fst c).

Definition zsum (l : list Z) : Z := fold_right Z.add 0 l.

(* ===================================================================== *)
(** ** Single-precision arithmetic *)
(* ===================================================================== *)

(** C++ [float] is IEEE 754 binary32: 24 bits of precision, round to
    nearest even.  [spec_float] instantiated at [prec = 24], [emax = 128]
    is its executable specification. *)
Module F32.
Definition prec : Z := 24.
Definition emax : Z := 128.

Definition add : spec_float -> spec_float -> spec_float := SFadd prec emax.
Definition sub : spec_float -> spec_float -> spec_float := SFsub prec emax.
Definition mul : spec_float -> spec_float -> spec_float := SFmul prec emax.
Definition div : spec_float -> spec_float -> spec_float := SFdiv prec emax.
Definition sqrt : spec_float -> spec_float := SFsqrt prec emax.

Definition ltb : spec_float -> spec_float -> bool := SFltb.
Definition leb : spec_float -> spec_float -> bool := SFleb.
Definition eqb : spec_float -> spec_float -> bool := SFeqb.
Definition gtb (a b : spec_float) : bool := SFltb b a.

(** [float(n)] for an integer [n]. *)
Definition of_Z (n : Z) : spec_float := binary_normalize prec emax n 0 false.

(** The integer reached by discarding the fraction of a finite value. *)
Definition trunc (f : spec_float) : option Z :=
  match f with
  | S754_zero _ => Some 0
  | S754_finite s m e =>
      let n := if 0 <=? e then Zpos m * 2 ^ e else Zpos m / 2 ^ (- e) in
      Some (cond_Zopp s n)
  | _ => None
  end.

(** Conversion to [u32]: defined only when the truncated value is
    representable. *)
Definition to_u32 (f : spec_float) : option Z :=
  match trunc f with
  | Some n => if (0 <=? n) && (n <? 2 ^ 32) then Some n else None
  | None => None
  end.

(** [ceil]: the least integral value not below the argument.  A finite
    value with a non-negative exponent is integral already. *)
Definition ceil (f : spec_float) : spec_float :=
  match f with
  | S754_finite s m e =>
      if 0 <=? e then f
      else
        let n := - ((- cond_Zopp s (Zpos m)) / 2 ^ (- e)) in
        if n =? 0 then S754_zero s else of_Z n
  | _ => f
  end.

(** The exact value of a finite float, as a rational. *)
Definition to_Q (f : spec_float) : Q :=
  match f with
  | S754_finite s m e =>
      if 0 <=? e then inject_Z (cond_Zopp s (Zpos m) * 2 ^ e)
      else Qmake (cond_Zopp s (Zpos m)) (Z.to_pos (2 ^ (- e)))
  | _ => 0%Q
  end.

(** Literals of the source. *)
Definition zero : spec_float := S754_zero false.
Definition half : spec_float := S754_finite false 8388608 (-24).       (* 0.5f *)
Definition unit_length : spec_float := S754_finite false 11863283 (-24). (* 0.70710678f *)
Definition lit_256 : spec_float := of_Z 256.                          (* 256.0f *)
End F32.

(** The geometry routines use [float] only through the operations below,
    so they are written once over this interface.  [Arith_f32] is the
    arithmetic the machine performs, in which the properties of the
    program are stated; [Arith_R] reads the same code in exact real
    arithmetic, and serves only to measure the quad of a degenerate
    segment next to its single-precision value. *)
Class Arith (F : Type) := {
  fadd : F -> F -> F;
  fsub : F -> F -> F;
  fmul : F -> F -> F;
  fdiv : F -> F -> F;
  fsqrt : F -> F;
  fltb : F -> F -> bool;
  feqb : F -> F -> bool;
  fzero : F;
  fhalf : F;
  funit_length : F
}.

#[export] Instance Arith_f32 : Arith spec_float := {
  fadd := F32.add; fsub := F32.sub; fmul := F32.mul; fdiv := F32.div;
  fsqrt := F32.sqrt; fltb := F32.ltb; feqb := F32.eqb;
  fzero := F32.zero; fhalf := F32.half; funit_length := F32.unit_length
}.

#[export] Instance Arith_R : Arith R := {
  fadd := Rplus; fsub := Rminus; fmul := Rmult; fdiv := Rdiv;
  fsqrt := R_sqrt.sqrt;
  fltb := fun a b => if Rlt_dec a b then true else false;
  feqb := fun a b => if Req_dec_T a b then true else false;
  fzero := 0%R;
  fhalf := (1 / 2)%R;
  funit_length := (70710678 / 100000000)%R
}.

Definition fgtb {F} `{Arith F} (a b : F) : bool := fltb b a.

(* ===================================================================== *)
(** ** Geometry: bounds, line clipping, line to quad *)
(* ===================================================================== *)

Record render_bounds (F : Type) := mk_bounds { x0 : F; y0 : F; x1 : F; y1 : F }.
Arguments mk_bounds {F} _ _ _ _.
Arguments x0 {F} _.
Arguments y0 {F} _.
Arguments x1 {F} _.
Arguments y1 {F} _.

(** The Cohen-Sutherland bits of a point against [clip]. *)
Definition outcode {F} `{Arith F} (x y : F) (clip : render_bounds F) : Z :=
  let code := 0 in
  let code := if fgtb y (y1 clip) then Z.lor code 1 else code in
  let code := if fltb y (y0 clip) then Z.lor code 2 else code in
  let code := if fgtb x (x1 clip) then Z.lor code 4 else code in
  let code := if fltb x (x0 clip) then Z.lor code 8 else code in
  code.

(** [render_clip_line]: the [while (true)] loop, one round per unit of
    fuel; [None] when the fuel runs out before a verdict.  The result is
    the verdict ([true] = rejected) and the bounds as left behind. *)
Fixpoint render_clip_line {F} `{Arith F} (fuel : nat)
    (bounds clip : render_bounds F) : option (bool * render_bounds F) :=
  match fuel with
  | O => None
  | S fuel' =>
      let code0 := outcode (x0 bounds) (y0 bounds) clip in
      let code1 := outcode (x1 bounds) (y1 bounds) clip in
      if Z.lor code0 code1 =? 0 then Some (false, bounds)
      else if negb (Z.land code0 code1 =? 0) then Some (true, bounds)
      else
        let thiscode := if negb (code0 =? 0) then code0 else code1 in
        let '(x, y) :=
          if negb (Z.land thiscode 1 =? 0) then
            (fadd (x0 bounds)
                  (fdiv (fmul (fsub (x1 bounds) (x0 bounds))
                              (fsub (y1 clip) (y0 bounds)))
                        (fsub (y1 bounds) (y0 bounds))),
             y1 clip)
          else if negb (Z.land thiscode 2 =? 0) then
            (fadd (x0 bounds)
                  (fdiv (fmul (fsub (x1 bounds) (x0 bounds))
                              (fsub (y0 clip) (y0 bounds)))
                        (fsub (y1 bounds) (y0 bounds))),
             y0 clip)
          else if negb (Z.land thiscode 4 =? 0) then
            (x1 clip,
             fadd (y0 bounds)
                  (fdiv (fmul (fsub (y1 bounds) (y0 bounds))
                              (fsub (x1 clip) (x0 bounds)))
                        (fsub (x1 bounds) (x0 bounds))))
          else
            (x0 clip,
             fadd (y0 bounds)
                  (fdiv (fmul (fsub (y1 bounds) (y0 bounds))
                              (fsub (x0 clip) (x0 bounds)))
                        (fsub (x1 bounds) (x0 bounds)))) in
        if thiscode =? code0 then
          render_clip_line fuel' (mk_bounds x y (x1 bounds) (y1 bounds)) clip
        else
          render_clip_line fuel' (mk_bounds (x0 bounds) (y0 bounds) x y) clip
  end.

(** [render_line_to_quad]: the two bounds hold the corners A, B (around
    point 0) and C, D (around point 1). *)
Definition render_line_to_quad {F} `{Arith F} (bounds : render_bounds F)
    (width length_extension : F) : render_bounds F * render_bounds F :=
  let half_width := fmul width fhalf in
  let unitx := fsub (x1 bounds) (x0 bounds) in
  let unity := fsub (y1 bounds) (y0 bounds) in
  let '(modbounds, unitx, unity) :=
    if feqb unitx fzero && feqb unity fzero then
      let unit := fmul funit_length half_width in
      (mk_bounds (fsub (x0 bounds) unit) (fsub (y0 bounds) unit)
                 (fadd (x1 bounds) unit) (fadd (y1 bounds) unit),
       unit, unit)
    else
      let length := fsqrt (fadd (fmul unitx unitx) (fmul unity unity)) in
      let modbounds :=
        if fgtb length_extension fzero then
          let half_length_extension := fmul length_extension fhalf in
          let directionx := fdiv unitx length in
          let directiony := fdiv unity length in
          mk_bounds (fsub (x0 bounds) (fmul directionx half_length_extension))
                    (fsub (y0 bounds) (fmul directiony half_length_extension))
                    (fadd (x1 bounds) (fmul directionx half_length_extension))
                    (fadd (y1 bounds) (fmul directiony half_length_extension))
        else bounds in
      let invlength := fdiv half_width length in
      (modbounds, fmul unitx invlength, fmul unity invlength) in
  (mk_bounds (fsub (x0 modbounds) unity) (fadd (y0 modbounds) unitx)
             (fadd (x0 modbounds) unity) (fsub (y0 modbounds) unitx),
   mk_bounds (fsub (x1 modbounds) unity) (fadd (y1 modbounds) unitx)
             (fadd (x1 modbounds) unity) (fsub (y1 modbounds) unitx)).

(** The four corners of the quad, as points. *)
Definition quad_corners {F} (q : render_bounds F * render_bounds F)
    : list (F * F) :=
  [ (x0 (fst q), y0 (fst q)); (x1 (fst q), y1 (fst q));
    (x0 (snd q), y0 (snd q)); (x1 (snd q), y1 (snd q)) ].

(* ===================================================================== *)
(** ** The resamplers *)
(* ===================================================================== *)

Record render_color := mk_color {
  col_a : spec_float; col_r : spec_float; col_g : spec_float; col_b : spec_float
}.

(** "precompute premultiplied R/G/B/A factors": four conversions of a
    [float] to [u32], each of which may be undefined. *)
Definition tint_factors (color : render_color) : option (Z * Z * Z * Z) :=
  r <- F32.to_u32 (F32.mul (F32.mul (col_r color) (col_a color)) F32.lit_256) ;;
  g <- F32.to_u32 (F32.mul (F32.mul (col_g color) (col_a color)) F32.lit_256) ;;
  b <- F32.to_u32 (F32.mul (F32.mul (col_b color) (col_a color)) F32.lit_256) ;;
  a <- F32.to_u32 (F32.mul (col_a color) F32.lit_256) ;;
  Some (r, g, b, a).

(** The tail shared by the three samplers: "if we're translucent, add in
    the destination pixel contribution", then store the pixel.  [wrap] is
    the width of the accumulators ([u32] or [u64]). *)
Definition blend_store (wrap : Z -> Z) (dest : pixmem) (idx a : Z)
    (suma sumr sumg sumb : Z) : pixmem :=
  let '(suma, sumr, sumg, sumb) :=
    if a <? 256 then
      let dpix := dest idx in
      (wrap (suma + u32 (pix_a dpix * u32 (256 - a))),
       wrap (sumr + u32 (pix_r dpix * u32 (256 - a))),
       wrap (sumg + u32 (pix_g dpix * u32 (256 - a))),
       wrap (sumb + u32 (pix_b dpix * u32 (256 - a))))
    else (suma, sumr, sumg, sumb) in
  store dest idx (rgb_t suma sumr sumg sumb).

(** [resample_argb_bitmap_integer] *)
Definition resample_argb_bitmap_integer (dest : pixmem)
    (drowpixels dwidth dheight : Z) (source : pixmem)
    (srowpixels swidth sheight : Z) (color : render_color) (dx dy : Z)
    : option pixmem :=
  '(r, g, b, a) <- tint_factors color ;;
  for_loop (Z.to_nat dheight) 0 (fun y dest =>
    let cury := u32 (y * dy) in
    for_loop (Z.to_nat dwidth) 0 (fun x dest =>
      let curx := u32 (x * dx) in
      let pix := source (u32 (Z.shiftr cury 12 * srowpixels + Z.shiftr curx 12)) in
      let suma := u32 (pix_a pix * a) / 256 in
      let sumr := u32 (pix_r pix * r) / 256 in
      let sumg := u32 (pix_g pix * g) / 256 in
      let sumb := u32 (pix_b pix * b) / 256 in
      Some (blend_store u32 dest (u32 (y * drowpixels + x)) a suma sumr sumg sumb))
    dest) dest.

(** "accumulate the RGBA values" over the visited cells of one pixel. *)
Definition average_sums (source : pixmem) (srowpixels : Z)
    (cells : list (Z * Z * Z)) : Z * Z * Z * Z :=
  fold_left (fun sums c =>
    let '(sumr, sumg, sumb, suma) := sums in
    let factor := cell_factor c in
    let pix := source (u32 (Z.shiftr (cell_cury c) 12 * srowpixels
                            + Z.shiftr (cell_curx c) 12)) in
    (u64 (sumr + u32 (factor * pix_r pix)),
     u64 (sumg + u32 (factor * pix_g pix)),
     u64 (sumb + u32 (factor * pix_b pix)),
     u64 (suma + u32 (factor * pix_a pix))))
  cells (0, 0, 0, 0).

(** [resample_argb_bitmap_average] *)
Definition resample_argb_bitmap_average (dest : pixmem)
    (drowpixels dwidth dheight : Z) (source : pixmem)
    (srowpixels swidth sheight : Z) (color : render_color) (dx dy : Z)
    : option pixmem :=
  let sumscale := u64 (dx * dy) in
  '(r, g, b, a) <- tint_factors color ;;
  for_loop (Z.to_nat dheight) 0 (fun y dest =>
    for_loop (Z.to_nat dwidth) 0 (fun x dest =>
      let '(sumr, sumg, sumb, suma) :=
        average_sums source srowpixels (average_cells dx dy x y) in
      qa <- udiv suma sumscale ;;
      qr <- udiv sumr sumscale ;;
      qg <- udiv sumg sumscale ;;
      qb <- udiv sumb sumscale ;;
      let suma := u64 (qa * a) / 256 in
      let sumr := u64 (qr * r) / 256 in
      let sumg := u64 (qg * g) / 256 in
      let sumb := u64 (qb * b) / 256 in
      Some (blend_store u64 dest (u32 (y * drowpixels + x)) a suma sumr sumg sumb))
    dest) dest.

(** [resample_argb_bitmap_bilinear] *)
Definition resample_argb_bitmap_bilinear (dest : pixmem)
    (drowpixels dwidth dheight : Z) (source : pixmem)
    (srowpixels swidth sheight : Z) (color : render_color) (dx dy : Z)
    : option pixmem :=
  let maxx := u32 (Z.shiftl swidth 12) in
  let maxy := u32 (Z.shiftl sheight 12) in
  '(r, g, b, a) <- tint_factors color ;;
  for_loop (Z.to_nat dheight) 0 (fun y dest =>
    let starty := u32 (y * dy) in
    for_loop (Z.to_nat dwidth) 0 (fun x dest =>
      let startx := u32 (x * dx) in
      let curx := u32 (startx + dx / 2 - 0x800) in
      let cury := u32 (starty + dy / 2 - 0x800) in
      let nextx := u32 (curx + 0x1000) in
      let nexty := u32 (cury + 0x1000) in
      let inside (cy cx : Z) : bool :=
        (0 <=? s32 cy) && (cy <? maxy) && (0 <=? s32 cx) && (cx <? maxx) in
      let fetch (cy cx : Z) : Z :=
        if inside cy cx
        then source (u32 (Z.shiftr cy 12 * srowpixels + Z.shiftr cx 12))
        else 0 in
      let pix0 := fetch cury curx in
      let pix1 := fetch cury nextx in
      let pix2 := fetch nexty curx in
      let pix3 := fetch nexty nextx in
      let curx := Z.land curx 0xfff in
      let cury := Z.land cury 0xfff in
      let f0 := u32 ((0x1000 - curx) * (0x1000 - cury)) in
      let f1 := u32 (curx * (0x1000 - cury)) in
      let f2 := u32 ((0x1000 - curx) * cury) in
      let f3 := u32 (curx * cury) in
      let acc (ch : Z -> Z) : Z :=
        u32 (u32 (u32 (u32 (f0 * ch pix0) + u32 (f1 * ch pix1))
                  + u32 (f2 * ch pix2)) + u32 (f3 * ch pix3)) in
      let suma := u32 (Z.shiftr (acc pix_a) 24 * a) / 256 in
      let sumr := u32 (Z.shiftr (acc pix_r) 24 * r) / 256 in
      let sumg := u32 (Z.shiftr (acc pix_g) 24 * g) / 256 in
      let sumb := u32 (Z.shiftr (acc pix_b) 24 * b) / 256 in
      Some (blend_store u32 dest (u32 (y * drowpixels + x)) a suma sumr sumg sumb))
    dest) dest.

(** *** The dispatcher *)

Inductive sampler := SamplerAverage | SamplerInteger | SamplerBilinear.

Record selection := mk_selection {
  sel_sampler : sampler;
  sel_dx : Z;
  sel_dy : Z
}.

(** [ceil(float(n << 12) / d)] converted back to [u32]. *)
Definition ceil_step (n d : Z) : option Z :=
  F32.to_u32 (F32.ceil (F32.div (F32.of_Z (u32 (Z.shiftl n 12))) (F32.of_Z d))).

(** The choice made by [render_resample_argb_bitmap_hq] once the
    destination is known to be non-empty: which sampler runs, and with
    which steps. *)
Definition select_sampler (swidth sheight dwidth dheight : Z) (force : bool)
    : option selection :=
  let dx := u32 (Z.shiftl swidth 12) / dwidth in
  let dy := u32 (Z.shiftl sheight 12) / dheight in
  if (dx >? 0x1000) || (dy >? 0x1000) || force then
    Some (mk_selection SamplerAverage dx dy)
  else
    dx <- ceil_step swidth dwidth ;;
    dy <- ceil_step sheight dheight ;;
    mw <- umod dwidth swidth ;;
    if mw =? 0 then
      mh <- umod dheight sheight ;;
      if mh =? 0 then Some (mk_selection SamplerInteger dx dy)
      else Some (mk_selection SamplerBilinear dx dy)
    else Some (mk_selection SamplerBilinear dx dy).

Definition run_sampler (s : sampler) :=
  match s with
  | SamplerAverage => resample_argb_bitmap_average
  | SamplerInteger => resample_argb_bitmap_integer
  | SamplerBilinear => resample_argb_bitmap_bilinear
  end.

(** [render_resample_argb_bitmap_hq]: the destination after the call. *)
Definition render_resample_argb_bitmap_hq (dest source : bitmap_argb32)
    (color : render_color) (force : bool) : option bitmap_argb32 :=
  if (bm_width dest =? 0) || (bm_height dest =? 0) then Some dest
  else
    let swidth := bm_width source in
    let sheight := bm_height source in
    let dwidth := bm_width dest in
    let dheight := bm_height dest in
    sel <- select_sampler swidth sheight dwidth dheight force ;;
    base <- run_sampler (sel_sampler sel) (bm_base dest) (bm_rowpixels dest)
              dwidth dheight (bm_base source) (bm_rowpixels source)
              swidth sheight color (sel_dx sel) (sel_dy sel) ;;
    Some (mk_bitmap (bm_width dest) (bm_height dest) (bm_rowpixels dest) base).

(** The tint of the identity property: r = g = b = a = 1.0. *)
Definition color_white : render_color :=
  mk_color (F32.of_Z 1) (F32.of_Z 1) (F32.of_Z 1) (F32.of_Z 1).

(** Sample bitmaps: a 2 x 1 pair, and a pair 2^20 pixels wide whose
    source holds a single non-zero pixel at x = 1. *)
Definition small_source : bitmap_argb32 :=
  mk_bitmap 2 1 2 (fun i => if i =? 0 then 0x80112233 else 0xff445566).
Definition small_dest : bitmap_argb32 := mk_bitmap 2 1 2 (fun _ => 0).
Definition wide_source : bitmap_argb32 :=
  mk_bitmap 1048576 1 1048576 (fun i => if i =? 1 then 1 else 0).
Definition wide_dest : bitmap_argb32 := mk_bitmap 1048576 1 1048576 (fun _ => 0).

(** A point lies inside [clip] when it is within the closed rectangle. *)
Definition point_inside (x y : spec_float) (clip : render_bounds spec_float) : bool :=
  F32.leb (x0 clip) x && F32.leb x (x1 clip) &&
  F32.leb (y0 clip) y && F32.leb y (y1 clip).

(** Sample geometry: the clip rectangle (0,0)-(10,10), a segment inside
    it, the segment (-10,-10)-(-5,-5) outside it, and the point (5,5). *)
Definition clip_0_10 : render_bounds spec_float :=
  mk_bounds (F32.of_Z 0) (F32.of_Z 0) (F32.of_Z 10) (F32.of_Z 10).
Definition segment_inside : render_bounds spec_float :=
  mk_bounds (F32.of_Z 1) (F32.of_Z 2) (F32.of_Z 7) (F32.of_Z 9).
Definition segment_outside : render_bounds spec_float :=
  mk_bounds (F32.of_Z (-10)) (F32.of_Z (-10)) (F32.of_Z (-5)) (F32.of_Z (-5)).
Definition point_5_5 {F} (five : F) : render_bounds F := mk_bounds five five five five.

(** The squared Euclidean distance of a single-precision point from
    [(c, c)], as an exact rational, and the Euclidean distance of a real
    point from [(cx, cy)]. *)
Definition dist2_Q (c : Q) (p : spec_float * spec_float) : Q :=
  ((F32.to_Q (fst p) - c) * (F32.to_Q (fst p) - c)
   + (F32.to_Q (snd p) - c) * (F32.to_Q (snd p) - c))%Q.

Definition dist_R (cx cy : R) (p : R * R) : R :=
  R_sqrt.sqrt (Rsqr (fst p - cx) + Rsqr (snd p - cy)).

(* ===================================================================== *)
(** ** Streams *)
(* ===================================================================== *)

(** Modelled from the spec: the stream abstraction ([util::random_read])
    is consumed, not implemented, by the file at hand.  It offers
    [read(buffer, maxBytes) -> bytesRead] and [seek(offset, origin)]; a
    seekable in-memory stream is its model. *)
Record random_read := mk_file { file_data : list Z; file_pos : Z }.

(** [read]: the bytes obtained (at most [n]) and the advanced stream. *)
Definition file_read (f : random_read) (n : Z) : list Z * random_read :=
  let got := firstn (Z.to_nat n) (skipn (Z.to_nat (file_pos f)) (file_data f)) in
  (got, mk_file (file_data f) (file_pos f + Z.of_nat (List.length got))).

(** [seek(0, SEEK_SET)] *)
Definition file_rewind (f : random_read) : random_read := mk_file (file_data f) 0.

(** The message codes the source manager raises itself; every other code
    belongs to the decoder library. *)
Inductive jmsg :=
| JERR_INPUT_EMPTY
| JWRN_JPEG_EOF
| JMSG_LIBRARY (code : Z).

(** Diagnostics sent to the logging collaborator: [osd_printf_error], and
    the warnings of the decoder. *)
Inductive diagnostic :=
| osd_error (msg : string)
| jpeg_warning (code : jmsg).

(* ===================================================================== *)
(** ** The chunked-format (PNG) loader *)
(* ===================================================================== *)

Record png_info := mk_png {
  png_width : Z;
  png_height : Z;
  png_bit_depth : Z;
  png_color_type : Z;
  png_interlace_method : Z;
  png_image : list Z;
  png_palette : list Z
}.

Definition byte_at (l : list Z) (i : Z) : Z := nth (Z.to_nat i) l 0.

(** "colour format table" and "adam7 interlace tables" *)
Definition samples : list Z := [1; 0; 3; 1; 2; 0; 4].
Definition x_bias : list Z := [7; 3; 3; 1; 1; 0; 0].
Definition y_bias : list Z := [7; 7; 3; 3; 1; 1; 0].
Definition x_shift : list Z := [3; 3; 2; 2; 1; 1; 0].
Definition y_shift : list Z := [3; 3; 3; 2; 2; 1; 1].

Definition pass_count (png : png_info) : Z :=
  if png_interlace_method png =? 0 then 1 else 7.

(** "calculate offset for next interlace pass": the width, height and
    row size of a pass. *)
Definition pass_width (png : png_info) (pass : Z) : Z :=
  if png_interlace_method png =? 0 then png_width png
  else Z.shiftr (u32 (png_width png + byte_at x_bias pass)) (byte_at x_shift pass).

Definition pass_height (png : png_info) (pass : Z) : Z :=
  if png_interlace_method png =? 0 then png_height png
  else Z.shiftr (u32 (png_height png + byte_at y_bias pass)) (byte_at y_shift pass).

Definition pass_rowbytes (png : png_info) (pass : Z) : Z :=
  Z.shiftr
    (u32 (u32 (u32 (pass_width png pass * byte_at samples (png_color_type png))
               * png_bit_depth png) + 7)) 3.

(** [pass_offset[pass]]: filled in pass after pass, starting from 0. *)
Fixpoint pass_offset (png : png_info) (pass : nat) : Z :=
  match pass with
  | O => 0
  | S p =>
      u32 (pass_offset png p
           + u32 (pass_height png (Z.of_nat p)
                  * u32 (pass_rowbytes png (Z.of_nat p) + 1)))
  end.

Definition x_trans (pass x : Z) : Z :=
  let offs := u32 (Z.shiftl 1 (byte_at x_shift pass) - byte_at x_bias pass - 1) in
  u32 (u32 (Z.shiftl x (byte_at x_shift pass)) + offs).

Definition y_trans (pass y : Z) : Z :=
  let offs := u32 (Z.shiftl 1 (byte_at y_shift pass) - byte_at y_bias pass - 1) in
  u32 (u32 (Z.shiftl y (byte_at y_shift pass)) + offs).

(** The header that declares [rgb_t::brightness] is not among the sources
    at hand, so the loader takes the brightness of an (r, g, b) triple as
    a parameter.  [luma] is a weighting of the usual kind, used where a
    concrete one is needed. *)
Definition luma (r g b : Z) : Z := (r * 222 + g * 707 + b * 71) / 1000.

Section OverlayAlpha.
Variable brightness : Z -> Z -> Z -> Z.

(** The alpha derived from the source pixel at [src], by colour type:
    palettised, grayscale, grayscale + alpha, RGB, and RGB + alpha. *)
Definition derived_alpha (png : png_info) (src : Z) : Z :=
  let image := png_image png in
  let palette := png_palette png in
  if png_color_type png =? 3 then
    let idx := byte_at image src in
    u8 (brightness (byte_at palette (idx * 3)) (byte_at palette (idx * 3 + 1))
                   (byte_at palette (idx * 3 + 2)))
  else if png_color_type png =? 0 then byte_at image src
  else if png_color_type png =? 4 then byte_at image src
  else if png_color_type png =? 2 then
    u8 (brightness (byte_at image src) (byte_at image (src + 1))
                   (byte_at image (src + 2)))
  else
    u8 (brightness (byte_at image src) (byte_at image (src + 1))
                   (byte_at image (src + 2))).

(** How far [src] advances per pixel in each of the five loops. *)
Definition src_stride (png : png_info) : Z :=
  if png_color_type png =? 3 then 1
  else if png_color_type png =? 0 then 1
  else if png_color_type png =? 4 then 2
  else if png_color_type png =? 2 then 3
  else 4.

(** The running state of the copy: the source position, the accumulated
    alpha, and the bitmap. *)
Record copy_state := mk_copy {
  cs_src : Z;
  cs_accumalpha : Z;
  cs_bitmap : bitmap_argb32
}.

(** One round of the inner loops: derive the alpha, fold it into
    [accumalpha], and replace the alpha of the destination pixel. *)
Definition copy_pixel (png : png_info) (pass y x : Z) (s : copy_state)
    : copy_state :=
  let '(dy, dx) :=
    if png_interlace_method png =? 0 then (y, x)
    else (y_trans pass y, x_trans pass x) in
  let pixel := bm_pix (cs_bitmap s) dy dx in
  let alpha := derived_alpha png (cs_src s) in
  mk_copy (cs_src s + src_stride png)
          (Z.land (cs_accumalpha s) alpha)
          (bm_set (cs_bitmap s) dy dx
                  (rgb_t alpha (pix_r pixel) (pix_g pixel) (pix_b pixel))).

Fixpoint copy_row (png : png_info) (pass y : Z) (n : nat) (x : Z)
    (s : copy_state) : copy_state :=
  match n with
  | O => s
  | S n' => copy_row png pass y n' (x + 1) (copy_pixel png pass y x s)
  end.

Fixpoint copy_rows (png : png_info) (pass width : Z) (n : nat) (y : Z)
    (s : copy_state) : copy_state :=
  match n with
  | O => s
  | S n' =>
      copy_rows png pass width n' (y + 1)
                (copy_row png pass y (Z.to_nat width) 0 s)
  end.

(** One interlace pass: [src] restarts at [pass_offset[pass]]. *)
Definition copy_pass (png : png_info) (pass : nat) (s : copy_state)
    : copy_state :=
  let width := pass_width png (Z.of_nat pass) in
  let height := pass_height png (Z.of_nat pass) in
  copy_rows png (Z.of_nat pass) width (Z.to_nat height) 0
            (mk_copy (pass_offset png pass) (cs_accumalpha s) (cs_bitmap s)).

Fixpoint copy_passes (png : png_info) (n : nat) (pass : nat) (s : copy_state)
    : copy_state :=
  match n with
  | O => s
  | S n' => copy_passes png n' (S pass) (copy_pass png pass s)
  end.

(** [copy_png_alpha_to_bitmap]: the "has alpha" verdict and the bitmap. *)
Definition copy_png_alpha_to_bitmap (bitmap : bitmap_argb32) (png : png_info)
    : bool * bitmap_argb32 :=
  let s := copy_passes png (Z.to_nat (pass_count png)) 0
                       (mk_copy 0 0xff bitmap) in
  (negb (cs_accumalpha s =? 0xff), cs_bitmap s).

(** The external reader: [read_file], [expand_buffer_8bit] and
    [copy_to_bitmap] report an error as [None]. *)
Record png_reader := mk_png_reader {
  png_read_file : random_read -> option png_info;
  png_expand_buffer_8bit : png_info -> option png_info;
  png_copy_to_bitmap : png_info -> option (bitmap_argb32 * bool)
}.

(** [render_load_png]: the verdict, the bitmap and the diagnostics. *)
Definition render_load_png (reader : png_reader) (bitmap : bitmap_argb32)
    (file : random_read) (load_as_alpha_to_existing : bool)
    : bool * bitmap_argb32 * list diagnostic :=
  let bitmap := if negb load_as_alpha_to_existing then bm_empty else bitmap in
  match png_read_file reader file with
  | None => (false, bitmap, [osd_error "Error reading PNG file"%string])
  | Some png =>
      match png_expand_buffer_8bit reader png with
      | None => (false, bitmap, [osd_error "Error upsampling PNG bitmap"%string])
      | Some png =>
          if negb load_as_alpha_to_existing then
            match png_copy_to_bitmap reader png with
            | None =>
                (false, bitmap,
                 [osd_error "Error copying PNG bitmap to MAME bitmap"%string])
            | Some (bitmap', hasalpha) => (hasalpha, bitmap', [])
            end
          else if (png_width png =? bm_width bitmap)
                  && (png_height png =? bm_height bitmap) then
            if png_bit_depth png >? 8 then
              (false, bitmap, [osd_error "Unsupported bit depth (8 bit max)"%string])
            else
              let '(hasalpha, bitmap') := copy_png_alpha_to_bitmap bitmap png in
              (hasalpha, bitmap', [])
          else (false, bitmap, [])
      end
  end.
End OverlayAlpha.

(** Every pixel of pass [pass], as the loops meet it, derives the alpha
    0xFF. *)
Definition pass_bright (brightness : Z -> Z -> Z -> Z) (png : png_info)
    (pass : nat) : Prop :=
  forall y x, 0 <= y < pass_height png (Z.of_nat pass) ->
              0 <= x < pass_width png (Z.of_nat pass) ->
    derived_alpha brightness png
      (pass_offset png pass
       + src_stride png * (pass_width png (Z.of_nat pass) * y + x)) = 255.

(** Sample images, 1 x 1, colour type 6 at 8 bits: an opaque black pixel,
    a fully transparent black pixel and a fully transparent white pixel. *)
Definition png_1x1 (r g b a : Z) : png_info := mk_png 1 1 8 6 0 [r; g; b; a] [].
Definition reader_of (png : png_info) : png_reader :=
  mk_png_reader (fun _ => Some png) (fun p => Some p) (fun _ => None).
Definition bitmap_1x1 : bitmap_argb32 := mk_bitmap 1 1 1 (fun _ => 0).
Definition empty_file : random_read := mk_file [] 0.

(* ===================================================================== *)
(** ** The compressed-format (JPEG) source manager *)
(* ===================================================================== *)

Definition INPUT_BUF_SIZE : Z := 4096.
Definition JPEG_EOI : Z := 0xD9.

(** [jpeg_corefile_source]: the stream, the buffer, the start-of-file
    flag, and the two fields of [jpeg_source_mgr] the decoder reads
    ([next_input_byte] as an offset into the buffer). *)
Record jpeg_corefile_source := mk_source {
  infile : random_read;
  buffer : list Z;
  start_of_file : bool;
  next_input_byte : Z;
  bytes_in_buffer : Z
}.

(** What the adapter and the callbacks share: the source and the log. *)
Record jstate := mk_jstate {
  js_src : jpeg_corefile_source;
  js_log : list diagnostic
}.

(** A call either returns or leaves through [error_exit], that is through
    [longjmp] to the recovery point. *)
Inductive outcome (A : Type) :=
| Returned (a : A)
| Jumped (code : jmsg).
Arguments Returned {A} _.
Arguments Jumped {A} _.

Definition with_src (st : jstate) (src : jpeg_corefile_source) : jstate :=
  mk_jstate src (js_log st).

(** [do_init] *)
Definition do_init (st : jstate) : jstate :=
  let src := js_src st in
  with_src st (mk_source (infile src) (buffer src) true
                         (next_input_byte src) (bytes_in_buffer src)).

(** [do_fill]: [ERREXIT] does not return; [WARNMS] logs and goes on. *)
Definition do_fill (st : jstate) : outcome unit * jstate :=
  let src := js_src st in
  let '(got, infile') := file_read (infile src) INPUT_BUF_SIZE in
  let nbytes := Z.of_nat (List.length got) in
  let buffer' := got ++ skipn (List.length got) (buffer src) in
  let st := with_src st (mk_source infile' buffer' (start_of_file src)
                                   (next_input_byte src) (bytes_in_buffer src)) in
  if nbytes <=? 0 then
    if start_of_file src then (Jumped JERR_INPUT_EMPTY, st)
    else
      let buffer'' := 0xff :: JPEG_EOI :: skipn 2 buffer' in
      (Returned tt,
       mk_jstate (mk_source infile' buffer'' false 0 2)
                 (js_log st ++ [jpeg_warning JWRN_JPEG_EOF]))
  else
    (Returned tt, with_src st (mk_source infile' buffer' false 0 nbytes)).

(** The loop of [do_skip]: [None] when the fuel runs out. *)
Fixpoint do_skip_loop (fuel : nat) (num_bytes : Z) (st : jstate)
    : option (outcome Z * jstate) :=
  match fuel with
  | O => None
  | S fuel' =>
      if bytes_in_buffer (js_src st) <? num_bytes then
        let num_bytes := num_bytes - bytes_in_buffer (js_src st) in
        match do_fill st with
        | (Returned _, st') => do_skip_loop fuel' num_bytes st'
        | (Jumped code, st') => Some (Jumped code, st')
        end
      else Some (Returned num_bytes, st)
  end.

(** [do_skip]; the fuel given always suffices ([do_skip_loop_total]). *)
Definition do_skip (num_bytes : Z) (st : jstate) : outcome unit * jstate :=
  if 0 <? num_bytes then
    match do_skip_loop (S (S (Z.to_nat num_bytes))) num_bytes st with
    | Some (Returned num_bytes, st') =>
        let src := js_src st' in
        (Returned tt,
         with_src st' (mk_source (infile src) (buffer src) (start_of_file src)
                                 (next_input_byte src + num_bytes)
                                 (bytes_in_buffer src - num_bytes)))
    | Some (Jumped code, st') => (Jumped code, st')
    | None => (Returned tt, st)
    end
  else (Returned tt, st).

(** [jpeg_corefile_source::source]: a fresh source reading [file]; the
    flag is not initialised here, [uninit] is whatever the memory held. *)
Definition source (file : random_read) (uninit : bool) : jpeg_corefile_source :=
  mk_source file (repeat 0 (Z.to_nat INPUT_BUF_SIZE)) uninit 0 0.

(** The bytes the decoder may consume without a refill. *)
Definition available (st : jstate) : list Z :=
  firstn (Z.to_nat (bytes_in_buffer (js_src st)))
         (skipn (Z.to_nat (next_input_byte (js_src st))) (buffer (js_src st))).

(** *** The external decoder *)

(** Modelled from the spec: the decoder is an external, pull-based
    library.  A call into it is a finite script of interactions with the
    source manager: it initialises the source, asks for a refill, skips
    input, consumes bytes of the buffer, and in the end returns a value
    or signals an unrecoverable error of its own. *)
Inductive jscript (A : Type) : Type :=
| JRet (a : A)
| JErrExit (code : Z)
| JInitSource (k : jscript A)
| JFillInput (k : list Z -> jscript A)
| JSkipInput (num_bytes : Z) (k : list Z -> jscript A)
| JConsume (n : Z) (k : list Z -> jscript A).
Arguments JRet {A} _.
Arguments JErrExit {A} _.
Arguments JInitSource {A} _.
Arguments JFillInput {A} _.
Arguments JSkipInput {A} _ _.
Arguments JConsume {A} _ _.

Fixpoint run_script {A : Type} (s : jscript A) (st : jstate)
    : outcome A * jstate :=
  match s with
  | JRet a => (Returned a, st)
  | JErrExit code => (Jumped (JMSG_LIBRARY code), st)
  | JInitSource k => run_script k (do_init st)
  | JFillInput k =>
      match do_fill st with
      | (Returned _, st') => run_script (k (available st')) st'
      | (Jumped code, st') => (Jumped code, st')
      end
  | JSkipInput num_bytes k =>
      match do_skip num_bytes st with
      | (Returned _, st') => run_script (k (available st')) st'
      | (Jumped code, st') => (Jumped code, st')
      end
  | JConsume n k =>
      let src := js_src st in
      let st' := with_src st (mk_source (infile src) (buffer src)
                                        (start_of_file src)
                                        (next_input_byte src + n)
                                        (bytes_in_buffer src - n)) in
      run_script (k (available st')) st'
  end.

(** The entry points of the library the adapter calls, over a decoder
    state [D] of the library's own.  [jpeg_read_scanlines] is asked for
    one line and delivers one line of samples, or fails. *)
Record libjpeg (D : Type) := mk_libjpeg {
  jpeg_create_decompress : D + Z;
  jpeg_read_header : D -> jscript D;
  jpeg_start_decompress : D -> jscript D;
  output_width : D -> Z;
  output_height : D -> Z;
  output_components : D -> Z;
  jpeg_read_scanlines : D -> jscript (D * list Z);
  jpeg_finish_decompress : D -> jscript D;
  format_message : jmsg -> string
}.
Arguments mk_libjpeg {D} _ _ _ _ _ _ _ _ _.
Arguments jpeg_create_decompress {D} _.
Arguments jpeg_read_header {D} _ _.
Arguments jpeg_start_decompress {D} _ _.
Arguments output_width {D} _ _.
Arguments output_height {D} _ _.
Arguments output_components {D} _ _.
Arguments jpeg_read_scanlines {D} _ _.
Arguments jpeg_finish_decompress {D} _ _.
Arguments format_message {D} _ _.

(** What the environment decides: whether the two [malloc]s succeed, the
    uninitialised flag of a fresh source, and what the local [buffer] of
    [render_load_jpeg] is found to hold after a [longjmp].  [buffer] is an
    automatic object that is not volatile; once it has been assigned after
    [setjmp] (line 767), its value after a [longjmp] is indeterminate:
    [buffer_after_longjmp] maps the value left at the jump to the value
    found after it (the identity when the local lives in memory, the
    constant [None] when it lives in a register that the jump restores). *)
Record jpeg_env := mk_env {
  malloc_buffer_ok : bool;
  malloc_row_ok : bool;
  uninit_flag : bool;
  buffer_after_longjmp : option (option unit) -> option (option unit)
}.

(* ===================================================================== *)
(** ** The compressed-format (JPEG) loader *)
(* ===================================================================== *)

(** The locals of [render_load_jpeg] that outlive the recovery point:
    the bitmap, the scratch [buffer] ([None] = [nullptr]; [Some None] =
    allocated with [buffer[0] == nullptr]), the count of live [malloc]
    blocks, whether decoder state is live, and the shared state. *)
Record load_state := mk_load {
  ls_bitmap : bitmap_argb32;
  ls_buffer : option (option unit);
  ls_heap : Z;
  ls_decoder_live : bool;
  ls_js : jstate
}.

Definition set_bitmap (ls : load_state) (b : bitmap_argb32) : load_state :=
  mk_load b (ls_buffer ls) (ls_heap ls) (ls_decoder_live ls) (ls_js ls).
Definition set_js (ls : load_state) (st : jstate) : load_state :=
  mk_load (ls_bitmap ls) (ls_buffer ls) (ls_heap ls) (ls_decoder_live ls) st.
Definition log_error (ls : load_state) (msg : string) : load_state :=
  set_js ls (mk_jstate (js_src (ls_js ls)) (js_log (ls_js ls) ++ [osd_error msg])).

(** The count of live blocks agrees with the scratch pointers. *)
Definition heap_ok (ls : load_state) : Prop :=
  ls_heap ls = match ls_buffer ls with
               | Some (Some _) => 2
               | Some None => 1
               | None => 0
               end.

(** A library call made by the adapter. *)
Definition call {A : Type} (s : jscript A) (ls : load_state)
    : outcome A * load_state :=
  let '(r, st) := run_script s (ls_js ls) in (r, set_js ls st).

(** "for (i = 0; i < w; ++i) bitmap.pix(j, i) = ..." for one scanline of
    [s] components per pixel. *)
Fixpoint store_scanline (s j : Z) (row : list Z) (n : nat) (i : Z)
    (b : bitmap_argb32) : bitmap_argb32 :=
  match n with
  | O => b
  | S n' =>
      let px :=
        if s =? 1 then
          rgb_t 0xff (byte_at row i) (byte_at row i) (byte_at row i)
        else
          rgb_t 0xff (byte_at row (i * s)) (byte_at row (i * s + 1))
                     (byte_at row (i * s + 2)) in
      store_scanline s j row n' (i + 1) (bm_set b j i px)
  end.

Section Loader.
Context {D : Type}.
Variable lib : libjpeg D.
Variable env : jpeg_env.

(** "while (cinfo.output_scanline < cinfo.output_height)": [n] lines are
    left, [j] is the current [output_scanline]. *)
Fixpoint read_lines (w s : Z) (n : nat) (j : Z) (d : D) (ls : load_state)
    : outcome D * load_state :=
  match n with
  | O => (Returned d, ls)
  | S n' =>
      match call (jpeg_read_scanlines lib d) ls with
      | (Jumped code, ls) => (Jumped code, ls)
      | (Returned (d, row), ls) =>
          if (s =? 1) || (s =? 3) then
            read_lines w s n' (j + 1) d
              (set_bitmap ls (store_scanline s j row (Z.to_nat w) 0 (ls_bitmap ls)))
          else
            (Returned d,
             set_bitmap (log_error ls "Cannot read JPEG data from file.") bm_empty)
      end
  end.

(** A [longjmp] taken after [buffer] has been assigned: the blocks stay
    as they are, the local is found as the environment has it. *)
Definition longjmp_after_assignment (ls : load_state) : load_state :=
  mk_load (ls_bitmap ls) (buffer_after_longjmp env (ls_buffer ls)) (ls_heap ls)
          (ls_decoder_live ls) (ls_js ls).

(** The statements between the recovery point and the [cleanup] label.
    A jump out of [jpeg_read_header] or [jpeg_start_decompress] precedes
    the assignment of [buffer]; one out of [jpeg_read_scanlines] or
    [jpeg_finish_decompress] follows it. *)
Definition decode_body (file : random_read) (ls : load_state)
    : outcome unit * load_state :=
  match jpeg_create_decompress lib with
  | inr code => (Jumped (JMSG_LIBRARY code), ls)
  | inl d =>
      let ls := mk_load (ls_bitmap ls) (ls_buffer ls) (ls_heap ls) true
                        (mk_jstate (source file (uninit_flag env))
                                   (js_log (ls_js ls))) in
      match call (jpeg_read_header lib d) ls with
      | (Jumped code, ls) => (Jumped code, ls)
      | (Returned d, ls) =>
      match call (jpeg_start_decompress lib d) ls with
      | (Jumped code, ls) => (Jumped code, ls)
      | (Returned d, ls) =>
          let w := output_width lib d in
          let h := output_height lib d in
          let s := output_components lib d in
          let ls := set_bitmap ls (bm_allocate w h) in
          let ls :=
            if malloc_buffer_ok env then
              if malloc_row_ok env then
                mk_load (ls_bitmap ls) (Some (Some tt)) (ls_heap ls + 2)
                        (ls_decoder_live ls) (ls_js ls)
              else
                mk_load (ls_bitmap ls) (Some None) (ls_heap ls + 1)
                        (ls_decoder_live ls) (ls_js ls)
            else ls in
          let '(r, ls) :=
            match ls_buffer ls with
            | Some (Some _) =>
                if bm_valid (ls_bitmap ls) then
                  read_lines w s (Z.to_nat h) 0 d ls
                else
                  (Returned d,
                   set_bitmap (log_error ls "Error allocating memory for JPEG image.")
                              bm_empty)
            | _ =>
                (Returned d,
                 set_bitmap (log_error ls "Error allocating memory for JPEG image.")
                            bm_empty)
            end in
          match r with
          | Jumped code => (Jumped code, longjmp_after_assignment ls)
          | Returned d =>
              match call (jpeg_finish_decompress lib d) ls with
              | (Jumped code, ls) => (Jumped code, longjmp_after_assignment ls)
              | (Returned _, ls) => (Returned tt, ls)
              end
          end
      end
      end
  end.

(** The block entered when [setjmp] returns non-zero. *)
Definition on_longjmp (code : jmsg) (ls : load_state) : load_state :=
  set_bitmap
    (log_error ls ("JPEG error reading data from file: " ++ format_message lib code))
    bm_empty.

(** From the [cleanup] label to the end: [jpeg_destroy_decompress], then
    the two [free]s guarded by the pointers as the local [buffer] has
    them; [ls_heap] counts the blocks obtained from [malloc] and not
    handed to [free]. *)
Definition cleanup (ls : load_state) : load_state :=
  let heap :=
    match ls_buffer ls with
    | Some (Some _) => ls_heap ls - 2
    | Some None => ls_heap ls - 1
    | None => ls_heap ls
    end in
  mk_load (ls_bitmap ls) (ls_buffer ls) heap false (ls_js ls).

(** The state at the recovery point: "deallocate previous bitmap", no
    scratch buffer yet, nothing allocated, nothing logged. *)
Definition at_setjmp (bitmap : bitmap_argb32) (file : random_read) : load_state :=
  mk_load bm_empty None 0 false (mk_jstate (source file (uninit_flag env)) []).

(** [render_load_jpeg]: what the caller finds after the call.  After a
    jump, [cleanup] reads [buffer] as [decode_body] hands it on: as it
    was left when the jump precedes its assignment, as the environment
    has it otherwise. *)
Definition render_load_jpeg (bitmap : bitmap_argb32) (file : random_read)
    : load_state :=
  match decode_body file (at_setjmp bitmap file) with
  | (Jumped code, ls) => cleanup (on_longjmp code ls)
  | (Returned _, ls) => cleanup ls
  end.
End Loader.

(* ===================================================================== *)
(** ** The format sniffer *)
(* ===================================================================== *)

Inductive ru_imgformat :=
| RENDUTIL_IMGFORMAT_PNG
| RENDUTIL_IMGFORMAT_JPEG
| RENDUTIL_IMGFORMAT_MSDIB
| RENDUTIL_IMGFORMAT_UNKNOWN.

(** The two external header checks: whether the header is valid, and the
    stream as the check leaves it. *)
Record header_checks := mk_checks {
  png_verify_header : random_read -> bool * random_read;
  msdib_verify_header : random_read -> bool * random_read
}.

Section Sniffer.
Context {D : Type}.
Variable lib : libjpeg D.
Variable env : jpeg_env.
Variable checks : header_checks.

(** "PNG: check for valid header" *)
Definition probe_png (file : random_read) : bool * random_read :=
  let '(ok, file) := png_verify_header checks file in
  (ok, file_rewind file).

(** "JPEG: attempt to read header with libjpeg": both the normal path and
    the [notjpeg] path destroy the decoder and rewind the stream. *)
Definition probe_jpeg (file : random_read) : bool * random_read :=
  match jpeg_create_decompress lib with
  | inr _ => (false, file_rewind file)
  | inl d =>
      let st := mk_jstate (source file (uninit_flag env)) [] in
      match run_script (jpeg_read_header lib d) st with
      | (Returned _, st) => (true, file_rewind (infile (js_src st)))
      | (Jumped _, st) => (false, file_rewind (infile (js_src st)))
      end
  end.

(** "Microsoft DIB: check for valid header" *)
Definition probe_msdib (file : random_read) : bool * random_read :=
  let '(ok, file) := msdib_verify_header checks file in
  (ok, file_rewind file).

(** [render_detect_image]: the format tag and the stream afterwards. *)
Definition render_detect_image (file : random_read)
    : ru_imgformat * random_read :=
  let '(png, file) := probe_png file in
  if png then (RENDUTIL_IMGFORMAT_PNG, file)
  else
    let '(jpeg, file) := probe_jpeg file in
    if jpeg then (RENDUTIL_IMGFORMAT_JPEG, file)
    else
      let '(msdib, file) := probe_msdib file in
      if msdib then (RENDUTIL_IMGFORMAT_MSDIB, file)
      else (RENDUTIL_IMGFORMAT_UNKNOWN, file).
End Sniffer.

(** Sample decoders over a trivial decoder state: one whose header parser
    initialises the source and asks for input at once, as a parser must
    before it can read a marker, and which then expects a 1 x 1 grayscale
    image; and one whose header parser fails on its own. *)
Definition eager_decoder : libjpeg unit :=
  mk_libjpeg (inl tt)
    (fun _ => JInitSource (JFillInput (fun _ => JRet tt)))
    (fun _ => JRet tt)
    (fun _ => 1) (fun _ => 1) (fun _ => 1)
    (fun _ => JFillInput (fun bytes => JRet (tt, bytes)))
    (fun _ => JRet tt)
    (fun code => match code with
                 | JERR_INPUT_EMPTY => "Empty input file"
                 | JWRN_JPEG_EOF => "Premature end of JPEG file"
                 | JMSG_LIBRARY _ => "Library error"
                 end%string).

Definition failing_decoder : libjpeg unit :=
  mk_libjpeg (inl tt)
    (fun _ => JErrExit 55)
    (fun _ => JRet tt)
    (fun _ => 1) (fun _ => 1) (fun _ => 1)
    (fun _ => JRet (tt, []))
    (fun _ => JRet tt)
    (fun _ => "Not a JPEG file"%string).

(** A decoder that reads its header from the stream, announces a 1 x 1
    grayscale image, and fails on its own while reading the scan. *)
Definition corrupt_scan_decoder : libjpeg unit :=
  mk_libjpeg (inl tt)
    (fun _ => JInitSource (JFillInput (fun _ => JRet tt)))
    (fun _ => JRet tt)
    (fun _ => 1) (fun _ => 1) (fun _ => 1)
    (fun _ => JErrExit 9)
    (fun _ => JRet tt)
    (fun _ => "Corrupt JPEG data"%string).

(** A decoder that cannot even set its state up. *)
Definition no_memory_decoder : libjpeg unit :=
  mk_libjpeg (inr 56)
    (fun _ => JRet tt)
    (fun _ => JRet tt)
    (fun _ => 1) (fun _ => 1) (fun _ => 1)
    (fun _ => JRet (tt, []))
    (fun _ => JRet tt)
    (fun _ => "Insufficient memory"%string).

(** Both allocations succeed and the flag of a fresh source is clear; in
    [env_ok] the local [buffer] is found after a jump as it was left, in
    [env_restoring] as it was at [setjmp]. *)
Definition env_ok : jpeg_env := mk_env true true false (fun b => b).
Definition env_restoring : jpeg_env := mk_env true true false (fun _ => None).

(** Sample header checks: a PNG check that looks for the first signature
    byte 0x89 after reading eight bytes, and a DIB check that looks for
    the two bytes "BM" after reading them. *)
Definition sample_checks : header_checks :=
  mk_checks
    (fun f => let '(got, f') := file_read f 8 in (byte_at got 0 =? 0x89, f'))
    (fun f => let '(got, f') := file_read f 2 in
              ((byte_at got 0 =? 0x42) && (byte_at got 1 =? 0x4d), f')).

Definition png_like_file : random_read :=
  mk_file [0x89; 0x50; 0x4e; 0x47; 0x0d; 0x0a; 0x1a; 0x0a; 0; 0] 0.
Definition unknown_file : random_read := mk_file [1; 2; 3; 4] 0.
Definition jpeg_like_file : random_read := mk_file [0xff; 0xd8; 0xff; 0xd9] 0.
Definition dib_like_file : random_read := mk_file [0x42; 0x4d; 0x46; 0; 0; 0] 0.

(* ===================================================================== *)
(** ** Geometry: quad clipping *)
(* ===================================================================== *)

(** [a <= b] on [float], through the operations of the interface: it
    holds exactly when [a < b] or [a == b]. *)
Definition fleb {F} `{Arith F} (a b : F) : bool := fltb a b || feqb a b.

Record render_texuv (F : Type) := mk_texuv { u : F; v : F }.
Arguments mk_texuv {F} _ _.
Arguments u {F} _.
Arguments v {F} _.

Record render_quad_texuv (F : Type) := mk_quad_texuv {
  tl : render_texuv F;
  tr : render_texuv F;
  bl : render_texuv F;
  br : render_texuv F
}.
Arguments mk_quad_texuv {F} _ _ _ _.
Arguments tl {F} _.
Arguments tr {F} _.
Arguments bl {F} _.
Arguments br {F} _.

(** [p.u += (q.u - p.u) * frac; p.v += (q.v - p.v) * frac] *)
Definition uv_advance {F} `{Arith F} (p q : render_texuv F) (frac : F)
    : render_texuv F :=
  mk_texuv (fadd (u p) (fmul (fsub (u q) (u p)) frac))
           (fadd (v p) (fmul (fsub (v q) (v p)) frac)).

(** [p.u -= (p.u - q.u) * frac; p.v -= (p.v - q.v) * frac] *)
Definition uv_retreat {F} `{Arith F} (p q : render_texuv F) (frac : F)
    : render_texuv F :=
  mk_texuv (fsub (u p) (fmul (fsub (u p) (u q)) frac))
           (fsub (v p) (fmul (fsub (v p) (v q)) frac)).

(** "clip top (x0,y0)-(x1,y1)" *)
Definition clip_top {F} `{Arith F} (clip : render_bounds F)
    (s : render_bounds F * option (render_quad_texuv F))
    : render_bounds F * option (render_quad_texuv F) :=
  let '(bounds, texcoords) := s in
  if fltb (y0 bounds) (y0 clip) then
    let frac := fdiv (fsub (y0 clip) (y0 bounds)) (fsub (y1 bounds) (y0 bounds)) in
    (mk_bounds (x0 bounds) (y0 clip) (x1 bounds) (y1 bounds),
     match texcoords with
     | Some t => Some (mk_quad_texuv (uv_advance (tl t) (bl t) frac)
                                     (uv_advance (tr t) (br t) frac)
                                     (bl t) (br t))
     | None => None
     end)
  else s.

(** "clip bottom (x3,y3)-(x2,y2)" *)
Definition clip_bottom {F} `{Arith F} (clip : render_bounds F)
    (s : render_bounds F * option (render_quad_texuv F))
    : render_bounds F * option (render_quad_texuv F) :=
  let '(bounds, texcoords) := s in
  if fgtb (y1 bounds) (y1 clip) then
    let frac := fdiv (fsub (y1 bounds) (y1 clip)) (fsub (y1 bounds) (y0 bounds)) in
    (mk_bounds (x0 bounds) (y0 bounds) (x1 bounds) (y1 clip),
     match texcoords with
     | Some t => Some (mk_quad_texuv (tl t) (tr t)
                                     (uv_retreat (bl t) (tl t) frac)
                                     (uv_retreat (br t) (tr t) frac))
     | None => None
     end)
  else s.

(** "clip left (x0,y0)-(x3,y3)" *)
Definition clip_left {F} `{Arith F} (clip : render_bounds F)
    (s : render_bounds F * option (render_quad_texuv F))
    : render_bounds F * option (render_quad_texuv F) :=
  let '(bounds, texcoords) := s in
  if fltb (x0 bounds) (x0 clip) then
    let frac := fdiv (fsub (x0 clip) (x0 bounds)) (fsub (x1 bounds) (x0 bounds)) in
    (mk_bounds (x0 clip) (y0 bounds) (x1 bounds) (y1 bounds),
     match texcoords with
     | Some t => Some (mk_quad_texuv (uv_advance (tl t) (tr t) frac) (tr t)
                                     (uv_advance (bl t) (br t) frac) (br t))
     | None => None
     end)
  else s.

(** "clip right (x1,y1)-(x2,y2)" *)
Definition clip_right {F} `{Arith F} (clip : render_bounds F)
    (s : render_bounds F * option (render_quad_texuv F))
    : render_bounds F * option (render_quad_texuv F) :=
  let '(bounds, texcoords) := s in
  if fgtb (x1 bounds) (x1 clip) then
    let frac := fdiv (fsub (x1 bounds) (x1 clip)) (fsub (x1 bounds) (x0 bounds)) in
    (mk_bounds (x0 bounds) (y0 bounds) (x1 clip) (y1 bounds),
     match texcoords with
     | Some t => Some (mk_quad_texuv (tl t) (uv_retreat (tr t) (tl t) frac)
                                     (bl t) (uv_retreat (br t) (bl t) frac))
     | None => None
     end)
  else s.

(** [render_clip_quad]: [None] when one of the two assertions on the
    bounds fails; otherwise the verdict ([true] = rejected), the bounds
    and the texture coordinates as left behind ([texcoords = None] for a
    null pointer). *)
Definition render_clip_quad {F} `{Arith F} (bounds clip : render_bounds F)
    (texcoords : option (render_quad_texuv F))
    : option (bool * render_bounds F * option (render_quad_texuv F)) :=
  if negb (fleb (x0 bounds) (x1 bounds)) then None
  else if negb (fleb (y0 bounds) (y1 bounds)) then None
  else if fltb (y1 bounds) (y0 clip) then Some (true, bounds, texcoords)
  else if fgtb (y0 bounds) (y1 clip) then Some (true, bounds, texcoords)
  else if fltb (x1 bounds) (x0 clip) then Some (true, bounds, texcoords)
  else if fgtb (x0 bounds) (x1 clip) then Some (true, bounds, texcoords)
  else
    let '(bounds, texcoords) :=
      clip_right clip (clip_left clip (clip_bottom clip
        (clip_top clip (bounds, texcoords)))) in
    Some (false, bounds, texcoords).

(** Sample geometry: a segment crossing the left edge of [clip_0_10], and
    a quad overhanging its top-left corner. *)
Definition segment_crossing : render_bounds spec_float :=
  mk_bounds (F32.of_Z (-5)) (F32.of_Z 5) (F32.of_Z 5) (F32.of_Z 5).
Definition quad_overhanging : render_bounds spec_float :=
  mk_bounds (F32.of_Z (-4)) (F32.of_Z (-2)) (F32.of_Z 6) (F32.of_Z 8).

(** One round of the loop of [render_clip_line]: the verdict it returns
    with, or the bounds the next round starts from. *)
Definition clip_round {F} `{Arith F} (bounds clip : render_bounds F)
    : (bool * render_bounds F) + render_bounds F :=
  let code0 := outcode (x0 bounds) (y0 bounds) clip in
  let code1 := outcode (x1 bounds) (y1 bounds) clip in
  if Z.lor code0 code1 =? 0 then inl (false, bounds)
  else if negb (Z.land code0 code1 =? 0) then inl (true, bounds)
  else
    let thiscode := if negb (code0 =? 0) then code0 else code1 in
    let '(x, y) :=
      if negb (Z.land thiscode 1 =? 0) then
        (fadd (x0 bounds)
              (fdiv (fmul (fsub (x1 bounds) (x0 bounds))
                          (fsub (y1 clip) (y0 bounds)))
                    (fsub (y1 bounds) (y0 bounds))),
         y1 clip)
      else if negb (Z.land thiscode 2 =? 0) then
        (fadd (x0 bounds)
              (fdiv (fmul (fsub (x1 bounds) (x0 bounds))
                          (fsub (y0 clip) (y0 bounds)))
                    (fsub (y1 bounds) (y0 bounds))),
         y0 clip)
      else if negb (Z.land thiscode 4 =? 0) then
        (x1 clip,
         fadd (y0 bounds)
              (fdiv (fmul (fsub (y1 bounds) (y0 bounds))
                          (fsub (x1 clip) (x0 bounds)))
                    (fsub (x1 bounds) (x0 bounds))))
      else
        (x0 clip,
         fadd (y0 bounds)
              (fdiv (fmul (fsub (y1 bounds) (y0 bounds))
                          (fsub (x0 clip) (x0 bounds)))
                    (fsub (x1 bounds) (x0 bounds)))) in
    if thiscode =? code0 then inr (mk_bounds x y (x1 bounds) (y1 bounds))
    else inr (mk_bounds (x0 bounds) (y0 bounds) x y).

(** The [float] nearest to the fraction [a / b] of two small integers,
    as a decimal literal of that value denotes it. *)
Definition float_of_ratio (a b : Z) : spec_float :=
  F32.div (F32.of_Z a) (F32.of_Z b).

(** A segment from (2, -1) to (0.2, 0.8), and a clip rectangle from
    (0.8, -2.9) to (2.2, 0.2) whose corner (0.8, 0.2) lies on it. *)
Definition segment_through_corner : render_bounds spec_float :=
  mk_bounds (F32.of_Z 2) (F32.of_Z (-1))
            (float_of_ratio 1 5) (float_of_ratio 4 5).
Definition clip_with_corner : render_bounds spec_float :=
  mk_bounds (float_of_ratio 4 5) (float_of_ratio (-29) 10)
            (float_of_ratio 11 5) (float_of_ratio 1 5).

(** Sample bitmaps: a 4 x 2 destination, twice the size of
    [small_source], and a 4 x 2 source of one colour. *)
Definition double_dest : bitmap_argb32 := mk_bitmap 4 2 4 (fun _ => 0).
Definition uniform_source : bitmap_argb32 := mk_bitmap 4 2 4 (fun _ => 0xff336699).

(** Two bitmaps of the same geometry that agree on the red, green and
    blue channels of every stored pixel. *)
Definition same_colour (b b' : bitmap_argb32) : Prop :=
  bm_width b' = bm_width b /\ bm_height b' = bm_height b /\
  bm_rowpixels b' = bm_rowpixels b /\
  forall i, pix_r (bm_base b' i) = pix_r (bm_base b i) /\
            pix_g (bm_base b' i) = pix_g (bm_base b i) /\
            pix_b (bm_base b' i) = pix_b (bm_base b i).

(** A sample interlaced image header: 5 x 3, grayscale, no data. *)
Definition png_interlaced : png_info := mk_png 5 3 8 0 1 [] [].

(** A decoded image: storage attached, rows packed, every pixel opaque. *)
Definition opaque_image (b : bitmap_argb32) : Prop :=
  0 < bm_width b /\ 0 < bm_height b /\ bm_rowpixels b = bm_width b /\
  forall y x, 0 <= y < bm_height b -> 0 <= x < bm_width b ->
    pix_a (bm_pix b y x) = 255.

(** Whether the loader itself reported an error to the log (the decoder's
    warnings do not count). *)
Definition error_logged (l : list diagnostic) : Prop :=
  exists msg, In (osd_error msg) l.

(** The log [l'] is the log [l] followed by warnings of the decoder. *)
Definition warnings_added (l l' : list diagnostic) : Prop :=
  exists extra, l' = l ++ extra /\
                forall d, In d extra -> exists code, d = jpeg_warning code.

(** The input the decoder has not consumed yet: the bytes waiting in the
    buffer, then the rest of the stream. *)
Definition unread (st : jstate) : list Z :=
  available st
  ++ skipn (Z.to_nat (file_pos (infile (js_src st))))
           (file_data (infile (js_src st))).

(** The source manager's buffer is in place and its window lies within. *)
Definition source_wf (st : jstate) : Prop :=
  Z.of_nat (List.length (buffer (js_src st))) = INPUT_BUF_SIZE /\
  0 <= next_input_byte (js_src st) /\ 0 <= bytes_in_buffer (js_src st) /\
  next_input_byte (js_src st) + bytes_in_buffer (js_src st) <= INPUT_BUF_SIZE /\
  0 <= file_pos (infile (js_src st)).

(** A sample source in mid-stream: 3 bytes waiting in the buffer, 5 more
    in the stream. *)
Definition midstream : jstate :=
  mk_jstate
    (mk_source (mk_file [1; 2; 3; 4; 5; 6; 7; 8; 9; 10] 5)
               ([3; 4; 5] ++ repeat 0 4093) false 0 3)
    [].

(** The cell of the bitmap that the loops of the overlay write for
    position [(x, y)] of pass [pass]:
    [bitmap.pix(y_trans(y), x_trans(x))] with interlacing,
    [bitmap.pix(y, x)] without. *)
Definition overlay_target (png : png_info) (rowpixels pass y x : Z) : Z :=
  if png_interlace_method png =? 0 then y * rowpixels + x
  else y_trans pass y * rowpixels + x_trans pass x.

(** [b'] is [b] with the alpha of some cells replaced: [A idx alpha]
    names the cells and their new alpha. *)
Definition wrote (b b' : bitmap_argb32) (A : Z -> Z -> Prop) : Prop :=
  bm_width b' = bm_width b /\ bm_height b' = bm_height b /\
  bm_rowpixels b' = bm_rowpixels b /\
  (forall idx alpha, A idx alpha ->
     bm_base b' idx = rgb_t alpha (pix_r (bm_base b idx)) (pix_g (bm_base b idx))
                            (pix_b (bm_base b idx))) /\
  (forall idx, (forall alpha, ~ A idx alpha) -> bm_base b' idx = bm_base b idx).

(** A sample destination one pixel wide and 4097 pixels high. *)
Definition tall_dest : bitmap_argb32 := mk_bitmap 1 4097 1 (fun _ => 0).

(* ===================================================================== *)
(** * Properties *)
(* ===================================================================== *)

(** ** Machine integers and pixels *)

Lemma u32_range z : 0 <= u32 z < 2 ^ 32.
Proof. unfold u32. apply Z.mod_pos_bound. lia. Qed.

Lemma u32_small z : 0 <= z < 2 ^ 32 -> u32 z = z.
Proof. intros. unfold u32. apply Z.mod_small. assumption. Qed.

Lemma u64_small z : 0 <= z < 2 ^ 64 -> u64 z = z.
Proof. intros. unfold u64. apply Z.mod_small. assumption. Qed.

Lemma u8_small z : 0 <= z < 2 ^ 8 -> u8 z = z.
Proof. intros. unfold u8. apply Z.mod_small. assumption. Qed.

Lemma u8_range z : 0 <= u8 z < 2 ^ 8.
Proof. unfold u8. apply Z.mod_pos_bound. lia. Qed.

Lemma land_fff z : Z.land z 0xfff = z mod 4096.
Proof. change 0xfff with (Z.ones 12). rewrite Z.land_ones by lia. reflexivity. Qed.

Lemma land_fff_range z : 0 <= Z.land z 0xfff <= 4095.
Proof. rewrite land_fff. pose proof (Z.mod_pos_bound z 4096). lia. Qed.

Lemma shiftr_12 z : Z.shiftr z 12 = z / 4096.
Proof. rewrite Z.shiftr_div_pow2 by lia. reflexivity. Qed.

Lemma shiftl_12 z : Z.shiftl z 12 = z * 4096.
Proof. rewrite Z.shiftl_mul_pow2 by lia. reflexivity. Qed.

Lemma rgb_t_channels p :
  0 <= p < 2 ^ 32 -> rgb_t (pix_a p) (pix_r p) (pix_g p) (pix_b p) = p.
Proof.
  intros Hp. unfold rgb_t, pix_a, pix_r, pix_g, pix_b, u8.
  rewrite !Z.mod_mod by lia.
  change (2 ^ 8) with 256. change (2 ^ 16) with 65536.
  change (2 ^ 24) with 16777216. change (2 ^ 32) with 4294967296 in Hp.
  Z.to_euclidean_division_equations. lia.
Qed.

(** ** The weighted-average sampler: area conservation *)

Lemma zsum_cons a l : zsum (a :: l) = a + zsum l.
Proof. reflexivity. Qed.

Lemma zsum_app l1 l2 : zsum (l1 ++ l2) = zsum l1 + zsum l2.
Proof. induction l1 as [|a l1 IH]; simpl; [reflexivity | rewrite IH; lia]. Qed.

(** One chunk: between 1 and 4096 units and never more than what remains. *)
Lemma chunk_range cur remaining :
  0 < remaining ->
  1 <= clamp_chunk cur remaining <= 4096 /\
  clamp_chunk cur remaining <= remaining /\
  clamp_chunk cur remaining <= 4096 - cur mod 4096.
Proof.
  intros Hrem. unfold clamp_chunk. rewrite land_fff.
  pose proof (Z.mod_pos_bound cur 4096 ltac:(lia)) as Hl.
  change 0x1000 with 4096.
  destruct (4096 - cur mod 4096 >? remaining) eqn:E; lia.
Qed.

Lemma x_cells_S fuel curx xremaining :
  x_cells (S fuel) curx xremaining =
  if xremaining =? 0 then []
  else (curx, clamp_chunk curx xremaining)
       :: x_cells fuel (u32 (curx + clamp_chunk curx xremaining))
                  (xremaining - clamp_chunk curx xremaining).
Proof. reflexivity. Qed.

Lemma y_cells_S fuel startx dx cury yremaining :
  y_cells (S fuel) startx dx cury yremaining =
  if yremaining =? 0 then []
  else map (fun c => (cury, fst c, u32 (snd c * clamp_chunk cury yremaining)))
           (x_cells (Z.to_nat dx) startx dx)
       ++ y_cells fuel startx dx (u32 (cury + clamp_chunk cury yremaining))
                  (yremaining - clamp_chunk cury yremaining).
Proof. reflexivity. Qed.

Lemma x_cells_chunks fuel : forall curx xremaining c,
  0 <= xremaining ->
  In c (x_cells fuel curx xremaining) -> 1 <= snd c <= 4096.
Proof.
  induction fuel as [|fuel IH]; intros curx xr c Hxr Hin.
  - contradiction.
  - rewrite x_cells_S in Hin.
    destruct (xr =? 0) eqn:E; [contradiction|].
    apply Z.eqb_neq in E.
    destruct (chunk_range curx xr ltac:(lia)) as (H1 & H2 & _).
    destruct Hin as [<- | Hin]; [exact H1|].
    eapply IH; [|exact Hin]. lia.
Qed.

(** The inner loop spends exactly [xremaining]. *)
Lemma x_cells_sum fuel : forall curx xremaining,
  0 <= xremaining -> (Z.to_nat xremaining <= fuel)%nat ->
  zsum (map snd (x_cells fuel curx xremaining)) = xremaining.
Proof.
  induction fuel as [|fuel IH]; intros curx xr Hxr Hfuel.
  - simpl. lia.
  - rewrite x_cells_S.
    destruct (xr =? 0) eqn:E.
    + apply Z.eqb_eq in E. simpl. lia.
    + apply Z.eqb_neq in E.
      destruct (chunk_range curx xr ltac:(lia)) as (H1 & H2 & _).
      rewrite map_cons, zsum_cons, IH by lia. cbn [snd]. lia.
Qed.

Lemma factor_no_wrap a b : 1 <= a <= 4096 -> 1 <= b <= 4096 -> u32 (a * b) = a * b.
Proof. intros Ha Hb. apply u32_small. change (2 ^ 32) with 4294967296. nia. Qed.

Lemma row_factor_sum ychunk cury : forall l : list (Z * Z),
  1 <= ychunk <= 4096 ->
  (forall c, In c l -> 1 <= snd c <= 4096) ->
  zsum (map cell_factor (map (fun c => (cury, fst c, u32 (snd c * ychunk))) l))
  = zsum (map snd l) * ychunk.
Proof.
  induction l as [|c l IH]; intros Hy Hl.
  - reflexivity.
  - rewrite !map_cons, !zsum_cons, IH by (auto with datatypes).
    unfold cell_factor at 1. cbn [snd].
    rewrite factor_no_wrap by (auto with datatypes). lia.
Qed.

Lemma y_cells_sum fuel : forall startx dx cury yremaining,
  0 <= dx -> 0 <= yremaining -> (Z.to_nat yremaining <= fuel)%nat ->
  zsum (map cell_factor (y_cells fuel startx dx cury yremaining))
  = dx * yremaining.
Proof.
  induction fuel as [|fuel IH]; intros startx dx cury yr Hdx Hyr Hfuel.
  - simpl. lia.
  - rewrite y_cells_S.
    destruct (yr =? 0) eqn:E.
    + apply Z.eqb_eq in E. simpl. lia.
    + apply Z.eqb_neq in E.
      destruct (chunk_range cury yr ltac:(lia)) as (H1 & H2 & _).
      rewrite map_app, zsum_app, IH by lia.
      rewrite row_factor_sum.
      * rewrite x_cells_sum by lia. lia.
      * exact H1.
      * intros c Hc. eapply x_cells_chunks; [|exact Hc]. lia.
Qed.

(** C3. In the weighted-average sampler, the per-cell contribution factors
    [xchunk * ychunk] of all source cells visited for one destination
    pixel [(x, y)] add up to [dx * dy] exactly, whatever the pixel and
    whatever 32-bit steps [dx], [dy] the sampler was given. *)
Theorem average_area_conservation (dx dy x y : Z) :
  0 <= dx < 2 ^ 32 -> 0 <= dy < 2 ^ 32 ->
  zsum (map cell_factor (average_cells dx dy x y)) = dx * dy.
Proof.
  intros Hdx Hdy. unfold average_cells.
  apply y_cells_sum; lia.
Qed.

Lemma average_area_conservation_witness :
  (0 <= 6144 < 2 ^ 32 /\ 0 <= 10000 < 2 ^ 32) /\
  zsum (map cell_factor (average_cells 6144 10000 3 5)) = 6144 * 10000.
Proof.
  split; [lia|]. apply (average_area_conservation 6144 10000 3 5); lia.
Defined.

(** ** The weighted-average sampler: visited cells stay inside the source *)

(** Every [curx] the inner loop visits lies in the footprint
    [[curx0, curx0 + xremaining)], provided the footprint does not wrap. *)
Lemma x_cells_footprint fuel : forall curx xremaining c,
  0 <= curx -> 0 <= xremaining -> curx + xremaining <= 2 ^ 32 ->
  In c (x_cells fuel curx xremaining) ->
  curx <= fst c /\ fst c < curx + xremaining.
Proof.
  induction fuel as [|fuel IH]; intros curx xr c Hc Hxr Hsum Hin.
  - contradiction.
  - rewrite x_cells_S in Hin.
    destruct (xr =? 0) eqn:E; [contradiction|].
    apply Z.eqb_neq in E.
    destruct (chunk_range curx xr ltac:(lia)) as (H1 & H2 & _).
    destruct Hin as [<- | Hin]; [cbn [fst]; lia|].
    destruct (Z.eq_dec (xr - clamp_chunk curx xr) 0) as [Hz | Hnz].
    + rewrite Hz in Hin. destruct fuel; simpl in Hin; contradiction.
    + rewrite u32_small in Hin by lia.
      apply IH in Hin; lia.
Qed.

Lemma y_cells_footprint fuel : forall startx dx cury yremaining c,
  0 <= startx -> 0 <= dx -> startx + dx <= 2 ^ 32 ->
  0 <= cury -> 0 <= yremaining -> cury + yremaining <= 2 ^ 32 ->
  In c (y_cells fuel startx dx cury yremaining) ->
  (cury <= cell_cury c /\ cell_cury c < cury + yremaining) /\
  (startx <= cell_curx c /\ cell_curx c < startx + dx).
Proof.
  induction fuel as [|fuel IH];
    intros startx dx cury yr c Hsx Hdx Hxs Hcy Hyr Hys Hin.
  - contradiction.
  - rewrite y_cells_S in Hin.
    destruct (yr =? 0) eqn:E; [contradiction|].
    apply Z.eqb_neq in E.
    destruct (chunk_range cury yr ltac:(lia)) as (H1 & H2 & _).
    apply in_app_or in Hin. destruct Hin as [Hin | Hin].
    + apply in_map_iff in Hin. destruct Hin as (xc & <- & Hxc).
      apply x_cells_footprint in Hxc; try lia.
      unfold cell_cury, cell_curx. cbn [fst snd]. lia.
    + destruct (Z.eq_dec (yr - clamp_chunk cury yr) 0) as [Hz | Hnz].
      * rewrite Hz in Hin. destruct fuel; simpl in Hin; contradiction.
      * rewrite u32_small in Hin by lia.
        apply IH in Hin; lia.
Qed.

(** The footprint of destination pixel [i] along one axis ends inside the
    source: [(i + 1) * step <= (n << 12)] for the step the dispatcher
    computes, where [(n << 12)] is taken as the 32-bit value it is. *)
Lemma step_footprint n d i :
  0 <= n -> 1 <= d -> 0 <= i < d ->
  let step := u32 (Z.shiftl n 12) / d in
  0 <= step /\ 0 <= i * step /\
  i * step + step <= u32 (Z.shiftl n 12) /\
  u32 (Z.shiftl n 12) <= n * 4096 /\ u32 (Z.shiftl n 12) < 2 ^ 32.
Proof.
  intros Hn Hd Hi step. pose proof (u32_range (Z.shiftl n 12)) as Hu.
  assert (Hle : u32 (Z.shiftl n 12) <= n * 4096).
  { rewrite shiftl_12. unfold u32. apply Z.mod_le; lia. }
  assert (Hs : 0 <= step) by (apply Z.div_pos; lia).
  assert (Hm : d * step <= u32 (Z.shiftl n 12))
    by (apply Z.mul_div_le; lia).
  repeat split; try lia; nia.
Qed.

(** C10. With [dwidth >= 1], [dheight >= 1] and the steps the dispatcher
    computes, every source cell the weighted-average sampler visits for a
    destination pixel [(x, y)] has [curx >> 12 < swidth] and
    [cury >> 12 < sheight] (and non-negative indices): no read leaves the
    source grid. *)
Theorem average_reads_in_bounds (swidth sheight dwidth dheight x y : Z)
    (c : Z * Z * Z) :
  0 <= swidth -> 0 <= sheight -> 1 <= dwidth -> 1 <= dheight ->
  0 <= x < dwidth -> 0 <= y < dheight ->
  let dx := u32 (Z.shiftl swidth 12) / dwidth in
  let dy := u32 (Z.shiftl sheight 12) / dheight in
  In c (average_cells dx dy x y) ->
  0 <= Z.shiftr (cell_curx c) 12 < swidth /\
  0 <= Z.shiftr (cell_cury c) 12 < sheight.
Proof.
  intros Hsw Hsh Hdw Hdh Hx Hy dx dy Hin.
  destruct (step_footprint swidth dwidth x Hsw Hdw Hx) as (X1 & X2 & X3 & X4 & X5).
  destruct (step_footprint sheight dheight y Hsh Hdh Hy) as (Y1 & Y2 & Y3 & Y4 & Y5).
  fold dx in X1, X2, X3. fold dy in Y1, Y2, Y3.
  unfold average_cells in Hin.
  rewrite (u32_small (x * dx)), (u32_small (y * dy)) in Hin by lia.
  apply y_cells_footprint in Hin; try lia.
  destruct Hin as ((C1 & C2) & (C3 & C4)).
  rewrite !shiftr_12.
  repeat split.
  - apply Z.div_pos; lia.
  - apply Z.div_lt_upper_bound; lia.
  - apply Z.div_pos; lia.
  - apply Z.div_lt_upper_bound; lia.
Qed.

Lemma average_reads_in_bounds_witness :
  In (10240, 6144, 2048 * 2048) (average_cells 6144 10240 1 1) /\
  0 <= Z.shiftr 6144 12 < 3 /\ 0 <= Z.shiftr 10240 12 < 5.
Proof.
  assert (Hin : In (10240, 6144, 2048 * 2048) (average_cells 6144 10240 1 1)).
  { vm_compute. tauto. }
  split; [exact Hin|].
  exact (average_reads_in_bounds 3 5 2 2 1 1 (10240, 6144, 2048 * 2048)
           ltac:(lia) ltac:(lia) ltac:(lia) ltac:(lia) ltac:(lia) ltac:(lia) Hin).
Defined.

(** ** Single-precision arithmetic: the shape of rounded results *)

(** [digits2_pos] counts binary digits. *)
Lemma digits2_pos_bounds p :
  2 ^ (Zpos (digits2_pos p) - 1) <= Zpos p < 2 ^ Zpos (digits2_pos p).
Proof.
  induction p as [p IH | p IH |]; cbn [digits2_pos].
  - rewrite Pos2Z.inj_succ.
    replace (Z.succ (Zpos (digits2_pos p)) - 1) with (Zpos (digits2_pos p)) by lia.
    rewrite Z.pow_succ_r by lia.
    replace (Zpos (digits2_pos p)) with (Zpos (digits2_pos p) - 1 + 1) at 1 by lia.
    rewrite Z.pow_add_r in * by lia. lia.
  - rewrite Pos2Z.inj_succ.
    replace (Z.succ (Zpos (digits2_pos p)) - 1) with (Zpos (digits2_pos p)) by lia.
    rewrite Z.pow_succ_r by lia.
    replace (Zpos (digits2_pos p)) with (Zpos (digits2_pos p) - 1 + 1) at 1 by lia.
    rewrite Z.pow_add_r in * by lia. lia.
  - simpl. lia.
Qed.

Lemma digits2_pos_unique p d :
  2 ^ (d - 1) <= Zpos p < 2 ^ d -> Zpos (digits2_pos p) = d.
Proof.
  intros [Hlo Hhi]. pose proof (digits2_pos_bounds p) as [Blo Bhi].
  assert (Hd : 0 < d).
  { destruct (Z.ltb_spec 0 d) as [|Hle]; [assumption|].
    rewrite Z.pow_neg_r in Hlo by lia.
    destruct (Z.eq_dec d 0) as [->|]; [simpl in Hhi; lia|].
    rewrite Z.pow_neg_r in Hhi by lia. lia. }
  destruct (Z.lt_trichotomy (Zpos (digits2_pos p)) d) as [Hlt | [Heq | Hgt]].
  - assert (2 ^ Zpos (digits2_pos p) <= 2 ^ (d - 1))
      by (apply Z.pow_le_mono_r; lia). lia.
  - exact Heq.
  - assert (2 ^ d <= 2 ^ (Zpos (digits2_pos p) - 1))
      by (apply Z.pow_le_mono_r; lia). lia.
Qed.

Lemma digits2_pos_le p k :
  0 <= k -> Zpos p < 2 ^ k -> Zpos (digits2_pos p) <= k.
Proof.
  intros Hk Hp. pose proof (digits2_pos_bounds p) as [Blo _].
  destruct (Z.leb_spec (Zpos (digits2_pos p)) k) as [|Hgt]; [assumption|].
  assert (2 ^ k <= 2 ^ (Zpos (digits2_pos p) - 1))
    by (apply Z.pow_le_mono_r; lia). lia.
Qed.

(** The literals of the source are the decimals rounded to single
    precision. *)
Lemma literals_rounded :
  F32.div (F32.of_Z 1) (F32.of_Z 2) = F32.half /\
  F32.div (S754_finite false 70710678 0) (S754_finite false 100000000 0)
  = F32.unit_length /\
  F32.lit_256 = S754_finite false 8388608 (-15).
Proof. repeat split. Qed.

(** [iter_pos] is plain iteration. *)
Lemma iter_pos_comm {A} (f : A -> A) p : forall x,
  SpecFloat.iter_pos f p (f x) = f (SpecFloat.iter_pos f p x).
Proof.
  induction p as [p IH | p IH |]; intros x; cbn [SpecFloat.iter_pos].
  - rewrite !IH. reflexivity.
  - rewrite !IH. reflexivity.
  - reflexivity.
Qed.

Lemma iter_pos_nat {A} (f : A -> A) p : forall x,
  SpecFloat.iter_pos f p x = Nat.iter (Pos.to_nat p) f x.
Proof.
  induction p as [p IH | p IH |]; intros x; cbn [SpecFloat.iter_pos].
  - rewrite Pos2Nat.inj_xI, !iter_pos_comm, !IH.
    replace (S (2 * Pos.to_nat p)) with (S (Pos.to_nat p + Pos.to_nat p))%nat by lia.
    rewrite Nat.iter_succ, Nat.iter_add. reflexivity.
  - rewrite Pos2Nat.inj_xO, !IH.
    replace (2 * Pos.to_nat p)%nat with (Pos.to_nat p + Pos.to_nat p)%nat by lia.
    rewrite Nat.iter_add. reflexivity.
  - reflexivity.
Qed.

(** One right shift halves the mantissa; shifting out zeros of an exact
    record loses nothing. *)
Lemma shr_1_m mrs : 0 <= shr_m mrs -> shr_m (shr_1 mrs) = shr_m mrs / 2.
Proof.
  destruct mrs as [m r s]. cbn [shr_m]. intros Hm.
  destruct m as [|p|p]; [reflexivity | | lia].
  destruct p as [p|p|]; cbn [shr_1 shr_m].
  - rewrite Pos2Z.inj_xI. apply Z.div_unique with 1; lia.
  - rewrite Pos2Z.inj_xO. apply Z.div_unique with 0; lia.
  - reflexivity.
Qed.

Lemma shr_iter_m n : forall mrs,
  0 <= shr_m mrs ->
  0 <= shr_m (Nat.iter n shr_1 mrs) /\
  shr_m (Nat.iter n shr_1 mrs) = shr_m mrs / 2 ^ Z.of_nat n.
Proof.
  induction n as [|n IH]; intros mrs Hm.
  - simpl. rewrite Z.div_1_r. auto.
  - rewrite Nat.iter_succ. destruct (IH mrs Hm) as [H0 H1].
    rewrite shr_1_m by assumption. rewrite H1.
    split.
    + apply Z.div_pos; [|lia]. rewrite <- H1. assumption.
    + rewrite Nat2Z.inj_succ, Z.pow_succ_r by lia.
      rewrite Z.div_div by lia. f_equal. lia.
Qed.

Lemma shr_1_exact z :
  0 <= z ->
  shr_1 (Build_shr_record (2 * z) false false) = Build_shr_record z false false.
Proof. intros Hz. destruct z as [|p|p]; [reflexivity | reflexivity | lia]. Qed.

Lemma shr_iter_exact n : forall z,
  0 <= z ->
  Nat.iter n shr_1 (Build_shr_record (z * 2 ^ Z.of_nat n) false false)
  = Build_shr_record z false false.
Proof.
  induction n as [|n IH]; intros z Hz.
  - simpl. rewrite Z.mul_1_r. reflexivity.
  - rewrite Nat.iter_succ_r, Nat2Z.inj_succ, Z.pow_succ_r by lia.
    replace (z * (2 * 2 ^ Z.of_nat n)) with (2 * (z * 2 ^ Z.of_nat n)) by lia.
    rewrite shr_1_exact by nia. apply IH. assumption.
Qed.

Lemma shr_record_of_loc_m m l : shr_m (shr_record_of_loc m l) = m.
Proof. destruct l as [|[ | | ]]; reflexivity. Qed.

Lemma round_nearest_even_range m l :
  m <= round_nearest_even m l <= m + 1.
Proof.
  unfold round_nearest_even.
  destruct l as [|[ | | ]]; try lia. destruct (Z.even m); lia.
Qed.

Lemma Zdigits2_unique m d :
  2 ^ (d - 1) <= m < 2 ^ d -> 0 < m -> Zdigits2 m = d.
Proof.
  intros Hb Hm. destruct m as [|p|p]; try lia.
  cbn [Zdigits2]. apply digits2_pos_unique. assumption.
Qed.

(** [fexp] at binary32, away from the subnormal range. *)
Lemma fexp_normal x : -125 <= x -> fexp F32.prec F32.emax x = x - 24.
Proof. intros Hx. unfold fexp, emin, F32.prec, F32.emax. lia. Qed.

(** The first shift of [binary_round_aux]: [k] low bits are dropped from
    a mantissa of [24 + k] digits. *)
Lemma shr_fexp_shape m e l k :
  0 <= k -> 2 ^ (23 + k) <= m < 2 ^ (24 + k) -> -149 <= e + k ->
  exists mrs, shr_fexp F32.prec F32.emax m e l = (mrs, e + k) /\
              shr_m mrs = m / 2 ^ k.
Proof.
  intros Hk Hm He.
  assert (Hpos : 0 < m).
  { assert (0 < 2 ^ (23 + k)) by (apply Z.pow_pos_nonneg; lia). lia. }
  unfold shr_fexp.
  rewrite (Zdigits2_unique m (24 + k)) by
    (try assumption; replace (24 + k - 1) with (23 + k) by lia; assumption).
  rewrite fexp_normal by lia.
  replace (24 + k + e - 24 - e) with k by lia.
  unfold shr. destruct k as [|p|p]; [| |lia].
  - eexists. split; [rewrite Z.add_0_r; reflexivity|].
    rewrite shr_record_of_loc_m, Z.div_1_r. reflexivity.
  - eexists. split; [reflexivity|].
    rewrite iter_pos_nat.
    destruct (shr_iter_m (Pos.to_nat p) (shr_record_of_loc m l)) as [_ H].
    { rewrite shr_record_of_loc_m. lia. }
    rewrite H, shr_record_of_loc_m, positive_nat_Z. reflexivity.
Qed.

(** Rounding a positive mantissa of [24 + k] digits yields a finite
    positive float with a 24-digit mantissa, one binade up at most. *)
Lemma binary_round_aux_shape m e l k :
  0 <= k -> 2 ^ (23 + k) <= m < 2 ^ (24 + k) ->
  -149 <= e + k -> e + k + 1 <= 104 ->
  exists m' e',
    binary_round_aux F32.prec F32.emax false m e l = S754_finite false m' e' /\
    Zpos (digits2_pos m') = 24 /\ e + k <= e' <= e + k + 1.
Proof.
  intros Hk Hm Hlo Hhi.
  destruct (shr_fexp_shape m e l k Hk Hm Hlo) as (mrs & Hs & Hmrs).
  unfold binary_round_aux. rewrite Hs.
  set (m1 := shr_m mrs) in *.
  assert (H1 : 2 ^ 23 <= m1 < 2 ^ 24).
  { rewrite Hmrs. rewrite !Z.pow_add_r in Hm by lia.
    assert (0 < 2 ^ k) by (apply Z.pow_pos_nonneg; lia).
    split.
    - apply Z.div_le_lower_bound; lia.
    - apply Z.div_lt_upper_bound; lia. }
  pose proof (round_nearest_even_range m1 (loc_of_shr_record mrs)) as Hr.
  set (m2 := round_nearest_even m1 (loc_of_shr_record mrs)) in *.
  destruct (Z.eq_dec m2 (2 ^ 24)) as [E | NE].
  - rewrite E.
    destruct (shr_fexp_shape (2 ^ 24) (e + k) loc_Exact 1) as (mrs2 & Hs2 & Hm2);
      [lia | simpl; lia | lia |].
    rewrite Hs2, Hm2. change (2 ^ 24 / 2 ^ 1) with (Zpos 8388608).
    cbv iota beta.
    replace (e + k + 1 <=? F32.emax - F32.prec) with true
      by (symmetry; apply Z.leb_le; unfold F32.emax, F32.prec; lia).
    exists 8388608%positive, (e + k + 1). repeat split; try lia.
  - destruct (shr_fexp_shape m2 (e + k) loc_Exact 0) as (mrs2 & Hs2 & Hm2);
      [lia | simpl; change (2 ^ 24) with 16777216 in *;
             change (2 ^ 23) with 8388608 in *; lia | lia |].
    rewrite Hs2, Hm2, Z.div_1_r, Z.add_0_r.
    destruct m2 as [|p|p]; try (change (2 ^ 23) with 8388608 in *; lia).
    cbv iota beta.
    replace (e + k <=? F32.emax - F32.prec) with true
      by (symmetry; apply Z.leb_le; unfold F32.emax, F32.prec; lia).
    exists p, (e + k). repeat split; try lia.
    apply digits2_pos_unique.
    change (2 ^ 24) with 16777216 in *. change (2 ^ 23) with 8388608 in *.
    change (2 ^ (24 - 1)) with 8388608. lia.
Qed.

(** Rounding is the identity on an exact 24-digit mantissa. *)
Lemma binary_round_aux_exact m e :
  Zpos (digits2_pos m) = 24 -> -149 <= e <= 104 ->
  binary_round_aux F32.prec F32.emax false (Zpos m) e loc_Exact
  = S754_finite false m e.
Proof.
  intros Hd He.
  unfold binary_round_aux, shr_fexp. cbn [Zdigits2]. rewrite Hd.
  rewrite fexp_normal by lia.
  replace (24 + e - 24 - e) with 0 by lia.
  cbn [shr shr_record_of_loc shr_m loc_of_shr_record round_nearest_even Zdigits2].
  rewrite Hd, fexp_normal by lia.
  replace (24 + e - 24 - e) with 0 by lia.
  cbn [shr shr_record_of_loc shr_m].
  replace (e <=? F32.emax - F32.prec) with true
    by (symmetry; apply Z.leb_le; unfold F32.emax, F32.prec; lia).
  reflexivity.
Qed.

Lemma pos_iter_xO p k : Zpos (Pos.iter xO p k) = Zpos p * 2 ^ Zpos k.
Proof.
  induction k as [|k IH] using Pos.peano_ind.
  - cbn [Pos.iter]. rewrite Pos2Z.inj_xO. change (2 ^ 1) with 2. lia.
  - rewrite Pos.iter_succ, Pos2Z.inj_xO, IH, Pos2Z.inj_succ, Z.pow_succ_r by lia.
    lia.
Qed.

(** [float(n)] for a positive [n] of at most 24 digits is exact: the
    mantissa is [n] shifted up to 24 digits. *)
Lemma binary_round_small p e d :
  Zpos (digits2_pos p) = d -> d <= 24 -> -149 <= e + d - 24 <= 104 ->
  exists m, binary_round F32.prec F32.emax false p e
            = S754_finite false m (e + d - 24) /\
            Zpos m = Zpos p * 2 ^ (24 - d) /\ Zpos (digits2_pos m) = 24.
Proof.
  intros Hd Hle He.
  pose proof (digits2_pos_bounds p) as Hb. rewrite Hd in Hb.
  assert (Hdpos : 0 < d) by lia.
  unfold binary_round. rewrite Hd, fexp_normal by lia.
  unfold shl_align.
  replace (d + e - 24 - e) with (d - 24) by lia.
  assert (Hm : forall m, Zpos m = Zpos p * 2 ^ (24 - d) ->
                         Zpos (digits2_pos m) = 24).
  { intros m Em. apply digits2_pos_unique. rewrite Em.
    replace (2 ^ (24 - 1)) with (2 ^ (d - 1) * 2 ^ (24 - d))
      by (rewrite <- Z.pow_add_r by lia; f_equal; lia).
    replace (2 ^ 24) with (2 ^ d * 2 ^ (24 - d))
      by (rewrite <- Z.pow_add_r by lia; f_equal; lia).
    assert (0 < 2 ^ (24 - d)) by (apply Z.pow_pos_nonneg; lia).
    nia. }
  destruct (d - 24) as [|k|k] eqn:Ek; [| lia |].
  - assert (Em : Zpos p = Zpos p * 2 ^ (24 - d))
      by (replace (24 - d) with 0 by lia; lia).
    exists p. split; [|split; [exact Em | exact (Hm p Em)]].
    replace (e + d - 24) with e by lia.
    apply binary_round_aux_exact; [exact (Hm p Em) | lia].
  - assert (Em : Zpos (Pos.iter xO p k) = Zpos p * 2 ^ (24 - d))
      by (rewrite pos_iter_xO; f_equal; f_equal; lia).
    exists (Pos.iter xO p k). split; [|split; [exact Em | exact (Hm _ Em)]].
    replace (e + d - 24) with (d + e - 24) by lia.
    apply binary_round_aux_exact; [exact (Hm _ Em) | lia].
Qed.

(** A positive [n] of more than 24 digits is rounded to 24 digits. *)
Lemma binary_round_large p e k :
  Zpos (digits2_pos p) = 24 + k -> 0 < k -> -149 <= e + k -> e + k + 1 <= 104 ->
  exists m e',
    binary_round F32.prec F32.emax false p e = S754_finite false m e' /\
    Zpos (digits2_pos m) = 24 /\ e + k <= e' <= e + k + 1.
Proof.
  intros Hd Hk Hlo Hhi.
  pose proof (digits2_pos_bounds p) as Hb. rewrite Hd in Hb.
  unfold binary_round. rewrite Hd, fexp_normal by lia.
  unfold shl_align.
  replace (24 + k + e - 24 - e) with k by lia.
  destruct k as [|k|k]; try lia.
  apply binary_round_aux_shape; try lia.
  replace (23 + Zpos k) with (24 + Zpos k - 1) by lia. exact Hb.
Qed.

(** The shape of [float(n)] for any positive 32-bit [n]: the exponent
    follows the number of digits of [n]. *)
Lemma of_Z_shape n :
  0 < n < 2 ^ 32 ->
  exists m e, F32.of_Z n = S754_finite false m e /\
              Zpos (digits2_pos m) = 24 /\
              Zdigits2 n - 24 <= e <= Zdigits2 n - 23.
Proof.
  intros Hn. destruct n as [|p|p]; try lia.
  unfold F32.of_Z, binary_normalize. cbn [Zdigits2].
  pose proof (digits2_pos_bounds p) as Hb.
  assert (Hd32 : Zpos (digits2_pos p) <= 32) by (apply digits2_pos_le; lia).
  destruct (Z.leb_spec (Zpos (digits2_pos p)) 24) as [Hle | Hgt].
  - destruct (binary_round_small p 0 _ eq_refl Hle ltac:(lia)) as (m & Hr & _ & Hm).
    exists m, (0 + Zpos (digits2_pos p) - 24). repeat split; try assumption; lia.
  - destruct (binary_round_large p 0 (Zpos (digits2_pos p) - 24))
      as (m & e' & Hr & Hm & He); try lia.
    exists m, e'. repeat split; try assumption; lia.
Qed.

(** Integers below [2 ^ 24] survive the round trip through [float]. *)
Lemma to_u32_of_Z n : 0 <= n < 2 ^ 24 -> F32.to_u32 (F32.of_Z n) = Some n.
Proof.
  intros Hn. destruct n as [|p|p]; [reflexivity | | lia].
  pose proof (digits2_pos_bounds p) as Hb.
  assert (Hd : Zpos (digits2_pos p) <= 24) by (apply digits2_pos_le; lia).
  destruct (binary_round_small p 0 _ eq_refl Hd ltac:(lia)) as (m & Hr & Hm & _).
  unfold F32.of_Z, binary_normalize. rewrite Hr.
  unfold F32.to_u32, F32.trunc. cbn [cond_Zopp].
  set (d := Zpos (digits2_pos p)) in *.
  assert (Hv : (if 0 <=? 0 + d - 24 then Zpos m * 2 ^ (0 + d - 24)
                else Zpos m / 2 ^ (- (0 + d - 24))) = Zpos p).
  { destruct (Z.leb_spec 0 (0 + d - 24)).
    - replace (0 + d - 24) with 0 by lia. rewrite Hm.
      replace (24 - d) with 0 by lia. lia.
    - rewrite Hm. replace (- (0 + d - 24)) with (24 - d) by lia.
      apply Z.div_mul. apply Z.pow_nonzero; lia. }
  rewrite Hv.
  replace ((0 <=? Zpos p) && (Zpos p <? 2 ^ 32)) with true; [reflexivity|].
  symmetry. apply andb_true_intro. split; [apply Z.leb_le | apply Z.ltb_lt]; lia.
Qed.

Lemma div_eucl_eq a b : Z.div_eucl a b = (a / b, a mod b).
Proof. unfold Z.div, Z.modulo. destruct (Z.div_eucl a b). reflexivity. Qed.

(** The quotient of two positive normal floats: a positive normal float
    whose exponent is within two of the difference of the exponents. *)
Lemma div_shape mx ex my ey :
  Zpos (digits2_pos mx) = 24 -> Zpos (digits2_pos my) = 24 ->
  -100 <= ex - ey <= 100 ->
  exists m e,
    F32.div (S754_finite false mx ex) (S754_finite false my ey)
    = S754_finite false m e /\
    Zpos (digits2_pos m) = 24 /\ ex - ey - 24 <= e <= ex - ey - 22.
Proof.
  intros Hx Hy He.
  pose proof (digits2_pos_bounds mx) as Bx. rewrite Hx in Bx.
  pose proof (digits2_pos_bounds my) as By. rewrite Hy in By.
  change (2 ^ (24 - 1)) with 8388608 in *. change (2 ^ 24) with 16777216 in *.
  unfold F32.div, SFdiv, SFdiv_core_binary. cbn [Zdigits2 xorb].
  rewrite Hx, Hy, fexp_normal by lia.
  replace (Z.min (24 + ex - (24 + ey) - 24) (ex - ey)) with (ex - ey - 24) by lia.
  replace (ex - ey - (ex - ey - 24)) with 24 by lia.
  cbv iota. rewrite div_eucl_eq.
  rewrite Z.shiftl_mul_pow2 by lia. change (2 ^ 24) with 16777216.
  set (q := Zpos mx * 16777216 / Zpos my).
  assert (Hq : 8388608 <= q < 33554432).
  { unfold q. split.
    - apply Z.div_le_lower_bound; lia.
    - apply Z.div_lt_upper_bound; lia. }
  destruct (Z.ltb_spec q 16777216) as [Hlt | Hge].
  - destruct (binary_round_aux_shape q (ex - ey - 24)
                (new_location (Zpos my) (Zpos mx * 16777216 mod Zpos my)) 0)
      as (m & e & Hr & Hm & Hev); try lia.
    exists m, e. repeat split; try assumption; lia.
  - destruct (binary_round_aux_shape q (ex - ey - 24)
                (new_location (Zpos my) (Zpos mx * 16777216 mod Zpos my)) 1)
      as (m & e & Hr & Hm & Hev); try lia.
    exists m, e. repeat split; try assumption; lia.
Qed.

(** The ceiling of a positive float below [2 ^ 16], converted to [u32],
    is defined. *)
Lemma ceil_to_u32 m e :
  Zpos (digits2_pos m) = 24 -> e <= -8 ->
  exists v, F32.to_u32 (F32.ceil (S754_finite false m e)) = Some v /\
            1 <= v <= 2 ^ 16.
Proof.
  intros Hm He.
  pose proof (digits2_pos_bounds m) as Bm. rewrite Hm in Bm.
  change (2 ^ (24 - 1)) with 8388608 in *. change (2 ^ 24) with 16777216 in *.
  unfold F32.ceil. cbn [cond_Zopp].
  replace (0 <=? e) with false by (symmetry; apply Z.leb_gt; lia).
  set (v := - ((- Zpos m) / 2 ^ (- e))).
  assert (Hp : 2 ^ 8 <= 2 ^ (- e)) by (apply Z.pow_le_mono_r; lia).
  change (2 ^ 8) with 256 in Hp.
  assert (Hv : 1 <= v <= 2 ^ 16).
  { unfold v. change (2 ^ 16) with 65536.
    assert ((- Zpos m) / 2 ^ (- e) < 0)
      by (apply Z.div_lt_upper_bound; lia).
    assert (-65536 <= (- Zpos m) / 2 ^ (- e))
      by (apply Z.div_le_lower_bound; lia).
    lia. }
  replace (v =? 0) with false by (symmetry; apply Z.eqb_neq; lia).
  exists v. split; [|exact Hv].
  apply to_u32_of_Z. change (2 ^ 16) with 65536 in Hv.
  change (2 ^ 24) with 16777216. lia.
Qed.

Lemma Zdigits2_bounds n : 0 < n -> 2 ^ (Zdigits2 n - 1) <= n < 2 ^ Zdigits2 n.
Proof. intros Hn. destruct n as [|p|p]; try lia. apply digits2_pos_bounds. Qed.

Lemma Zdigits2_u32 n : 0 < n < 2 ^ 32 -> 1 <= Zdigits2 n <= 32.
Proof.
  intros Hn. pose proof (Zdigits2_bounds n ltac:(lia)) as Hb.
  destruct n as [|p|p]; try lia. cbn [Zdigits2] in *.
  split; [lia | apply digits2_pos_le; lia].
Qed.

(** The single-precision step is defined whenever the integer step is at
    most 4096, as it is on the path that recomputes it. *)
Lemma ceil_step_defined n d :
  0 <= n -> 1 <= d < 2 ^ 32 -> u32 (Z.shiftl n 12) / d <= 0x1000 ->
  exists v, ceil_step n d = Some v /\ 0 <= v <= 2 ^ 16.
Proof.
  intros Hn Hd Hstep. unfold ceil_step.
  pose proof (u32_range (Z.shiftl n 12)) as Hu.
  set (a := u32 (Z.shiftl n 12)) in *.
  destruct (of_Z_shape d ltac:(lia)) as (my & ey & Ey & Hmy & Hey).
  destruct (Z.eq_dec a 0) as [Ea | Na].
  - rewrite Ea, Ey. exists 0. split; [reflexivity | lia].
  - destruct (of_Z_shape a ltac:(lia)) as (mx & ex & Ex & Hmx & Hex).
    pose proof (Zdigits2_bounds a ltac:(lia)) as Ba.
    pose proof (Zdigits2_bounds d ltac:(lia)) as Bd.
    pose proof (Zdigits2_u32 a ltac:(lia)) as Da.
    pose proof (Zdigits2_u32 d ltac:(lia)) as Dd.
    assert (Hlt : a < 4097 * d).
    { change 0x1000 with 4096 in Hstep.
      pose proof (Z.mul_succ_div_gt a d ltac:(lia)). nia. }
    assert (Hdig : Zdigits2 a <= Zdigits2 d + 13).
    { destruct (Z.leb_spec (Zdigits2 a) (Zdigits2 d + 13)) as [|Hgt]; [assumption|].
      assert (2 ^ (Zdigits2 d + 13) <= 2 ^ (Zdigits2 a - 1))
        by (apply Z.pow_le_mono_r; lia).
      rewrite Z.pow_add_r in * by lia. change (2 ^ 13) with 8192 in *. nia. }
    rewrite Ex, Ey.
    destruct (div_shape mx ex my ey Hmx Hmy ltac:(lia)) as (m & e & Hq & Hm & He).
    rewrite Hq.
    destruct (ceil_to_u32 m e Hm ltac:(lia)) as (v & Hv & Hr).
    exists v. split; [exact Hv | lia].
Qed.

(** Rounding an exact mantissa that carries [k] trailing zeros beyond its
    24 digits drops the zeros and nothing else. *)
Lemma binary_round_aux_exact_shr m k e :
  Zpos (digits2_pos m) = 24 -> 0 < k -> -149 <= e + k <= 104 ->
  binary_round_aux F32.prec F32.emax false (Zpos m * 2 ^ k) e loc_Exact
  = S754_finite false m (e + k).
Proof.
  intros Hm Hk He.
  pose proof (digits2_pos_bounds m) as Bm. rewrite Hm in Bm.
  assert (Hp : 0 < 2 ^ k) by (apply Z.pow_pos_nonneg; lia).
  assert (Hd : Zdigits2 (Zpos m * 2 ^ k) = 24 + k).
  { apply Zdigits2_unique; [|lia].
    replace (24 + k - 1) with (24 - 1 + k) by lia.
    rewrite !Z.pow_add_r by lia. nia. }
  unfold binary_round_aux, shr_fexp. rewrite Hd, fexp_normal by lia.
  replace (24 + k + e - 24 - e) with k by lia.
  destruct k as [|p|p]; try lia.
  assert (Hit : Nat.iter (Pos.to_nat p) shr_1
                  (Build_shr_record (Zpos m * 2 ^ Zpos p) false false)
                = Build_shr_record (Zpos m) false false).
  { rewrite <- (positive_nat_Z p). apply shr_iter_exact. lia. }
  cbn [shr shr_record_of_loc]. rewrite iter_pos_nat, Hit.
  cbn [shr_m loc_of_shr_record round_nearest_even Zdigits2].
  rewrite Hm, fexp_normal by lia.
  replace (24 + (e + Zpos p) - 24 - (e + Zpos p)) with 0 by lia.
  cbn [shr shr_record_of_loc shr_m].
  replace (e + Zpos p <=? F32.emax - F32.prec) with true
    by (symmetry; apply Z.leb_le; unfold F32.emax, F32.prec; lia).
  reflexivity.
Qed.

(** [float(s * 2 ^ j)] for [s] below [2 ^ 24]: the mantissa of [float(s)]
    with the exponent raised by [j]. *)
Lemma of_Z_pow2_mul s j :
  0 < s < 2 ^ 24 -> 0 <= j <= 64 ->
  exists m, Zpos m = s * 2 ^ (24 - Zdigits2 s) /\
            Zpos (digits2_pos m) = 24 /\
            F32.of_Z (s * 2 ^ j) = S754_finite false m (Zdigits2 s + j - 24).
Proof.
  intros Hs Hj.
  pose proof (Zdigits2_bounds s ltac:(lia)) as Bs.
  assert (Hds : 1 <= Zdigits2 s <= 24).
  { destruct s as [|p|p]; try lia. cbn [Zdigits2] in *.
    split; [lia | apply digits2_pos_le; lia]. }
  set (ds := Zdigits2 s) in *.
  assert (Hpj : 0 < 2 ^ j) by (apply Z.pow_pos_nonneg; lia).
  assert (Hpd : 0 < 2 ^ (24 - ds)) by (apply Z.pow_pos_nonneg; lia).
  destruct (s * 2 ^ (24 - ds)) as [|m|m] eqn:Em; try lia.
  assert (Hm : Zpos (digits2_pos m) = 24).
  { apply digits2_pos_unique. rewrite <- Em.
    replace (2 ^ (24 - 1)) with (2 ^ (ds - 1) * 2 ^ (24 - ds))
      by (rewrite <- Z.pow_add_r by lia; f_equal; lia).
    replace (2 ^ 24) with (2 ^ ds * 2 ^ (24 - ds))
      by (rewrite <- Z.pow_add_r by lia; f_equal; lia).
    nia. }
  exists m. split; [reflexivity | split; [exact Hm|]].
  destruct (s * 2 ^ j) as [|P|P] eqn:EP; try lia.
  assert (HdP : Zpos (digits2_pos P) = ds + j).
  { apply digits2_pos_unique. rewrite <- EP.
    replace (ds + j - 1) with (ds - 1 + j) by lia.
    rewrite !Z.pow_add_r by lia. nia. }
  unfold F32.of_Z, binary_normalize.
  destruct (Z.leb_spec (ds + j) 24) as [Hle | Hgt].
  - destruct (binary_round_small P 0 (ds + j) HdP Hle ltac:(lia))
      as (m' & Hr & Hm' & _).
    rewrite Hr. f_equal.
    assert (Zpos m' = Zpos m); [|congruence].
    rewrite Hm', <- EP, <- Em, <- Z.mul_assoc, <- Z.pow_add_r by lia.
    f_equal. f_equal. lia.
  - unfold binary_round. rewrite HdP, fexp_normal by lia.
    unfold shl_align.
    destruct (ds + j + 0 - 24 - 0) as [|q|q] eqn:Eq; try lia.
    assert (EPm : Zpos P = Zpos m * 2 ^ (ds + j - 24)).
    { rewrite <- EP, <- Em, <- Z.mul_assoc, <- Z.pow_add_r by lia.
      f_equal. f_equal. lia. }
    rewrite EPm, binary_round_aux_exact_shr by (try assumption; lia).
    reflexivity.
Qed.

(** Dividing a float by the float with the same mantissa twelve binades
    below gives exactly 4096. *)
Lemma div_same_mantissa m e :
  Zpos (digits2_pos m) = 24 -> -60 <= e <= 60 ->
  F32.div (S754_finite false m (e + 12)) (S754_finite false m e)
  = S754_finite false 8388608 (-11).
Proof.
  intros Hm He.
  unfold F32.div, SFdiv, SFdiv_core_binary. cbn [Zdigits2 xorb].
  rewrite Hm, fexp_normal by lia.
  replace (Z.min (24 + (e + 12) - (24 + e) - 24) (e + 12 - e)) with (-12) by lia.
  replace (e + 12 - e - -12) with 24 by lia.
  cbv iota. rewrite div_eucl_eq.
  rewrite Z.shiftl_mul_pow2 by lia.
  rewrite Z.mul_comm, Z.div_mul, Z.mod_mul by lia.
  unfold new_location, new_location_even, new_location_odd.
  destruct (Z.even (Zpos m)); reflexivity.
Qed.

(** With source and destination of the same size, the recomputed step is
    exactly 4096. *)
Lemma ceil_step_same s : 1 <= s < 2 ^ 20 -> ceil_step s s = Some 0x1000.
Proof.
  intros Hs. unfold ceil_step.
  rewrite shiftl_12, u32_small
    by (change (2 ^ 32) with 4294967296; change (2 ^ 20) with 1048576 in Hs; lia).
  change 4096 with (2 ^ 12) at 1.
  assert (Hs24 : 0 < s < 2 ^ 24)
    by (change (2 ^ 24) with 16777216; change (2 ^ 20) with 1048576 in Hs; lia).
  destruct (of_Z_pow2_mul s 12 Hs24 ltac:(lia)) as (m & Em & Hm & Ex).
  destruct (of_Z_pow2_mul s 0 Hs24 ltac:(lia)) as (m' & Em' & _ & Ey).
  rewrite Z.pow_0_r, Z.mul_1_r in Ey.
  assert (m' = m) by (apply Pos2Z.inj; congruence). subst m'.
  rewrite Ex, Ey.
  pose proof (Zdigits2_bounds s ltac:(lia)) as Bs.
  assert (Hds : 1 <= Zdigits2 s <= 24).
  { destruct s as [|p|p]; try lia. cbn [Zdigits2] in *.
    split; [lia | apply digits2_pos_le; lia]. }
  replace (Zdigits2 s + 12 - 24) with (Zdigits2 s + 0 - 24 + 12) by lia.
  rewrite div_same_mantissa by (try assumption; lia).
  reflexivity.
Qed.

(** ** The dispatcher *)

(** A destination without pixels is left alone; otherwise the call runs
    the sampler [select_sampler] chooses, with the steps it chooses. *)
Lemma hq_empty_destination dest source color force :
  bm_width dest = 0 \/ bm_height dest = 0 ->
  render_resample_argb_bitmap_hq dest source color force = Some dest.
Proof.
  intros H. unfold render_resample_argb_bitmap_hq.
  replace ((bm_width dest =? 0) || (bm_height dest =? 0)) with true;
    [reflexivity|].
  symmetry. apply orb_true_iff.
  destruct H as [H | H]; [left | right]; apply Z.eqb_eq; exact H.
Qed.

Lemma hq_runs_selection dest source color force :
  bm_width dest <> 0 -> bm_height dest <> 0 ->
  render_resample_argb_bitmap_hq dest source color force =
  (sel <- select_sampler (bm_width source) (bm_height source)
                         (bm_width dest) (bm_height dest) force ;;
   base <- run_sampler (sel_sampler sel) (bm_base dest) (bm_rowpixels dest)
             (bm_width dest) (bm_height dest) (bm_base source)
             (bm_rowpixels source) (bm_width source) (bm_height source)
             color (sel_dx sel) (sel_dy sel) ;;
   Some (mk_bitmap (bm_width dest) (bm_height dest) (bm_rowpixels dest) base)).
Proof.
  intros Hw Hh. unfold render_resample_argb_bitmap_hq.
  apply Z.eqb_neq in Hw. apply Z.eqb_neq in Hh. rewrite Hw, Hh. reflexivity.
Qed.

(** C1 (as amended). For a destination with nonzero width and height and
    any tint, [render_resample_argb_bitmap_hq] selects the weighted-average
    sampler exactly when [dx = (srcWidth << 12) / dstWidth] exceeds 4096 or
    [dy = (srcHeight << 12) / dstHeight] exceeds 4096 -- both computed in
    32-bit unsigned arithmetic -- or the force flag is set.  Otherwise it
    recomputes the steps as the ceiling of the single-precision quotient
    ([ceil_step], always defined on this path) and, for a source with
    nonzero width and height, selects the integer sampler exactly when
    [dstWidth] is divisible by [srcWidth] and [dstHeight] by [srcHeight],
    and the bilinear sampler otherwise. *)
Theorem dispatcher_selection (swidth sheight dwidth dheight : Z) (force : bool) :
  0 <= swidth -> 0 <= sheight ->
  1 <= dwidth < 2 ^ 32 -> 1 <= dheight < 2 ^ 32 ->
  let dx := u32 (Z.shiftl swidth 12) / dwidth in
  let dy := u32 (Z.shiftl sheight 12) / dheight in
  if (dx >? 0x1000) || (dy >? 0x1000) || force then
    select_sampler swidth sheight dwidth dheight force
    = Some (mk_selection SamplerAverage dx dy)
  else
    exists dx' dy',
      ceil_step swidth dwidth = Some dx' /\
      ceil_step sheight dheight = Some dy' /\
      (1 <= swidth -> 1 <= sheight ->
       select_sampler swidth sheight dwidth dheight force
       = Some (mk_selection
                 (if (dwidth mod swidth =? 0) && (dheight mod sheight =? 0)
                  then SamplerInteger else SamplerBilinear)
                 dx' dy')).
Proof.
  intros Hsw Hsh Hdw Hdh dx dy.
  destruct ((dx >? 0x1000) || (dy >? 0x1000) || force) eqn:E.
  - unfold select_sampler. fold dx dy. rewrite E. reflexivity.
  - apply orb_false_elim in E. destruct E as [E Hf].
    apply orb_false_elim in E. destruct E as [Ex Ey].
    assert (Hx : dx <= 0x1000) by (destruct (Z.gtb_spec dx 0x1000); [discriminate | lia]).
    assert (Hy : dy <= 0x1000) by (destruct (Z.gtb_spec dy 0x1000); [discriminate | lia]).
    destruct (ceil_step_defined swidth dwidth Hsw Hdw Hx) as (dx' & Hdx' & _).
    destruct (ceil_step_defined sheight dheight Hsh Hdh Hy) as (dy' & Hdy' & _).
    exists dx', dy'. split; [exact Hdx' | split; [exact Hdy'|]].
    intros Hsw1 Hsh1. unfold select_sampler. fold dx dy.
    rewrite Ex, Ey, Hf, Hdx', Hdy'. cbn [orb obind]. unfold umod.
    replace (swidth =? 0) with false by (symmetry; apply Z.eqb_neq; lia).
    replace (sheight =? 0) with false by (symmetry; apply Z.eqb_neq; lia).
    cbn [obind].
    destruct (dwidth mod swidth =? 0); [|reflexivity].
    destruct (dheight mod sheight =? 0); reflexivity.
Qed.

Lemma dispatcher_selection_witness :
  (0 <= 2 /\ 0 <= 3 /\ 1 <= 4 < 2 ^ 32 /\ 1 <= 6 < 2 ^ 32) /\
  exists dx' dy',
    ceil_step 2 4 = Some dx' /\ ceil_step 3 6 = Some dy' /\
    (1 <= 2 -> 1 <= 3 ->
     select_sampler 2 3 4 6 false
     = Some (mk_selection
               (if (4 mod 2 =? 0) && (6 mod 3 =? 0)
                then SamplerInteger else SamplerBilinear) dx' dy')).
Proof.
  split; [lia|].
  exact (dispatcher_selection 2 3 4 6 false
           ltac:(lia) ltac:(lia) ltac:(lia) ltac:(lia)).
Defined.

(** C1 as stated fails in two places.  A source 2^20 pixels wide has the
    mathematical step [(2^20 * 4096) / 1] far above 4096, yet the 32-bit
    shift wraps to 0 and the bilinear sampler is selected.  And for a
    12286-wide source and a 12289-wide destination the recomputed step is
    4095, while the exact quotient 12286 * 4096 / 12289 rounds up to 4096. *)
Lemma dispatcher_selection_counterexample :
  ((1048576 * 4096) / 1 > 4096 /\
   select_sampler 1048576 1 1 1 false
   = Some (mk_selection SamplerBilinear 0 4096)) /\
  (- ((- (12286 * 4096)) / 12289) = 4096 /\
   select_sampler 12286 1 12289 1 false
   = Some (mk_selection SamplerBilinear 4095 4096)).
Proof. vm_compute. repeat split; congruence. Qed.

(** ** Identity resampling *)

(** A loop whose round [i] rewrites the cells [dom i] of the pixel store
    with [val i] and leaves the others alone; rounds touch disjoint
    cells.  The loop then completes, every cell of every round holds its
    value, and cells outside all rounds are untouched. *)
Lemma for_loop_frames (dom : Z -> Z -> Prop) (val : Z -> Z -> Z)
    (body : Z -> pixmem -> option pixmem) n : forall i0 m,
  (forall i m, i0 <= i < i0 + Z.of_nat n ->
     exists m', body i m = Some m' /\
                (forall j, dom i j -> m' j = val i j) /\
                (forall j, ~ dom i j -> m' j = m j)) ->
  (forall i i' j, i0 <= i < i0 + Z.of_nat n -> i0 <= i' < i0 + Z.of_nat n ->
     dom i j -> dom i' j -> i = i') ->
  exists m', for_loop n i0 body m = Some m' /\
             (forall i j, i0 <= i < i0 + Z.of_nat n -> dom i j -> m' j = val i j) /\
             (forall j, (forall i, i0 <= i < i0 + Z.of_nat n -> ~ dom i j) -> m' j = m j).
Proof.
  induction n as [|n IH]; intros i0 m Hbody Hdisj.
  - exists m. split; [reflexivity|]. split; [intros; lia | reflexivity].
  - rewrite Nat2Z.inj_succ in *.
    destruct (Hbody i0 m ltac:(lia)) as (m1 & E1 & W1 & F1).
    destruct (IH (i0 + 1) m1) as (m' & E' & W' & F').
    { intros i m2 Hi. apply Hbody. lia. }
    { intros i i' j Hi Hi'. apply Hdisj; lia. }
    exists m'. split; [cbn [for_loop]; rewrite E1; exact E'|]. split.
    + intros i j Hi Hd.
      destruct (Z.eq_dec i i0) as [-> | Hne].
      * rewrite F'; [apply W1; exact Hd|].
        intros i Hi' Hd'. assert (i = i0) by (apply (Hdisj i i0 j); auto; lia). lia.
      * apply W'; [lia | exact Hd].
    + intros j Hj. rewrite F'; [apply F1; apply Hj; lia|].
      intros i Hi. apply Hj. lia.
Qed.

Lemma store_same m i v : store m i v i = v.
Proof. unfold store. rewrite Z.eqb_refl. reflexivity. Qed.

Lemma store_other m i v j : j <> i -> store m i v j = m j.
Proof. intros H. unfold store. apply Z.eqb_neq in H. rewrite H. reflexivity. Qed.

Lemma pix_channel_ranges p :
  0 <= pix_a p <= 255 /\ 0 <= pix_r p <= 255 /\
  0 <= pix_g p <= 255 /\ 0 <= pix_b p <= 255.
Proof.
  unfold pix_a, pix_r, pix_g, pix_b.
  pose proof (u8_range (p / 2 ^ 24)). pose proof (u8_range (p / 2 ^ 16)).
  pose proof (u8_range (p / 2 ^ 8)). pose proof (u8_range p).
  change (2 ^ 8) with 256 in *. lia.
Qed.

Lemma tint_white : tint_factors color_white = Some (256, 256, 256, 256).
Proof. reflexivity. Qed.

(** With an opaque tint nothing is blended: the pixel is overwritten. *)
Lemma blend_store_opaque wrap dest idx suma sumr sumg sumb :
  blend_store wrap dest idx 256 suma sumr sumg sumb
  = store dest idx (rgb_t suma sumr sumg sumb).
Proof. reflexivity. Qed.

Lemma scale_256 c : 0 <= c <= 255 -> u32 (c * 256) / 256 = c.
Proof.
  intros Hc. rewrite u32_small by (change (2 ^ 32) with 4294967296; lia).
  apply Z.div_mul. lia.
Qed.

Lemma scale_256_64 c : 0 <= c <= 255 -> u64 (c * 256) / 256 = c.
Proof.
  intros Hc. rewrite u64_small by (change (2 ^ 64) with 18446744073709551616; lia).
  apply Z.div_mul. lia.
Qed.

(** The pixel index [y * rowpixels + x] does not wrap inside a bitmap. *)
Lemma index_small b y x :
  bm_wf b -> 0 <= x < bm_width b -> 0 <= y < bm_height b ->
  u32 (y * bm_rowpixels b + x) = y * bm_rowpixels b + x.
Proof.
  intros (Hw & Hh & Hsz & _) Hx Hy. apply u32_small. nia.
Qed.

(** At step 4096 the fixed-point coordinate of pixel [i] is cell [i]. *)
Lemma unit_step_cell i : 0 <= i < 2 ^ 20 -> Z.shiftr (u32 (i * 0x1000)) 12 = i.
Proof.
  intros Hi. change (2 ^ 20) with 1048576 in Hi.
  rewrite u32_small by (change (2 ^ 32) with 4294967296; lia).
  rewrite shiftr_12. apply Z.div_mul. lia.
Qed.

Lemma x_cells_done fuel curx : x_cells fuel curx 0 = [].
Proof. destruct fuel; reflexivity. Qed.

Lemma y_cells_done fuel startx dx cury : y_cells fuel startx dx cury 0 = [].
Proof. destruct fuel; reflexivity. Qed.

Lemma clamp_chunk_aligned i : clamp_chunk (i * 4096) 4096 = 4096.
Proof.
  unfold clamp_chunk. rewrite land_fff, Z.mod_mul by lia. reflexivity.
Qed.

(** At steps 4096 x 4096 the footprint of a pixel is one whole cell. *)
Lemma average_cells_unit x y :
  0 <= x < 2 ^ 20 -> 0 <= y < 2 ^ 20 ->
  average_cells 0x1000 0x1000 x y = [(y * 4096, x * 4096, 16777216)].
Proof.
  intros Hx Hy. change (2 ^ 20) with 1048576 in *.
  unfold average_cells. change 0x1000 with 4096.
  rewrite !u32_small by (change (2 ^ 32) with 4294967296; lia).
  replace (Z.to_nat 4096) with (S (Z.to_nat 4095)) by lia.
  rewrite y_cells_S.
  replace (Z.to_nat 4096) with (S (Z.to_nat 4095)) by lia.
  rewrite x_cells_S.
  change (4096 =? 0) with false. cbv iota.
  rewrite !clamp_chunk_aligned.
  change (4096 - 4096) with 0.
  rewrite x_cells_done, y_cells_done.
  reflexivity.
Qed.

(** One pixel of the integer sampler at unit steps and white tint. *)
Lemma integer_pixel_unit pix :
  0 <= pix < 2 ^ 32 ->
  rgb_t (u32 (pix_a pix * 256) / 256) (u32 (pix_r pix * 256) / 256)
        (u32 (pix_g pix * 256) / 256) (u32 (pix_b pix * 256) / 256) = pix.
Proof.
  intros Hp. destruct (pix_channel_ranges pix) as (Ha & Hr & Hg & Hb).
  rewrite !scale_256 by assumption. apply rgb_t_channels. exact Hp.
Qed.

Lemma whole_cell c : 0 <= c <= 255 ->
  u64 (0 + u32 (16777216 * c)) / u64 (0x1000 * 0x1000) = c.
Proof.
  intros Hc. change (u64 (0x1000 * 0x1000)) with 16777216.
  rewrite Z.add_0_l, u32_small by (change (2 ^ 32) with 4294967296; lia).
  rewrite u64_small by (change (2 ^ 64) with 18446744073709551616; lia).
  rewrite Z.mul_comm. apply Z.div_mul. lia.
Qed.

(** The two nested loops shared by the samplers, when each round stores
    one value [v y x] at [y * drowpixels + x]. *)
Lemma nested_store_loops (pb : Z -> Z -> pixmem -> option pixmem)
    (drowpixels dwidth dheight : Z) (v : Z -> Z -> Z) (m : pixmem) :
  0 <= dwidth <= drowpixels -> 0 <= dheight ->
  (forall y x m, 0 <= y < dheight -> 0 <= x < dwidth ->
     pb y x m = Some (store m (y * drowpixels + x) (v y x))) ->
  exists m',
    for_loop (Z.to_nat dheight) 0
      (fun y dest => for_loop (Z.to_nat dwidth) 0 (fun x dest => pb y x dest) dest) m
    = Some m' /\
    forall y x, 0 <= y < dheight -> 0 <= x < dwidth ->
      m' (y * drowpixels + x) = v y x.
Proof.
  intros Hw Hh Hpb.
  destruct (for_loop_frames
              (fun y j => exists x, 0 <= x < dwidth /\ j = y * drowpixels + x)
              (fun y j => v y (j - y * drowpixels))
              (fun y dest => for_loop (Z.to_nat dwidth) 0 (fun x dest => pb y x dest) dest)
              (Z.to_nat dheight) 0 m) as (m' & E & Wr & _).
  - intros y m0 Hy. rewrite Z2Nat.id in Hy by lia.
    destruct (for_loop_frames
                (fun x j => j = y * drowpixels + x)
                (fun x j => v y x)
                (fun x dest => pb y x dest)
                (Z.to_nat dwidth) 0 m0) as (m1 & E1 & W1 & F1).
    + intros x m2 Hx. rewrite Z2Nat.id in Hx by lia.
      exists (store m2 (y * drowpixels + x) (v y x)).
      split; [apply Hpb; lia|]. split.
      * intros j ->. apply store_same.
      * intros j Hj. apply store_other. exact Hj.
    + intros x x' j _ _ -> Hj. lia.
    + exists m1. split; [exact E1|]. split.
      * intros j (x & Hx & ->).
        replace (y * drowpixels + x - y * drowpixels) with x by lia.
        apply (W1 x); [rewrite Z2Nat.id by lia; lia | reflexivity].
      * intros j Hj. apply F1. intros x Hx ->. apply Hj.
        exists x. rewrite Z2Nat.id in Hx by lia. split; [lia | reflexivity].
  - intros y y' j Hy Hy' (x & Hx & ->) (x' & Hx' & Hj). nia.
  - exists m'. split; [exact E|].
    intros y x Hy Hx.
    rewrite (Wr y); [f_equal; lia | rewrite Z2Nat.id by lia; lia |].
    exists x. split; [lia | reflexivity].
Qed.

(** The integer sampler under the white tint, whatever the steps: every
    destination pixel receives the source pixel its coordinates select. *)
Lemma integer_white (dest : pixmem) (drowpixels dwidth dheight : Z)
    (source : pixmem) (srowpixels swidth sheight dx dy : Z) :
  0 <= dwidth <= drowpixels -> 0 <= dheight ->
  drowpixels * dheight < 2 ^ 32 ->
  (forall i, 0 <= source i < 2 ^ 32) ->
  exists m',
    resample_argb_bitmap_integer dest drowpixels dwidth dheight
      source srowpixels swidth sheight color_white dx dy = Some m' /\
    forall y x, 0 <= y < dheight -> 0 <= x < dwidth ->
      m' (y * drowpixels + x)
      = source (u32 (Z.shiftr (u32 (y * dy)) 12 * srowpixels
                     + Z.shiftr (u32 (x * dx)) 12)).
Proof.
  intros Hw Hh Hsz Hpx.
  unfold resample_argb_bitmap_integer. rewrite tint_white.
  cbn [obind]. cbv zeta.
  apply nested_store_loops; try lia.
  intros y x m Hy Hx.
  rewrite blend_store_opaque, integer_pixel_unit by apply Hpx.
  rewrite u32_small by nia. reflexivity.
Qed.

Section UnitResampling.
Variables (dest source : bitmap_argb32).
Hypothesis Hdest : bm_wf dest.
Hypothesis Hsource : bm_wf source.
Hypothesis Hwidth : bm_width dest = bm_width source.
Hypothesis Hheight : bm_height dest = bm_height source.
Hypothesis Hw20 : bm_width source < 2 ^ 20.
Hypothesis Hh20 : bm_height source < 2 ^ 20.

Lemma source_fetch_unit y x :
  0 <= y < (bm_height source) -> 0 <= x < (bm_width source) ->
  bm_base source (u32 (Z.shiftr (u32 (y * 0x1000)) 12 * bm_rowpixels source
                       + Z.shiftr (u32 (x * 0x1000)) 12))
  = bm_pix source y x.
Proof.
  intros Hy Hx.
  rewrite !unit_step_cell by lia.
  rewrite index_small by (try assumption; lia). reflexivity.
Qed.

Lemma integer_unit :
  exists m',
    resample_argb_bitmap_integer (bm_base dest) (bm_rowpixels dest) (bm_width source) (bm_height source)
      (bm_base source) (bm_rowpixels source) (bm_width source) (bm_height source) color_white 0x1000 0x1000
    = Some m' /\
    forall y x, 0 <= y < (bm_height source) -> 0 <= x < (bm_width source) ->
      m' (y * bm_rowpixels dest + x) = bm_pix source y x.
Proof.
  destruct Hdest as (Dw & Dh & Dsz & _). destruct Hsource as (Sw & Sh & Ssz & Spx).
  destruct (integer_white (bm_base dest) (bm_rowpixels dest) (bm_width source) (bm_height source)
              (bm_base source) (bm_rowpixels source) (bm_width source) (bm_height source) 0x1000 0x1000)
    as (m' & E & Hm'); try lia; try assumption.
  exists m'. split; [exact E|].
  intros y x Hy Hx. rewrite Hm', source_fetch_unit by assumption. reflexivity.
Qed.

Lemma average_unit :
  exists m',
    resample_argb_bitmap_average (bm_base dest) (bm_rowpixels dest) (bm_width source) (bm_height source)
      (bm_base source) (bm_rowpixels source) (bm_width source) (bm_height source) color_white 0x1000 0x1000
    = Some m' /\
    forall y x, 0 <= y < (bm_height source) -> 0 <= x < (bm_width source) ->
      m' (y * bm_rowpixels dest + x) = bm_pix source y x.
Proof.
  unfold resample_argb_bitmap_average. rewrite tint_white.
  cbn [obind]. cbv zeta.
  destruct Hdest as (Dw & Dh & Dsz & _). destruct Hsource as (Sw & Sh & Ssz & Spx).
  apply nested_store_loops; try lia.
  intros y x m Hy Hx.
  rewrite average_cells_unit by lia.
  unfold average_sums, cell_factor, cell_cury, cell_curx.
  cbn [fold_left fst snd].
  change (y * 4096) with (y * 0x1000). change (x * 4096) with (x * 0x1000).
  rewrite <- (u32_small (y * 0x1000)), <- (u32_small (x * 0x1000))
    by (change (2 ^ 32) with 4294967296; change (2 ^ 20) with 1048576 in *;
        change 0x1000 with 4096; lia).
  rewrite source_fetch_unit by assumption.
  destruct (pix_channel_ranges (bm_pix source y x)) as (Ha & Hr & Hg & Hb).
  unfold udiv. change (u64 (0x1000 * 0x1000) =? 0) with false.
  cbn [obind]. rewrite !whole_cell, !scale_256_64 by assumption.
  rewrite blend_store_opaque, rgb_t_channels by apply Spx.
  rewrite u32_small by nia. reflexivity.
Qed.
End UnitResampling.

(** With equal sizes below [2 ^ 20] both steps are 4096, and the force
    flag alone decides between the average and the integer sampler. *)
Lemma select_same w h force :
  1 <= w < 2 ^ 20 -> 1 <= h < 2 ^ 20 ->
  select_sampler w h w h force
  = Some (mk_selection (if force then SamplerAverage else SamplerInteger)
                       0x1000 0x1000).
Proof.
  intros Hw Hh. change (2 ^ 20) with 1048576 in *.
  unfold select_sampler.
  rewrite !shiftl_12, !u32_small by (change (2 ^ 32) with 4294967296; lia).
  rewrite (Z.mul_comm w), (Z.mul_comm h), !Z.div_mul by lia.
  change (4096 >? 0x1000) with false. cbn [orb].
  destruct force; [reflexivity|].
  rewrite !ceil_step_same by (change (2 ^ 20) with 1048576; lia).
  cbn [obind]. unfold umod.
  replace (w =? 0) with false by (symmetry; apply Z.eqb_neq; lia).
  replace (h =? 0) with false by (symmetry; apply Z.eqb_neq; lia).
  cbn [obind]. rewrite !Z.mod_same by lia. reflexivity.
Qed.

(** C2 (as amended). For source and destination bitmaps of the same width
    and height, both below [2 ^ 20], resampling with the fully opaque,
    colourless tint (r = g = b = a = 1.0) is the identity, with or without
    the force flag: the call is defined and every destination pixel equals
    the corresponding source pixel. *)
Theorem resample_identity (dest source : bitmap_argb32) (force : bool) :
  bm_wf dest -> bm_wf source ->
  bm_width dest = bm_width source -> bm_height dest = bm_height source ->
  bm_width source < 2 ^ 20 -> bm_height source < 2 ^ 20 ->
  exists dest',
    render_resample_argb_bitmap_hq dest source color_white force = Some dest' /\
    bm_width dest' = bm_width dest /\ bm_height dest' = bm_height dest /\
    bm_rowpixels dest' = bm_rowpixels dest /\
    forall y x, 0 <= y < bm_height dest -> 0 <= x < bm_width dest ->
      bm_pix dest' y x = bm_pix source y x.
Proof.
  intros Hd Hs Hw Hh Hw20 Hh20.
  unfold render_resample_argb_bitmap_hq.
  destruct ((bm_width dest =? 0) || (bm_height dest =? 0)) eqn:E.
  - exists dest. repeat split.
    intros y x Hy Hx. apply orb_true_iff in E.
    destruct E as [E | E]; apply Z.eqb_eq in E; lia.
  - apply orb_false_elim in E. destruct E as [Ew Eh].
    apply Z.eqb_neq in Ew. apply Z.eqb_neq in Eh.
    pose proof Hd as (Dw & Dh & _).
    rewrite Hw, Hh.
    rewrite select_same by lia. cbn [obind sel_sampler sel_dx sel_dy].
    destruct force; cbn [run_sampler].
    + destruct (average_unit dest source) as (m' & E & Hm'); try assumption.
      rewrite E. cbn [obind]. eexists. split; [reflexivity|].
      cbn [bm_width bm_height bm_rowpixels]. repeat split; try congruence.
      intros y x Hy Hx. unfold bm_pix at 1. cbn [bm_base bm_rowpixels].
      apply Hm'; lia.
    + destruct (integer_unit dest source) as (m' & E & Hm'); try assumption.
      rewrite E. cbn [obind]. eexists. split; [reflexivity|].
      cbn [bm_width bm_height bm_rowpixels]. repeat split; try congruence.
      intros y x Hy Hx. unfold bm_pix at 1. cbn [bm_base bm_rowpixels].
      apply Hm'; lia.
Qed.

Lemma small_dest_wf : bm_wf small_dest.
Proof. unfold bm_wf, small_dest. cbn. repeat split; lia. Qed.

Lemma small_source_wf : bm_wf small_source.
Proof.
  unfold bm_wf, small_source. cbn. repeat split; try lia;
    destruct (i =? 0); lia.
Qed.

Lemma resample_identity_witness :
  (bm_wf small_dest /\ bm_wf small_source /\
   bm_width small_dest = bm_width small_source /\
   bm_height small_dest = bm_height small_source /\
   bm_width small_source < 2 ^ 20 /\ bm_height small_source < 2 ^ 20) /\
  exists dest',
    render_resample_argb_bitmap_hq small_dest small_source color_white false
    = Some dest' /\
    bm_width dest' = bm_width small_dest /\ bm_height dest' = bm_height small_dest /\
    bm_rowpixels dest' = bm_rowpixels small_dest /\
    forall y x, 0 <= y < bm_height small_dest -> 0 <= x < bm_width small_dest ->
      bm_pix dest' y x = bm_pix small_source y x.
Proof.
  assert (Hw : bm_width small_source < 2 ^ 20) by (cbn; lia).
  assert (Hh : bm_height small_source < 2 ^ 20) by (cbn; lia).
  split.
  - split; [apply small_dest_wf|].
    split; [apply small_source_wf|].
    split; [reflexivity|]. split; [reflexivity|]. split; assumption.
  - exact (resample_identity small_dest small_source false
             small_dest_wf small_source_wf eq_refl eq_refl Hw Hh).
Defined.

(** C2 as stated fails for bitmaps 2^20 pixels wide: the shift
    [swidth << 12] wraps to 0, the integer sampler runs with [dx = 0], and
    every destination pixel of the row receives source pixel 0. *)
Lemma resample_identity_counterexample :
  bm_width wide_dest = bm_width wide_source /\
  bm_height wide_dest = bm_height wide_source /\
  exists dest',
    render_resample_argb_bitmap_hq wide_dest wide_source color_white false
    = Some dest' /\
    bm_pix dest' 0 1 <> bm_pix wide_source 0 1.
Proof.
  split; [reflexivity | split; [reflexivity|]].
  assert (Hsel : select_sampler 1048576 1 1048576 1 false
                 = Some (mk_selection SamplerInteger 0 4096))
    by (vm_compute; reflexivity).
  destruct (integer_white (bm_base wide_dest) 1048576 1048576 1
              (bm_base wide_source) 1048576 1048576 1 0 4096)
    as (m' & E & Hm'); try lia.
  { intros i. cbn. destruct (i =? 1); lia. }
  unfold render_resample_argb_bitmap_hq.
  change (bm_width wide_dest) with 1048576. change (bm_height wide_dest) with 1.
  change (bm_width wide_source) with 1048576. change (bm_height wide_source) with 1.
  change (bm_rowpixels wide_dest) with 1048576.
  change (bm_rowpixels wide_source) with 1048576.
  change ((1048576 =? 0) || (1 =? 0)) with false. cbv iota.
  rewrite Hsel. cbn [obind sel_sampler sel_dx sel_dy run_sampler].
  rewrite E. cbn [obind]. eexists. split; [reflexivity|].
  unfold bm_pix. cbn [bm_base bm_rowpixels].
  rewrite (Hm' 0 1) by lia.
  vm_compute. discriminate.
Qed.

(** ** Line clipping *)

Lemma SFcompare_antisym a b :
  SFcompare b a = option_map CompOpp (SFcompare a b).
Proof.
  destruct a as [sa | sa | | sa ma ea], b as [sb | sb | | sb mb eb];
    cbn [SFcompare option_map]; try reflexivity;
    try (destruct sa; reflexivity); try (destruct sb; reflexivity);
    try (destruct sa, sb; reflexivity).
  assert (Hm : Pos.compare_cont Eq mb ma = CompOpp (Pos.compare_cont Eq ma mb))
    by (symmetry; apply (Pos.compare_cont_antisym ma mb Eq)).
  destruct sa, sb; cbn [CompOpp]; try reflexivity;
    rewrite (Z.compare_antisym ea eb), Hm;
    destruct (ea ?= eb); cbn [CompOpp]; try reflexivity;
    destruct (Pos.compare_cont Eq ma mb); reflexivity.
Qed.

(** [a <= b] excludes [b < a]. *)
Lemma leb_not_gtb a b : F32.leb a b = true -> F32.ltb b a = false.
Proof.
  unfold F32.leb, F32.ltb, SFleb, SFltb. rewrite (SFcompare_antisym a b).
  destruct (SFcompare a b) as [[ | | ]|]; cbn; congruence.
Qed.

Lemma outcode_inside x y clip :
  point_inside x y clip = true -> outcode x y clip = 0.
Proof.
  unfold point_inside. intros H.
  apply andb_prop in H. destruct H as [H Hy1].
  apply andb_prop in H. destruct H as [H Hy0].
  apply andb_prop in H. destruct H as [Hx0 Hx1].
  unfold outcode, fgtb. cbn [fltb Arith_f32].
  rewrite (leb_not_gtb _ _ Hy1), (leb_not_gtb _ _ Hy0),
          (leb_not_gtb _ _ Hx1), (leb_not_gtb _ _ Hx0).
  reflexivity.
Qed.

Lemma land_lor_nonzero a b : Z.land a b <> 0 -> Z.lor a b <> 0.
Proof.
  intros H E. apply Z.lor_eq_0_iff in E. destruct E as [-> ->].
  apply H. reflexivity.
Qed.

(** C4. A segment with both endpoints inside the clip rectangle is
    reported "not rejected" on the very first outcode check, its bounds
    untouched; a segment whose endpoint outcodes share a set bit is
    reported "rejected" (bounds untouched as well), as is the segment
    (-10,-10)-(-5,-5) against the clip rectangle (0,0)-(10,10). *)
Theorem clip_line_trivial_cases (bounds clip : render_bounds spec_float)
    (fuel : nat) :
  (point_inside (x0 bounds) (y0 bounds) clip = true ->
   point_inside (x1 bounds) (y1 bounds) clip = true ->
   render_clip_line (S fuel) bounds clip = Some (false, bounds)) /\
  (Z.land (outcode (x0 bounds) (y0 bounds) clip)
          (outcode (x1 bounds) (y1 bounds) clip) <> 0 ->
   render_clip_line (S fuel) bounds clip = Some (true, bounds)) /\
  render_clip_line 1 segment_outside clip_0_10 = Some (true, segment_outside).
Proof.
  split; [|split].
  - intros H0 H1. cbn [render_clip_line].
    rewrite (outcode_inside _ _ _ H0), (outcode_inside _ _ _ H1).
    reflexivity.
  - intros Hc. cbn [render_clip_line].
    pose proof (land_lor_nonzero _ _ Hc) as Hl.
    apply Z.eqb_neq in Hl. apply Z.eqb_neq in Hc.
    rewrite Hl, Hc. reflexivity.
  - reflexivity.
Qed.

Lemma clip_line_trivial_cases_witness :
  (point_inside (x0 segment_inside) (y0 segment_inside) clip_0_10 = true /\
   point_inside (x1 segment_inside) (y1 segment_inside) clip_0_10 = true /\
   render_clip_line 1 segment_inside clip_0_10 = Some (false, segment_inside)) /\
  (Z.land (outcode (x0 segment_outside) (y0 segment_outside) clip_0_10)
          (outcode (x1 segment_outside) (y1 segment_outside) clip_0_10) <> 0 /\
   render_clip_line 1 segment_outside clip_0_10 = Some (true, segment_outside)).
Proof.
  assert (H0 : point_inside (x0 segment_inside) (y0 segment_inside) clip_0_10 = true)
    by reflexivity.
  assert (H1 : point_inside (x1 segment_inside) (y1 segment_inside) clip_0_10 = true)
    by reflexivity.
  assert (Hc : Z.land (outcode (x0 segment_outside) (y0 segment_outside) clip_0_10)
                      (outcode (x1 segment_outside) (y1 segment_outside) clip_0_10) <> 0)
    by (vm_compute; discriminate).
  split.
  - split; [exact H0 | split; [exact H1|]].
    exact (proj1 (clip_line_trivial_cases segment_inside clip_0_10 0) H0 H1).
  - split; [exact Hc|].
    exact (proj1 (proj2 (clip_line_trivial_cases segment_outside clip_0_10 0)) Hc).
Defined.

(** ** Line to quad: the degenerate segment *)

(** In single precision: the degenerate branch is taken whatever the
    width and the extension, and offsets [(5,5)] twice by
    [u = 0.70710678f * (width * 0.5f)]. *)
Lemma line_to_quad_point_f32 (w ext : spec_float) :
  let u := F32.mul F32.unit_length (F32.mul w F32.half) in
  let five := F32.of_Z 5 in
  let lo := F32.sub five u in
  let hi := F32.add five u in
  quad_corners (render_line_to_quad (point_5_5 five) w ext)
  = [ (F32.sub lo u, F32.add lo u); (F32.add lo u, F32.sub lo u);
      (F32.sub hi u, F32.add hi u); (F32.add hi u, F32.sub hi u) ].
Proof. reflexivity. Qed.

(** In exact arithmetic the same code puts the corners on the axes
    through [(5,5)], at [2 * u] from it. *)
Lemma line_to_quad_point_R (w ext : R) :
  let u := (70710678 / 100000000 * (w * (1 / 2)))%R in
  quad_corners (render_line_to_quad (point_5_5 5%R) w ext)
  = [ (5 - u - u, 5 - u + u)%R; (5 - u + u, 5 - u - u)%R;
      (5 + u - u, 5 + u + u)%R; (5 + u + u, 5 + u - u)%R ].
Proof.
  intros u. unfold render_line_to_quad, point_5_5.
  cbn [x0 y0 x1 y1 fsub fadd fmul feqb fzero fhalf funit_length Arith_R].
  destruct (Req_dec_T (5 - 5) 0) as [_ | Hne]; [|exfalso; apply Hne; lra].
  reflexivity.
Qed.

Lemma dist_R_on_axis_x (c d : R) : dist_R c c (c + d, c)%R = Rabs d.
Proof.
  unfold dist_R. cbn [fst snd].
  replace (Rsqr (c + d - c) + Rsqr (c - c))%R with (Rsqr d)
    by (unfold Rsqr; ring).
  apply sqrt_Rsqr_abs.
Qed.

Lemma dist_R_on_axis_y (c d : R) : dist_R c c (c, c + d)%R = Rabs d.
Proof.
  unfold dist_R. cbn [fst snd].
  replace (Rsqr (c - c) + Rsqr (c + d - c))%R with (Rsqr d)
    by (unfold Rsqr; ring).
  apply sqrt_Rsqr_abs.
Qed.

Lemma line_to_quad_point_dist (w ext : R) :
  Forall (fun p => dist_R 5 5 p = (70710678 / 100000000 * Rabs w)%R)
         (quad_corners (render_line_to_quad (point_5_5 5%R) w ext)).
Proof.
  rewrite line_to_quad_point_R. cbv zeta.
  set (u := (70710678 / 100000000 * (w * (1 / 2)))%R).
  assert (Hu : (Rabs (2 * u) = 70710678 / 100000000 * Rabs w)%R).
  { unfold u.
    replace (2 * (70710678 / 100000000 * (w * (1 / 2))))%R
      with (70710678 / 100000000 * w)%R by field.
    rewrite Rabs_mult. f_equal. apply Rabs_pos_eq. lra. }
  assert (Hn : (Rabs (- (2 * u)) = 70710678 / 100000000 * Rabs w)%R)
    by (rewrite Rabs_Ropp; exact Hu).
  repeat constructor.
  - replace (5 - u - u, 5 - u + u)%R with (5 + - (2 * u), 5)%R
      by (f_equal; ring).
    rewrite dist_R_on_axis_x. exact Hn.
  - replace (5 - u + u, 5 - u - u)%R with (5, 5 + - (2 * u))%R
      by (f_equal; ring).
    rewrite dist_R_on_axis_y. exact Hn.
  - replace (5 + u - u, 5 + u + u)%R with (5, 5 + 2 * u)%R
      by (f_equal; ring).
    rewrite dist_R_on_axis_y. exact Hu.
  - replace (5 + u + u, 5 + u - u)%R with (5 + 2 * u, 5)%R
      by (f_equal; ring).
    rewrite dist_R_on_axis_x. exact Hu.
Qed.

(** C5 (as amended). For the degenerate segment p0 = p1 = (5,5) and
    stroke width [w], whatever the length extension,
    [render_line_to_quad] produces a diamond whose four corners lie, in
    exact arithmetic, at Euclidean distance [0.70710678 * |w|] from (5,5)
    -- the half-width times the square root of two, not the half-width.
    In single precision the corners are [(5 -+ u) -+ u] with
    [u = 0.70710678f * (w * 0.5f)], each operation rounded. *)
Theorem line_to_quad_degenerate :
  (forall w ext : R,
     Forall (fun p => dist_R 5 5 p = (70710678 / 100000000 * Rabs w)%R)
            (quad_corners (render_line_to_quad (point_5_5 5%R) w ext))) /\
  (forall w ext : spec_float,
     let u := F32.mul F32.unit_length (F32.mul w F32.half) in
     let lo := F32.sub (F32.of_Z 5) u in
     let hi := F32.add (F32.of_Z 5) u in
     quad_corners (render_line_to_quad (point_5_5 (F32.of_Z 5)) w ext)
     = [ (F32.sub lo u, F32.add lo u); (F32.add lo u, F32.sub lo u);
         (F32.sub hi u, F32.add hi u); (F32.add hi u, F32.sub hi u) ]).
Proof.
  split.
  - exact line_to_quad_point_dist.
  - exact line_to_quad_point_f32.
Qed.

(** C5 as stated fails at width 2: in single precision every corner lies
    at a squared distance above 1.99 from (5,5), where the claim has
    (w/2)^2 = 1; in exact arithmetic the distance is 1.41421356, not 1. *)
Lemma line_to_quad_degenerate_counterexample :
  Forall (fun p => (199 # 100 < dist2_Q 5 p)%Q /\
                   ~ (dist2_Q 5 p == (F32.to_Q (F32.of_Z 2) / 2) * (F32.to_Q (F32.of_Z 2) / 2))%Q)
         (quad_corners (render_line_to_quad (point_5_5 (F32.of_Z 5))
                                            (F32.of_Z 2) F32.zero)) /\
  Forall (fun p => dist_R 5 5 p <> (2 / 2)%R)
         (quad_corners (render_line_to_quad (point_5_5 5%R) 2%R 0%R)).
Proof.
  split.
  - repeat constructor; vm_compute; congruence.
  - eapply Forall_impl; [|apply (line_to_quad_point_dist 2 0)].
    intros p Hp. cbv beta in Hp. rewrite Hp, Rabs_pos_eq by lra. lra.
Qed.

(** ** The alpha overlay of the chunked-format loader *)

(** The bitwise AND of two bytes is 0xFF only if both are. *)
Lemma land_byte_ff a b :
  0 <= a <= 255 -> 0 <= b <= 255 ->
  (Z.land a b = 255 <-> a = 255 /\ b = 255).
Proof.
  intros Ha Hb. split.
  - intros E.
    assert (La : Z.ldiff (Z.land a b) a = 0).
    { apply Z.bits_inj'. intros n _.
      rewrite Z.ldiff_spec, Z.land_spec, Z.bits_0.
      destruct (Z.testbit a n), (Z.testbit b n); reflexivity. }
    assert (Lb : Z.ldiff (Z.land a b) b = 0).
    { apply Z.bits_inj'. intros n _.
      rewrite Z.ldiff_spec, Z.land_spec, Z.bits_0.
      destruct (Z.testbit a n), (Z.testbit b n); reflexivity. }
    rewrite E in La, Lb.
    apply Z.ldiff_le in La; [|lia]. apply Z.ldiff_le in Lb; [|lia]. lia.
  - intros [-> ->]. reflexivity.
Qed.

Lemma land_byte_range a b : 0 <= a <= 255 -> 0 <= b <= 255 -> 0 <= Z.land a b <= 255.
Proof.
  intros Ha Hb. split; [apply Z.land_nonneg; lia|].
  assert (L : Z.ldiff (Z.land a b) a = 0).
  { apply Z.bits_inj'. intros n _.
    rewrite Z.ldiff_spec, Z.land_spec, Z.bits_0.
    destruct (Z.testbit a n), (Z.testbit b n); reflexivity. }
  apply Z.ldiff_le in L; lia.
Qed.

Section OverlayAlphaFacts.
Variable brightness : Z -> Z -> Z -> Z.
Variable png : png_info.

(** Every derived alpha is a byte (true of the image bytes themselves by
    their type). *)
Hypothesis Halpha : forall src, 0 <= derived_alpha brightness png src <= 255.


Lemma copy_row_spec pass y n : forall x s,
  0 <= cs_accumalpha s <= 255 ->
  let s' := copy_row brightness png pass y n x s in
  cs_src s' = cs_src s + src_stride png * Z.of_nat n /\
  0 <= cs_accumalpha s' <= 255 /\
  (cs_accumalpha s' = 255 <->
   cs_accumalpha s = 255 /\
   forall k, 0 <= k < Z.of_nat n -> derived_alpha brightness png (cs_src s + src_stride png * k) = 255).
Proof.
  induction n as [|n IH]; intros x s Hacc; cbn [copy_row].
  - cbv zeta. split; [lia|]. split; [exact Hacc|].
    split; [intros E; split; [exact E | intros; lia] | tauto].
  - cbv zeta.
    set (s1 := copy_pixel brightness png pass y x s).
    assert (Hsrc1 : cs_src s1 = cs_src s + src_stride png)
      by (unfold s1, copy_pixel; destruct (png_interlace_method png =? 0); reflexivity).
    assert (Hacc1 : cs_accumalpha s1 = Z.land (cs_accumalpha s) (derived_alpha brightness png (cs_src s)))
      by (unfold s1, copy_pixel; destruct (png_interlace_method png =? 0); reflexivity).
    pose proof (Halpha (cs_src s)) as Ha.
    assert (Hr1 : 0 <= cs_accumalpha s1 <= 255)
      by (rewrite Hacc1; apply land_byte_range; assumption).
    destruct (IH (x + 1) s1 Hr1) as (Es & Er & Ei). cbv zeta in Es, Er, Ei.
    split; [rewrite Es, Hsrc1, Nat2Z.inj_succ; lia|]. split; [exact Er|].
    rewrite Ei, Hacc1, (land_byte_ff _ _ Hacc Ha), Hsrc1.
    split.
    + intros ((E1 & E2) & E3). split; [exact E1|].
      intros k Hk. destruct (Z.eq_dec k 0) as [-> | Hne].
      * rewrite Z.mul_0_r, Z.add_0_r. exact E2.
      * replace (cs_src s + src_stride png * k) with (cs_src s + src_stride png + src_stride png * (k - 1)) by lia.
        apply E3. lia.
    + intros (E1 & E3). split; [split; [exact E1|] |].
      * replace (cs_src s) with (cs_src s + src_stride png * 0) at 1 by lia.
        apply E3. lia.
      * intros k Hk.
        replace (cs_src s + src_stride png + src_stride png * k) with (cs_src s + src_stride png * (k + 1)) by lia.
        apply E3. lia.
Qed.

Lemma copy_rows_spec pass width n : forall y s,
  0 <= width -> 0 <= cs_accumalpha s <= 255 ->
  let s' := copy_rows brightness png pass width n y s in
  cs_src s' = cs_src s + src_stride png * (width * Z.of_nat n) /\
  0 <= cs_accumalpha s' <= 255 /\
  (cs_accumalpha s' = 255 <->
   cs_accumalpha s = 255 /\
   forall r k, 0 <= r < Z.of_nat n -> 0 <= k < width ->
     derived_alpha brightness png (cs_src s + src_stride png * (width * r + k)) = 255).
Proof.
  induction n as [|n IH]; intros y s Hw Hacc; cbn [copy_rows].
  - cbv zeta. split; [lia|]. split; [exact Hacc|].
    split; [intros E; split; [exact E | intros; lia] | tauto].
  - cbv zeta.
    destruct (copy_row_spec pass y (Z.to_nat width) 0 s Hacc) as (Rs & Rr & Ri).
    cbv zeta in Rs, Rr, Ri. rewrite Z2Nat.id in Rs, Ri by lia.
    set (s1 := copy_row brightness png pass y (Z.to_nat width) 0 s) in *.
    destruct (IH (y + 1) s1 Hw Rr) as (Es & Er & Ei). cbv zeta in Es, Er, Ei.
    split; [rewrite Es, Rs, Nat2Z.inj_succ; lia|]. split; [exact Er|].
    rewrite Ei, Ri, Rs. split.
    + intros ((E1 & E2) & E3). split; [exact E1|].
      intros r k Hr Hk. destruct (Z.eq_dec r 0) as [-> | Hne].
      * rewrite Z.mul_0_r, Z.add_0_l. apply E2. exact Hk.
      * replace (cs_src s + src_stride png * (width * r + k))
          with (cs_src s + src_stride png * width + src_stride png * (width * (r - 1) + k)) by lia.
        apply E3; lia.
    + intros (E1 & E3). split; [split; [exact E1|] |].
      * intros k Hk.
        replace (cs_src s + src_stride png * k) with (cs_src s + src_stride png * (width * 0 + k))
          by (f_equal; f_equal; lia).
        apply E3; lia.
      * intros r k Hr Hk.
        replace (cs_src s + src_stride png * width + src_stride png * (width * r + k))
          with (cs_src s + src_stride png * (width * (r + 1) + k)) by lia.
        apply E3; lia.
Qed.

Hypothesis Hwidth : 0 <= png_width png.
Hypothesis Hheight : 0 <= png_height png.

Lemma pass_width_nonneg pass : 0 <= pass_width png pass.
Proof.
  unfold pass_width. destruct (png_interlace_method png =? 0); [exact Hwidth|].
  apply Z.shiftr_nonneg. apply u32_range.
Qed.

Lemma pass_height_nonneg pass : 0 <= pass_height png pass.
Proof.
  unfold pass_height. destruct (png_interlace_method png =? 0); [exact Hheight|].
  apply Z.shiftr_nonneg. apply u32_range.
Qed.

Lemma copy_pass_spec pass s :
  0 <= cs_accumalpha s <= 255 ->
  let s' := copy_pass brightness png pass s in
  0 <= cs_accumalpha s' <= 255 /\
  (cs_accumalpha s' = 255 <-> cs_accumalpha s = 255 /\ pass_bright brightness png pass).
Proof.
  intros Hacc. unfold copy_pass. cbv zeta.
  pose proof (pass_width_nonneg (Z.of_nat pass)) as Hw.
  pose proof (pass_height_nonneg (Z.of_nat pass)) as Hh.
  destruct (copy_rows_spec (Z.of_nat pass) (pass_width png (Z.of_nat pass))
              (Z.to_nat (pass_height png (Z.of_nat pass))) 0
              (mk_copy (pass_offset png pass) (cs_accumalpha s) (cs_bitmap s))
              Hw Hacc) as (_ & Er & Ei).
  cbv zeta in Er, Ei. cbn [cs_src cs_accumalpha] in Ei.
  rewrite Z2Nat.id in Ei by lia.
  split; [exact Er|]. rewrite Ei. unfold pass_bright. tauto.
Qed.

Lemma copy_passes_spec n : forall pass s,
  0 <= cs_accumalpha s <= 255 ->
  let s' := copy_passes brightness png n pass s in
  0 <= cs_accumalpha s' <= 255 /\
  (cs_accumalpha s' = 255 <->
   cs_accumalpha s = 255 /\
   forall p, (pass <= p < pass + n)%nat -> pass_bright brightness png p).
Proof.
  induction n as [|n IH]; intros pass s Hacc; cbn [copy_passes].
  - cbv zeta. split; [exact Hacc|].
    split; [intros E; split; [exact E | intros; lia] | tauto].
  - cbv zeta. destruct (copy_pass_spec pass s Hacc) as (Pr & Pi).
    cbv zeta in Pr, Pi.
    destruct (IH (S pass) (copy_pass brightness png pass s) Pr) as (Er & Ei).
    cbv zeta in Er, Ei. split; [exact Er|].
    rewrite Ei, Pi. split.
    + intros ((E1 & E2) & E3). split; [exact E1|].
      intros p Hp. destruct (Nat.eq_dec p pass) as [-> | Hne];
        [exact E2 | apply E3; lia].
    + intros (E1 & E3). split; [split; [exact E1 | apply E3; lia] |].
      intros p Hp. apply E3. lia.
Qed.

(** The verdict of [copy_png_alpha_to_bitmap]: "no alpha" exactly when
    every derived alpha of every pass is 0xFF. *)
Lemma copy_png_alpha_verdict bitmap :
  fst (copy_png_alpha_to_bitmap brightness bitmap png) = false <->
  forall p, (p < Z.to_nat (pass_count png))%nat -> pass_bright brightness png p.
Proof.
  unfold copy_png_alpha_to_bitmap. cbv zeta. cbn [fst].
  destruct (copy_passes_spec (Z.to_nat (pass_count png)) 0
              (mk_copy 0 0xff bitmap)) as (Er & Ei).
  { cbn [cs_accumalpha]. lia. }
  cbv zeta in Er, Ei. cbn [cs_accumalpha] in Ei.
  rewrite negb_false_iff, Z.eqb_eq. change 0xff with 255. rewrite Ei.
  split.
  - intros (_ & E) p Hp. apply E. lia.
  - intros E. split; [reflexivity|]. intros p Hp. apply E. lia.
Qed.
End OverlayAlphaFacts.

Lemma derived_alpha_rgba brightness png src :
  png_color_type png = 6 ->
  derived_alpha brightness png src
  = u8 (brightness (byte_at (png_image png) src)
                   (byte_at (png_image png) (src + 1))
                   (byte_at (png_image png) (src + 2))).
Proof. intros E. unfold derived_alpha. rewrite E. reflexivity. Qed.

Lemma src_stride_rgba png : png_color_type png = 6 -> src_stride png = 4.
Proof. intros E. unfold src_stride. rewrite E. reflexivity. Qed.

(** C6 (as amended). For a chunked-format image of colour type RGB+alpha
    (at most 8 bits per channel) loaded in alpha-overlay mode onto a
    bitmap of matching dimensions, the returned hasAlpha is false exactly
    when the alpha derived for every pixel of every pass is 0xFF -- and
    the derived alpha is the brightness of the pixel's red, green and blue
    bytes; the pixel's own alpha byte (at [src + 3]) is never read. *)
Theorem overlay_alpha_verdict (brightness : Z -> Z -> Z -> Z)
    (reader : png_reader) (bitmap : bitmap_argb32) (file : random_read)
    (png0 png : png_info) :
  png_read_file reader file = Some png0 ->
  png_expand_buffer_8bit reader png0 = Some png ->
  png_color_type png = 6 -> png_bit_depth png <= 8 ->
  png_width png = bm_width bitmap -> png_height png = bm_height bitmap ->
  0 <= png_width png -> 0 <= png_height png ->
  (fst (fst (render_load_png brightness reader bitmap file true)) = false <->
   forall (p : nat) (y x : Z),
     (p < Z.to_nat (pass_count png))%nat ->
     0 <= y < pass_height png (Z.of_nat p) ->
     0 <= x < pass_width png (Z.of_nat p) ->
     let src := pass_offset png p + 4 * (pass_width png (Z.of_nat p) * y + x) in
     u8 (brightness (byte_at (png_image png) src)
                    (byte_at (png_image png) (src + 1))
                    (byte_at (png_image png) (src + 2))) = 0xff).
Proof.
  intros Hread Hexp Hct Hbd Hw Hh Hw0 Hh0.
  unfold render_load_png. cbn [negb]. rewrite Hread, Hexp, Hw, Hh, !Z.eqb_refl.
  cbn [andb].
  replace (png_bit_depth png >? 8) with false
    by (symmetry; destruct (Z.gtb_spec (png_bit_depth png) 8); [lia | reflexivity]).
  destruct (copy_png_alpha_to_bitmap brightness bitmap png) as [hasalpha bitmap'] eqn:E.
  cbn [fst].
  assert (Hv := copy_png_alpha_verdict brightness png
                  ltac:(intros src; rewrite derived_alpha_rgba by assumption;
                        pose proof (u8_range (brightness
                          (byte_at (png_image png) src)
                          (byte_at (png_image png) (src + 1))
                          (byte_at (png_image png) (src + 2))));
                        change (2 ^ 8) with 256 in *; lia)
                  ltac:(lia) ltac:(lia) bitmap).
  rewrite E in Hv. cbn [fst] in Hv. rewrite Hv.
  unfold pass_bright. rewrite (src_stride_rgba png Hct).
  split.
  - intros Hall p y x Hp Hy Hx. cbv zeta.
    rewrite <- derived_alpha_rgba by assumption. apply Hall; assumption.
  - intros Hall p Hp y x Hy Hx.
    rewrite derived_alpha_rgba by assumption. apply (Hall p y x); assumption.
Qed.

Lemma overlay_alpha_verdict_witness :
  (png_read_file (reader_of (png_1x1 255 255 255 0)) empty_file
   = Some (png_1x1 255 255 255 0) /\
   png_expand_buffer_8bit (reader_of (png_1x1 255 255 255 0)) (png_1x1 255 255 255 0)
   = Some (png_1x1 255 255 255 0) /\
   png_color_type (png_1x1 255 255 255 0) = 6 /\
   png_bit_depth (png_1x1 255 255 255 0) <= 8 /\
   png_width (png_1x1 255 255 255 0) = bm_width bitmap_1x1 /\
   png_height (png_1x1 255 255 255 0) = bm_height bitmap_1x1 /\
   0 <= png_width (png_1x1 255 255 255 0) /\
   0 <= png_height (png_1x1 255 255 255 0)) /\
  (fst (fst (render_load_png luma (reader_of (png_1x1 255 255 255 0))
                             bitmap_1x1 empty_file true)) = false <->
   forall (p : nat) (y x : Z),
     (p < Z.to_nat (pass_count (png_1x1 255 255 255 0)))%nat ->
     0 <= y < pass_height (png_1x1 255 255 255 0) (Z.of_nat p) ->
     0 <= x < pass_width (png_1x1 255 255 255 0) (Z.of_nat p) ->
     let src := pass_offset (png_1x1 255 255 255 0) p
                + 4 * (pass_width (png_1x1 255 255 255 0) (Z.of_nat p) * y + x) in
     u8 (luma (byte_at (png_image (png_1x1 255 255 255 0)) src)
              (byte_at (png_image (png_1x1 255 255 255 0)) (src + 1))
              (byte_at (png_image (png_1x1 255 255 255 0)) (src + 2))) = 0xff).
Proof.
  split.
  - repeat split; cbn; lia.
  - exact (overlay_alpha_verdict luma (reader_of (png_1x1 255 255 255 0))
             bitmap_1x1 empty_file (png_1x1 255 255 255 0) (png_1x1 255 255 255 0)
             eq_refl eq_refl eq_refl ltac:(cbn; lia) eq_refl eq_refl
             ltac:(cbn; lia) ltac:(cbn; lia)).
Defined.

(** C6 as stated fails both ways.  A single opaque black pixel (alpha byte
    0xFF) is reported as having alpha; a single fully transparent white
    pixel (alpha byte 0) is reported as having none; and whatever the
    brightness function, changing only the alpha byte cannot change the
    verdict. *)
Lemma overlay_alpha_verdict_counterexample :
  fst (fst (render_load_png luma (reader_of (png_1x1 0 0 0 255))
                            bitmap_1x1 empty_file true)) = true /\
  fst (fst (render_load_png luma (reader_of (png_1x1 255 255 255 0))
                            bitmap_1x1 empty_file true)) = false /\
  (forall brightness,
     fst (fst (render_load_png brightness (reader_of (png_1x1 0 0 0 255))
                               bitmap_1x1 empty_file true))
     = fst (fst (render_load_png brightness (reader_of (png_1x1 0 0 0 0))
                                 bitmap_1x1 empty_file true))).
Proof. repeat split. Qed.

(** ** The source manager *)

Lemma do_fill_bytes st st' :
  do_fill st = (Returned tt, st') -> 1 <= bytes_in_buffer (js_src st').
Proof.
  unfold do_fill.
  destruct (file_read (infile (js_src st)) INPUT_BUF_SIZE) as [got infile'].
  destruct (Z.of_nat (List.length got) <=? 0) eqn:E.
  - destruct (start_of_file (js_src st)); [discriminate|].
    intros H; injection H as <-. cbn. lia.
  - apply Z.leb_gt in E. intros H; injection H as <-. cbn. lia.
Qed.

(** The loop of [do_skip] never runs out of the fuel it is given. *)
Lemma do_skip_loop_total fuel : forall num_bytes st,
  0 <= bytes_in_buffer (js_src st) ->
  (Z.to_nat num_bytes
   + (if (bytes_in_buffer (js_src st) <=? 0)%Z then 2 else 1) <= fuel)%nat ->
  exists r, do_skip_loop fuel num_bytes st = Some r.
Proof.
  induction fuel as [|fuel IH]; intros n st Hbib Hfuel.
  - destruct (bytes_in_buffer (js_src st) <=? 0); lia.
  - cbn [do_skip_loop].
    destruct (bytes_in_buffer (js_src st) <? n) eqn:E; [|eexists; reflexivity].
    apply Z.ltb_lt in E.
    destruct (do_fill st) as [[[] | code] st'] eqn:Ef; [|eexists; reflexivity].
    apply do_fill_bytes in Ef. apply IH; [lia|].
    replace (bytes_in_buffer (js_src st') <=? 0) with false
      by (symmetry; apply Z.leb_gt; lia).
    destruct (Z.leb_spec (bytes_in_buffer (js_src st)) 0); lia.
Qed.

(** ** The compressed-format loader: containment of the error channel *)

Section LoaderFacts.
Context {D : Type}.
Variable lib : libjpeg D.
Variable env : jpeg_env.

Lemma call_frame {A} (s : jscript A) ls r ls' :
  call s ls = (r, ls') ->
  ls_buffer ls' = ls_buffer ls /\ ls_heap ls' = ls_heap ls /\
  ls_bitmap ls' = ls_bitmap ls /\ ls_decoder_live ls' = ls_decoder_live ls.
Proof.
  unfold call. destruct (run_script s (ls_js ls)) as [r0 st].
  intros H; injection H as <- <-. cbn. auto.
Qed.

Lemma call_heap_ok {A} (s : jscript A) ls r ls' :
  call s ls = (r, ls') -> heap_ok ls -> heap_ok ls'.
Proof.
  intros Hc Hok. apply call_frame in Hc. destruct Hc as (Hb & Hh & _).
  unfold heap_ok in *. rewrite Hb, Hh. exact Hok.
Qed.

Lemma read_lines_heap_ok w s n : forall j d ls r ls',
  read_lines lib w s n j d ls = (r, ls') -> heap_ok ls -> heap_ok ls'.
Proof.
  induction n as [|n IH]; intros j d ls r ls' Hr Hok; cbn [read_lines] in Hr.
  - injection Hr as <- <-. exact Hok.
  - destruct (call (jpeg_read_scanlines lib d) ls) as [[[d1 row] | code] ls1] eqn:Ec.
    + apply call_heap_ok in Ec; [|exact Hok].
      destruct ((s =? 1) || (s =? 3)).
      * eapply IH; [exact Hr|]. exact Ec.
      * injection Hr as <- <-. exact Ec.
    + injection Hr as <- <-. eapply call_heap_ok; eassumption.
Qed.

(** Whatever way the body is left, the block count matches the pointers
    as they were left; a jump that follows the assignment of [buffer]
    hands on the pointer as the environment has it. *)
Lemma decode_body_heap file ls r ls' :
  decode_body lib env file ls = (r, ls') ->
  ls_buffer ls = None -> ls_heap ls = 0 ->
  exists ls0, heap_ok ls0 /\
    (ls' = ls0 \/
     (exists code, r = Jumped code) /\ ls' = longjmp_after_assignment env ls0).
Proof.
  intros Hb Hbuf Hheap. unfold decode_body in Hb.
  assert (Hok0 : heap_ok ls) by (unfold heap_ok; rewrite Hbuf; exact Hheap).
  destruct (jpeg_create_decompress lib) as [d | code].
  2:{ injection Hb as <- <-. exists ls. auto. }
  match type of Hb with
  | context [call (jpeg_read_header lib d) ?l] =>
      assert (Hok1 : heap_ok l) by exact Hok0;
      assert (Hbuf1 : ls_buffer l = None) by exact Hbuf;
      assert (Hheap1 : ls_heap l = 0) by exact Hheap;
      destruct (call (jpeg_read_header lib d) l) as [[d1 | code] ls1] eqn:E1
  end.
  2:{ injection Hb as <- <-. exists ls1. split; [|left; reflexivity].
      eapply call_heap_ok; eassumption. }
  pose proof (call_frame _ _ _ _ E1) as (Fb1 & Fh1 & _).
  destruct (call (jpeg_start_decompress lib d1) ls1) as [[d2 | code] ls2] eqn:E2.
  2:{ injection Hb as <- <-. exists ls2. split; [|left; reflexivity].
      eapply call_heap_ok; [exact E2|].
      eapply call_heap_ok; eassumption. }
  pose proof (call_frame _ _ _ _ E2) as (Fb2 & Fh2 & _).
  assert (Hbuf2 : ls_buffer ls2 = None) by congruence.
  assert (Hheap2 : ls_heap ls2 = 0) by congruence.
  cbv zeta in Hb.
  assert (Hfin : forall d0 l0,
            heap_ok l0 ->
            match call (jpeg_finish_decompress lib d0) l0 with
            | (Jumped code, l) => (Jumped code, longjmp_after_assignment env l)
            | (Returned _, l) => (Returned tt, l)
            end = (r, ls') ->
            exists ls0, heap_ok ls0 /\
              (ls' = ls0 \/
               (exists code, r = Jumped code) /\
               ls' = longjmp_after_assignment env ls0)).
  { intros d0 l0 Hok3 H.
    destruct (call (jpeg_finish_decompress lib d0) l0) as [[d4 | code] ls4] eqn:E4;
      injection H as <- <-; exists ls4;
      (split; [eapply call_heap_ok; eassumption|]).
    - left. reflexivity.
    - right. split; [eexists|]; reflexivity. }
  destruct (malloc_buffer_ok env); [destruct (malloc_row_ok env)|].
  - cbn [ls_buffer ls_bitmap] in Hb.
    match type of Hb with
    | context [if bm_valid ?b then _ else _] => destruct (bm_valid b)
    end.
    + match type of Hb with
      | context [read_lines lib ?w ?s ?n ?j ?d ?l] =>
          destruct (read_lines lib w s n j d l) as [[d3 | code] ls3] eqn:E3;
          assert (Hok3 : heap_ok ls3)
            by (eapply read_lines_heap_ok; [exact E3|];
                unfold heap_ok; cbn; rewrite Hheap2; reflexivity)
      end.
      * eapply Hfin; eassumption.
      * injection Hb as <- <-. exists ls3. split; [exact Hok3|].
        right. split; [eexists|]; reflexivity.
    + eapply Hfin; [|exact Hb].
      unfold heap_ok; cbn; rewrite Hheap2; reflexivity.
  - cbn [ls_buffer ls_bitmap] in Hb.
    eapply Hfin; [|exact Hb].
    unfold heap_ok; cbn; rewrite Hheap2; reflexivity.
  - cbn [ls_buffer ls_bitmap set_bitmap] in Hb. rewrite Hbuf2 in Hb.
    eapply Hfin; [|exact Hb].
    unfold heap_ok; cbn; rewrite Hbuf2, Hheap2; reflexivity.
Qed.

Lemma cleanup_releases ls :
  heap_ok ls -> ls_heap (cleanup ls) = 0 /\ ls_decoder_live (cleanup ls) = false.
Proof.
  unfold heap_ok, cleanup. intros H. cbn [ls_heap ls_decoder_live].
  split; [|reflexivity].
  destruct (ls_buffer ls) as [[u|]|]; lia.
Qed.

Lemma on_longjmp_heap_ok code ls : heap_ok ls -> heap_ok (on_longjmp lib code ls).
Proof. intros H. exact H. Qed.

End LoaderFacts.

(** C9. The claim fails on a stream whose scan makes the decoder leave
    through its error exit once both scratch blocks are allocated, when
    the local [buffer] is found after the jump as it was at [setjmp].
    With [corrupt_scan_decoder] on a four-byte stream: the body is left
    by a jump out of [jpeg_read_scanlines] with two blocks live; the
    adapter logs the diagnostic, hands back the empty bitmap and destroys
    the decoder state, as the claim says; but [buffer] reads as null, so
    neither [free] runs and the two blocks stay allocated.  Where the
    local is found as it was left, the same decode releases both. *)
Theorem jpeg_scan_error_leaks_scratch (bitmap : bitmap_argb32) :
  let body := decode_body corrupt_scan_decoder env_restoring jpeg_like_file
                (at_setjmp env_restoring bitmap jpeg_like_file) in
  let result := render_load_jpeg corrupt_scan_decoder env_restoring bitmap
                  jpeg_like_file in
  (fst body = Jumped (JMSG_LIBRARY 9) /\ ls_heap (snd body) = 2) /\
  (ls_bitmap result = bm_empty /\
   js_log (ls_js result)
   = [osd_error ("JPEG error reading data from file: "
                 ++ format_message corrupt_scan_decoder (JMSG_LIBRARY 9))] /\
   ls_decoder_live result = false) /\
  ls_buffer result = None /\ ls_heap result = 2 /\
  ls_heap (render_load_jpeg corrupt_scan_decoder env_ok bitmap jpeg_like_file) = 0.
Proof.
  cbv zeta. repeat split; reflexivity.
Qed.

(** ** The compressed-format loader: an empty stream *)

Lemma do_fill_empty_first st :
  start_of_file (js_src st) = true ->
  fst (file_read (infile (js_src st)) INPUT_BUF_SIZE) = [] ->
  fst (do_fill st) = Jumped JERR_INPUT_EMPTY /\
  buffer (js_src (snd (do_fill st))) = buffer (js_src st) /\
  js_log (snd (do_fill st)) = js_log st.
Proof.
  intros Hs Hr. unfold do_fill.
  destruct (file_read (infile (js_src st)) INPUT_BUF_SIZE) as [got infile'].
  cbn [fst] in Hr. subst got. cbn. rewrite Hs. cbn. auto.
Qed.

(** A refill that returns has cleared the start-of-file flag, whether it
    delivered data or the end-of-image marker. *)
Lemma do_fill_clears_flag st st' :
  do_fill st = (Returned tt, st') -> start_of_file (js_src st') = false.
Proof.
  unfold do_fill.
  destruct (file_read (infile (js_src st)) INPUT_BUF_SIZE) as [got infile'].
  destruct (Z.of_nat (List.length got) <=? 0).
  - destruct (start_of_file (js_src st)); [discriminate|].
    intros H; injection H as <-. reflexivity.
  - intros H; injection H as <-. reflexivity.
Qed.

(** The refill of an exhausted stream, in a source whose flag is clear,
    as the decoder sees it: the window holds the marker. *)
Lemma do_fill_marker st :
  start_of_file (js_src st) = false ->
  fst (file_read (infile (js_src st)) INPUT_BUF_SIZE) = [] ->
  exists st',
    do_fill st = (Returned tt, st') /\
    available st' = [0xff; JPEG_EOI] /\
    bytes_in_buffer (js_src st') = 2 /\
    js_log st' = js_log st ++ [jpeg_warning JWRN_JPEG_EOF].
Proof.
  intros Hs Hr. unfold do_fill.
  destruct (file_read (infile (js_src st)) INPUT_BUF_SIZE) as [got infile'].
  cbn [fst] in Hr. subst got. cbn [List.length Z.of_nat Z.leb Z.compare].
  rewrite Hs. eexists. split; [reflexivity|]. repeat split.
Qed.

(** A call that initialises the source and then asks for input, on an
    exhausted stream: the refill leaves through the error exit. *)
Lemma call_init_fill_empty {A} (k : list Z -> jscript A) ls :
  fst (file_read (infile (js_src (ls_js ls))) INPUT_BUF_SIZE) = [] ->
  exists st',
    call (JInitSource (JFillInput k)) ls = (Jumped JERR_INPUT_EMPTY, set_js ls st') /\
    js_log st' = js_log (ls_js ls).
Proof.
  intros Hr. unfold call. cbn [run_script].
  destruct (do_fill_empty_first (do_init (ls_js ls)) eq_refl Hr) as (Hj & _ & Hl).
  destruct (do_fill (do_init (ls_js ls))) as [r st1]. cbn [fst snd] in Hj, Hl.
  subst r. exists st1. split; [reflexivity | exact Hl].
Qed.

(** C8. If the stream yields no byte on the very first refill -- the one
    that follows [do_init] -- the refill callback leaves through the
    fatal error exit with [JERR_INPUT_EMPTY], the buffer untouched and
    nothing logged; a decode whose header parser starts by initialising
    the source and asking for input therefore fails, the bitmap handed
    back being empty, the error logged, and nothing left allocated.  A
    refill that has returned has cleared the start-of-file flag; so when,
    after any refill that returned and whatever the decoder has consumed
    since, the stream turns out exhausted, the next refill returns
    normally, hands the decoder the two bytes 0xFF, [JPEG_EOI], and
    adds the end-of-file warning to the log. *)
Theorem jpeg_empty_input_is_fatal {D : Type} (lib : libjpeg D) (env : jpeg_env)
    (bitmap : bitmap_argb32) (file : random_read) (st : jstate) :
  (fst (file_read (infile (js_src st)) INPUT_BUF_SIZE) = [] ->
   fst (do_fill (do_init st)) = Jumped JERR_INPUT_EMPTY /\
   buffer (js_src (snd (do_fill (do_init st)))) = buffer (js_src st) /\
   js_log (snd (do_fill (do_init st))) = js_log st) /\
  (forall st1 n,
     do_fill st = (Returned tt, st1) ->
     fst (file_read (infile (js_src st1)) INPUT_BUF_SIZE) = [] ->
     start_of_file (js_src st1) = false /\
     exists st2,
       run_script (JConsume n (fun _ => JFillInput (fun bytes => JRet bytes))) st1
       = (Returned [0xff; JPEG_EOI], st2) /\
       bytes_in_buffer (js_src st2) = 2 /\
       js_log st2 = js_log st1 ++ [jpeg_warning JWRN_JPEG_EOF]) /\
  (forall d k,
     fst (file_read file INPUT_BUF_SIZE) = [] ->
     jpeg_create_decompress lib = inl d ->
     jpeg_read_header lib d = JInitSource (JFillInput k) ->
     let result := render_load_jpeg lib env bitmap file in
     ls_bitmap result = bm_empty /\
     js_log (ls_js result)
     = [osd_error ("JPEG error reading data from file: "
                   ++ format_message lib JERR_INPUT_EMPTY)] /\
     ls_decoder_live result = false /\ ls_heap result = 0).
Proof.
  split; [|split].
  - intros Hempty. apply (do_fill_empty_first (do_init st)); [reflexivity|].
    exact Hempty.
  - intros st1 n Hfill Hempty.
    pose proof (do_fill_clears_flag st st1 Hfill) as Hflag.
    split; [exact Hflag|].
    cbn [run_script].
    match goal with
    | |- context [do_fill ?s] =>
        destruct (do_fill_marker s) as (st2 & Ef & Ha & Hb & Hl);
        [exact Hflag | exact Hempty |]
    end.
    rewrite Ef. exists st2. split; [rewrite Ha; reflexivity|].
    split; [exact Hb | exact Hl].
  - intros d k Hfile Hcreate Hheader. cbv zeta.
    unfold render_load_jpeg, decode_body. rewrite Hcreate, Hheader.
    match goal with
    | |- context [call (JInitSource (JFillInput k)) ?l] =>
        destruct (call_init_fill_empty k l Hfile) as (st1 & Hc & Hl);
        rewrite Hc
    end.
    cbn. rewrite Hl. cbn. auto.
Qed.

Lemma jpeg_empty_input_is_fatal_witness :
  (fst (file_read empty_file INPUT_BUF_SIZE) = [] /\
   jpeg_create_decompress eager_decoder = inl tt /\
   jpeg_read_header eager_decoder tt
   = JInitSource (JFillInput (fun _ => JRet tt)) /\
   fst (do_fill (do_init (mk_jstate (source empty_file false) [])))
   = Jumped JERR_INPUT_EMPTY /\
   ls_bitmap (render_load_jpeg eager_decoder env_ok bitmap_1x1 empty_file)
   = bm_empty) /\
  (fst (do_fill (do_init (mk_jstate (source jpeg_like_file false) [])))
   = Returned tt /\
   available (snd (do_fill (do_init (mk_jstate (source jpeg_like_file false) []))))
   = [0xff; 0xd8; 0xff; 0xd9] /\
   exists st2,
     run_script (JConsume 4 (fun _ => JFillInput (fun bytes => JRet bytes)))
                (snd (do_fill (do_init (mk_jstate (source jpeg_like_file false) []))))
     = (Returned [0xff; JPEG_EOI], st2) /\
     bytes_in_buffer (js_src st2) = 2 /\
     js_log st2 = [jpeg_warning JWRN_JPEG_EOF]).
Proof.
  pose proof (jpeg_empty_input_is_fatal eager_decoder env_ok bitmap_1x1 empty_file
                (mk_jstate (source empty_file false) [])) as (H1 & _ & H3).
  pose proof (jpeg_empty_input_is_fatal eager_decoder env_ok bitmap_1x1 empty_file
                (do_init (mk_jstate (source jpeg_like_file false) [])))
    as (_ & H2 & _).
  split.
  - split; [reflexivity|]. split; [reflexivity|]. split; [reflexivity|].
    split.
    + exact (proj1 (H1 eq_refl)).
    + exact (proj1 (H3 tt (fun _ => JRet tt) eq_refl eq_refl eq_refl)).
  - split; [reflexivity|]. split; [reflexivity|].
    exact (proj2 (H2 _ 4 eq_refl eq_refl)).
Defined.

(** ** The format sniffer *)

Section SnifferFacts.
Context {D : Type}.
Variable lib : libjpeg D.
Variable env : jpeg_env.
Variable checks : header_checks.

Lemma file_rewind_twice file : file_rewind (file_rewind file) = file_rewind file.
Proof. reflexivity. Qed.

(** The verdict of the sniffer once the PNG check has failed and the
    decoder has been handed the rewound stream [f1], in terms of what
    the header parser and the DIB check do. *)
Lemma detect_after_png file f0 :
  png_verify_header checks file = (false, f0) ->
  render_detect_image lib env checks file =
  match jpeg_create_decompress lib with
  | inr _ =>
      let dib := msdib_verify_header checks (file_rewind f0) in
      (if fst dib then RENDUTIL_IMGFORMAT_MSDIB else RENDUTIL_IMGFORMAT_UNKNOWN,
       file_rewind (snd dib))
  | inl d =>
      match run_script (jpeg_read_header lib d)
                       (mk_jstate (source (file_rewind f0) (uninit_flag env)) []) with
      | (Returned _, st) =>
          (RENDUTIL_IMGFORMAT_JPEG, file_rewind (infile (js_src st)))
      | (Jumped _, st) =>
          let dib := msdib_verify_header checks (file_rewind (infile (js_src st))) in
          (if fst dib then RENDUTIL_IMGFORMAT_MSDIB else RENDUTIL_IMGFORMAT_UNKNOWN,
           file_rewind (snd dib))
      end
  end.
Proof.
  intros Hpng. unfold render_detect_image, probe_png, probe_jpeg, probe_msdib.
  rewrite Hpng.
  destruct (jpeg_create_decompress lib) as [d | code].
  - destruct (run_script (jpeg_read_header lib d) _) as [[d1 | code] st].
    + reflexivity.
    + cbv zeta.
      destruct (msdib_verify_header checks (file_rewind (infile (js_src st))))
        as [[|] f3]; reflexivity.
  - cbv zeta. rewrite file_rewind_twice.
    destruct (msdib_verify_header checks (file_rewind f0)) as [[|] f3];
      reflexivity.
Qed.
End SnifferFacts.

(** C7. Whatever the stream holds and whatever the header checks and the
    decoder do to it, [render_detect_image] leaves the stream at offset
    0.  A stream whose PNG header verifies is tagged PNG, the stream
    being the one the check left, rewound.  Failing that, the decoder is
    set up on the rewound stream: if its header parser returns, the tag
    is JPEG; if it leaves through its error exit, or the decoder cannot
    be set up, the DIB check is run on the stream rewound again, and the
    tag is DIB when it succeeds and Unknown when it fails; in each case
    the stream handed back is the one the last probe left, rewound. *)
Theorem detect_image_contract {D : Type} (lib : libjpeg D) (env : jpeg_env)
    (checks : header_checks) (file : random_read) :
  let result := render_detect_image lib env checks file in
  let png := png_verify_header checks file in
  let f1 := file_rewind (snd png) in
  let dib_decides (f : random_read) :=
    let dib := msdib_verify_header checks (file_rewind f) in
    (fst dib = true ->
     result = (RENDUTIL_IMGFORMAT_MSDIB, file_rewind (snd dib))) /\
    (fst dib = false ->
     result = (RENDUTIL_IMGFORMAT_UNKNOWN, file_rewind (snd dib))) in
  file_pos (snd result) = 0 /\
  (fst png = true -> result = (RENDUTIL_IMGFORMAT_PNG, f1)) /\
  (fst png = false ->
   (forall code, jpeg_create_decompress lib = inr code -> dib_decides f1) /\
   (forall d r st,
      jpeg_create_decompress lib = inl d ->
      run_script (jpeg_read_header lib d)
                 (mk_jstate (source f1 (uninit_flag env)) []) = (r, st) ->
      match r with
      | Returned _ =>
          result = (RENDUTIL_IMGFORMAT_JPEG, file_rewind (infile (js_src st)))
      | Jumped _ => dib_decides (infile (js_src st))
      end)).
Proof.
  cbv zeta.
  destruct (png_verify_header checks file) as [[|] f0] eqn:Hpng; cbn [fst snd].
  - assert (Hres : render_detect_image lib env checks file
                   = (RENDUTIL_IMGFORMAT_PNG, file_rewind f0)).
    { unfold render_detect_image, probe_png. rewrite Hpng. reflexivity. }
    rewrite Hres. split; [reflexivity|]. split; [reflexivity|]. discriminate.
  - rewrite (detect_after_png lib env checks file f0 Hpng).
    split; [|split; [discriminate|]].
    + destruct (jpeg_create_decompress lib) as [d | code]; [|reflexivity].
      destruct (run_script (jpeg_read_header lib d) _) as [[d1 | code] st];
        reflexivity.
    + intros _. split.
      * intros code Hc. rewrite Hc. cbv zeta. rewrite file_rewind_twice.
        destruct (msdib_verify_header checks (file_rewind f0)) as [[|] f3];
          cbn [fst snd]; split; intros H; first [reflexivity | discriminate].
      * intros d r st Hc Hrun. rewrite Hc, Hrun.
        destruct r as [d1 | code]; [reflexivity|]. cbv zeta.
        destruct (msdib_verify_header checks (file_rewind (infile (js_src st))))
          as [[|] f3]; cbn [fst snd]; split; intros H;
          first [reflexivity | discriminate].
Qed.

Lemma detect_image_contract_witness :
  (fst (png_verify_header sample_checks png_like_file) = true /\
   render_detect_image eager_decoder env_ok sample_checks png_like_file
   = (RENDUTIL_IMGFORMAT_PNG, png_like_file)) /\
  (fst (png_verify_header sample_checks jpeg_like_file) = false /\
   fst (run_script (jpeg_read_header eager_decoder tt)
                   (mk_jstate (source jpeg_like_file false) [])) = Returned tt /\
   render_detect_image eager_decoder env_ok sample_checks jpeg_like_file
   = (RENDUTIL_IMGFORMAT_JPEG, jpeg_like_file)) /\
  (fst (png_verify_header sample_checks dib_like_file) = false /\
   fst (run_script (jpeg_read_header failing_decoder tt)
                   (mk_jstate (source dib_like_file false) []))
   = Jumped (JMSG_LIBRARY 55) /\
   fst (msdib_verify_header sample_checks dib_like_file) = true /\
   render_detect_image failing_decoder env_ok sample_checks dib_like_file
   = (RENDUTIL_IMGFORMAT_MSDIB, dib_like_file)) /\
  (fst (png_verify_header sample_checks unknown_file) = false /\
   fst (msdib_verify_header sample_checks unknown_file) = false /\
   render_detect_image failing_decoder env_ok sample_checks unknown_file
   = (RENDUTIL_IMGFORMAT_UNKNOWN, unknown_file)) /\
  (jpeg_create_decompress no_memory_decoder = inr 56 /\
   render_detect_image no_memory_decoder env_ok sample_checks unknown_file
   = (RENDUTIL_IMGFORMAT_UNKNOWN, unknown_file)) /\
  file_pos (snd (render_detect_image eager_decoder env_ok sample_checks
                                     jpeg_like_file)) = 0.
Proof.
  pose proof (detect_image_contract eager_decoder env_ok sample_checks png_like_file)
    as (_ & P & _).
  pose proof (detect_image_contract eager_decoder env_ok sample_checks jpeg_like_file)
    as (J0 & _ & J).
  pose proof (detect_image_contract failing_decoder env_ok sample_checks dib_like_file)
    as (_ & _ & B).
  pose proof (detect_image_contract failing_decoder env_ok sample_checks unknown_file)
    as (_ & _ & U).
  pose proof (detect_image_contract no_memory_decoder env_ok sample_checks unknown_file)
    as (_ & _ & N).
  split; [split; [reflexivity | exact (P eq_refl)]|].
  split.
  { split; [reflexivity|]. split; [reflexivity|].
    exact (proj2 (J eq_refl) tt _ _ eq_refl eq_refl). }
  split.
  { split; [reflexivity|]. split; [reflexivity|]. split; [reflexivity|].
    exact (proj1 (proj2 (B eq_refl) tt _ _ eq_refl eq_refl) eq_refl). }
  split.
  { split; [reflexivity|]. split; [reflexivity|].
    exact (proj2 (proj2 (U eq_refl) tt _ _ eq_refl eq_refl) eq_refl). }
  split.
  { split; [reflexivity|].
    exact (proj2 (proj1 (N eq_refl) 56 eq_refl) eq_refl). }
  exact J0.
Defined.

(* ===================================================================== *)
(** * Further properties of the geometry routines *)
(* ===================================================================== *)

(** ** Line clipping: what a verdict guarantees *)

Lemma lor_zero_both a b : Z.lor a b = 0 -> a = 0 /\ b = 0.
Proof. intros E. apply Z.lor_eq_0_iff in E. exact E. Qed.

(** X1. Whenever [render_clip_line] reaches a verdict, the bounds it leaves
    behind justify it: both endpoints have outcode zero after "not
    rejected", and the two outcodes share a bit after "rejected". *)
Theorem clip_line_verdict_sound {F : Type} `{Arith F} (fuel : nat) :
  forall (bounds clip bounds' : render_bounds F) (rejected : bool),
  render_clip_line fuel bounds clip = Some (rejected, bounds') ->
  if rejected then
    Z.land (outcode (x0 bounds') (y0 bounds') clip)
           (outcode (x1 bounds') (y1 bounds') clip) <> 0
  else
    outcode (x0 bounds') (y0 bounds') clip = 0 /\
    outcode (x1 bounds') (y1 bounds') clip = 0.
Proof.
  induction fuel as [|fuel IH]; intros bounds clip bounds' rejected Hr.
  - discriminate.
  - cbn [render_clip_line] in Hr. cbv zeta in Hr.
    destruct (Z.lor (outcode (x0 bounds) (y0 bounds) clip)
                    (outcode (x1 bounds) (y1 bounds) clip) =? 0) eqn:Eor.
    { injection Hr as <- <-. apply Z.eqb_eq in Eor.
      apply lor_zero_both. exact Eor. }
    destruct (Z.land (outcode (x0 bounds) (y0 bounds) clip)
                     (outcode (x1 bounds) (y1 bounds) clip) =? 0) eqn:Eand;
      cbn [negb] in Hr.
    2:{ injection Hr as <- <-. apply Z.eqb_neq in Eand. exact Eand. }
    match type of Hr with
    | (let '(x, y) := ?p in _) = _ => destruct p as [x y]
    end.
    match type of Hr with
    | (if ?c then _ else _) = _ => destruct c
    end; apply IH in Hr; exact Hr.
Qed.

Lemma clip_line_verdict_sound_witness :
  render_clip_line 2 segment_crossing clip_0_10
  = Some (false, mk_bounds (F32.of_Z 0) (F32.of_Z 5) (F32.of_Z 5) (F32.of_Z 5)) /\
  outcode (F32.of_Z 0) (F32.of_Z 5) clip_0_10 = 0 /\
  outcode (F32.of_Z 5) (F32.of_Z 5) clip_0_10 = 0.
Proof.
  assert (Hr : render_clip_line 2 segment_crossing clip_0_10
               = Some (false, mk_bounds (F32.of_Z 0) (F32.of_Z 5)
                                        (F32.of_Z 5) (F32.of_Z 5)))
    by (vm_compute; reflexivity).
  split; [exact Hr|].
  exact (clip_line_verdict_sound 2 segment_crossing clip_0_10 _ false Hr).
Defined.

(** ** Single-precision comparisons *)

Lemma fleb_f32 (a b : spec_float) : fleb a b = F32.leb a b.
Proof.
  unfold fleb. cbn [fltb feqb Arith_f32].
  unfold F32.ltb, F32.eqb, F32.leb, SFltb, SFeqb, SFleb.
  destruct (SFcompare a b) as [[ | | ]|]; reflexivity.
Qed.

(** [a <= b] shows that neither side is a NaN. *)
Lemma leb_ordered a b :
  F32.leb a b = true -> F32.leb a a = true /\ F32.leb b b = true.
Proof.
  unfold F32.leb, SFleb.
  destruct a as [sa | sa | | sa ma ea], b as [sb | sb | | sb mb eb];
    cbn [SFcompare]; try discriminate; intros _;
    repeat match goal with s : bool |- _ => destruct s end;
    rewrite ?Z.compare_refl, ?Pos.compare_cont_refl; cbn; auto.
Qed.

(** Among ordered values, "not [a < b]" is [b <= a]. *)
Lemma not_ltb_leb a b :
  F32.leb a a = true -> F32.leb b b = true ->
  F32.ltb a b = false -> F32.leb b a = true.
Proof.
  unfold F32.leb, F32.ltb, SFleb, SFltb. rewrite (SFcompare_antisym a b).
  intros Ha Hb.
  destruct (SFcompare a b) as [[ | | ]|] eqn:E; cbn; try congruence.
  intros _. exfalso.
  destruct a as [sa | sa | | sa ma ea], b as [sb | sb | | sb mb eb];
    cbn [SFcompare] in *; try discriminate;
    repeat match goal with s : bool |- _ => destruct s end; discriminate.
Qed.

(** ** Quad clipping in single precision *)

Ltac float_order :=
  first [ assumption | apply not_ltb_leb; assumption ].

Ltac quad_steps H :=
  unfold clip_right, clip_left, clip_bottom, clip_top, fgtb in H;
  cbn [fltb Arith_f32 x0 y0 x1 y1] in H;
  repeat match type of H with
  | context [if F32.ltb ?a ?b then _ else _] =>
      let E := fresh "E" in
      destruct (F32.ltb a b) eqn:E; cbn [x0 y0 x1 y1] in H
  end.

Lemma clip_quad_accepted
    (bounds clip bounds' : render_bounds spec_float)
    (texcoords texcoords' : option (render_quad_texuv spec_float)) :
  F32.leb (x0 clip) (x1 clip) = true ->
  F32.leb (y0 clip) (y1 clip) = true ->
  render_clip_quad bounds clip texcoords = Some (false, bounds', texcoords') ->
  point_inside (x0 bounds') (y0 bounds') clip = true /\
  point_inside (x1 bounds') (y1 bounds') clip = true /\
  F32.leb (x0 bounds') (x1 bounds') = true /\
  F32.leb (y0 bounds') (y1 bounds') = true.
Proof.
  intros Hcx Hcy Hr. unfold render_clip_quad in Hr.
  rewrite !fleb_f32 in Hr. unfold fgtb in Hr. cbn [fltb Arith_f32] in Hr.
  destruct (F32.leb (x0 bounds) (x1 bounds)) eqn:Hbx; cbn [negb] in Hr;
    [|discriminate].
  destruct (F32.leb (y0 bounds) (y1 bounds)) eqn:Hby; cbn [negb] in Hr;
    [|discriminate].
  destruct (F32.ltb (y1 bounds) (y0 clip)) eqn:R1; [discriminate|].
  destruct (F32.ltb (y1 clip) (y0 bounds)) eqn:R2; [discriminate|].
  destruct (F32.ltb (x1 bounds) (x0 clip)) eqn:R3; [discriminate|].
  destruct (F32.ltb (x1 clip) (x0 bounds)) eqn:R4; [discriminate|].
  destruct (leb_ordered _ _ Hcx) as [Ncx0 Ncx1].
  destruct (leb_ordered _ _ Hcy) as [Ncy0 Ncy1].
  destruct (leb_ordered _ _ Hbx) as [Nbx0 Nbx1].
  destruct (leb_ordered _ _ Hby) as [Nby0 Nby1].
  quad_steps Hr;
    injection Hr as <- <-; cbn [x0 y0 x1 y1];
    unfold point_inside; rewrite !andb_true_iff;
    repeat split; float_order.
Qed.

Lemma clip_quad_rejected {F : Type} `{Arith F}
    (bounds clip bounds' : render_bounds F)
    (texcoords texcoords' : option (render_quad_texuv F)) :
  render_clip_quad bounds clip texcoords = Some (true, bounds', texcoords') ->
  bounds' = bounds /\ texcoords' = texcoords.
Proof.
  unfold render_clip_quad. intros Hr.
  repeat match type of Hr with
  | (if ?c then _ else _) = _ => destruct c
  end; try discriminate; try (injection Hr as <- <-; split; reflexivity).
  destruct (clip_right _ _); discriminate.
Qed.

(** X2. A quad that [render_clip_quad] does not reject ends up inside the
    clip rectangle, with its corners still in order, provided the clip
    rectangle itself is in order; a rejected quad is handed back as it
    came, texture coordinates included. *)
Theorem clip_quad_result_inside
    (bounds clip bounds' : render_bounds spec_float)
    (texcoords texcoords' : option (render_quad_texuv spec_float))
    (rejected : bool) :
  F32.leb (x0 clip) (x1 clip) = true ->
  F32.leb (y0 clip) (y1 clip) = true ->
  render_clip_quad bounds clip texcoords = Some (rejected, bounds', texcoords') ->
  if rejected then bounds' = bounds /\ texcoords' = texcoords
  else
    point_inside (x0 bounds') (y0 bounds') clip = true /\
    point_inside (x1 bounds') (y1 bounds') clip = true /\
    F32.leb (x0 bounds') (x1 bounds') = true /\
    F32.leb (y0 bounds') (y1 bounds') = true.
Proof.
  intros Hcx Hcy Hr. destruct rejected.
  - exact (clip_quad_rejected _ _ _ _ _ Hr).
  - exact (clip_quad_accepted _ _ _ _ _ Hcx Hcy Hr).
Qed.

Lemma clip_quad_result_inside_witness :
  render_clip_quad quad_overhanging clip_0_10 None
  = Some (false,
          mk_bounds (F32.of_Z 0) (F32.of_Z 0) (F32.of_Z 6) (F32.of_Z 8), None) /\
  point_inside (F32.of_Z 0) (F32.of_Z 0) clip_0_10 = true /\
  point_inside (F32.of_Z 6) (F32.of_Z 8) clip_0_10 = true /\
  F32.leb (F32.of_Z 0) (F32.of_Z 6) = true /\
  F32.leb (F32.of_Z 0) (F32.of_Z 8) = true.
Proof.
  assert (Hr : render_clip_quad quad_overhanging clip_0_10 None
               = Some (false,
                       mk_bounds (F32.of_Z 0) (F32.of_Z 0) (F32.of_Z 6) (F32.of_Z 8),
                       None))
    by (vm_compute; reflexivity).
  split; [exact Hr|].
  exact (clip_quad_result_inside quad_overhanging clip_0_10 _ None None false
           eq_refl eq_refl Hr).
Defined.

(** X3. Clipping is idempotent: a quad that came out of [render_clip_quad]
    unrejected passes a second call against the same rectangle unchanged,
    bounds and texture coordinates alike. *)
Theorem clip_quad_idempotent
    (bounds clip bounds' : render_bounds spec_float)
    (texcoords texcoords' : option (render_quad_texuv spec_float)) :
  F32.leb (x0 clip) (x1 clip) = true ->
  F32.leb (y0 clip) (y1 clip) = true ->
  render_clip_quad bounds clip texcoords = Some (false, bounds', texcoords') ->
  render_clip_quad bounds' clip texcoords' = Some (false, bounds', texcoords').
Proof.
  intros Hcx Hcy Hr.
  destruct (clip_quad_accepted _ _ _ _ _ Hcx Hcy Hr) as (H0 & H1 & Hox & Hoy).
  unfold point_inside in H0, H1. rewrite !andb_true_iff in H0, H1.
  destruct H0 as [[[A1 A2] A3] A4]. destruct H1 as [[[B1 B2] B3] B4].
  unfold render_clip_quad. rewrite !fleb_f32, Hox, Hoy. cbn [negb].
  unfold clip_right, clip_left, clip_bottom, clip_top, fgtb.
  cbn [fltb Arith_f32].
  rewrite (leb_not_gtb _ _ B3), (leb_not_gtb _ _ A4),
          (leb_not_gtb _ _ B1), (leb_not_gtb _ _ A2).
  rewrite (leb_not_gtb _ _ A3), (leb_not_gtb _ _ B4),
          (leb_not_gtb _ _ A1), (leb_not_gtb _ _ B2).
  reflexivity.
Qed.

Lemma clip_quad_idempotent_witness :
  render_clip_quad quad_overhanging clip_0_10 None
  = Some (false,
          mk_bounds (F32.of_Z 0) (F32.of_Z 0) (F32.of_Z 6) (F32.of_Z 8), None) /\
  render_clip_quad
    (mk_bounds (F32.of_Z 0) (F32.of_Z 0) (F32.of_Z 6) (F32.of_Z 8)) clip_0_10 None
  = Some (false,
          mk_bounds (F32.of_Z 0) (F32.of_Z 0) (F32.of_Z 6) (F32.of_Z 8), None).
Proof.
  assert (Hr : render_clip_quad quad_overhanging clip_0_10 None
               = Some (false,
                       mk_bounds (F32.of_Z 0) (F32.of_Z 0) (F32.of_Z 6) (F32.of_Z 8),
                       None))
    by (vm_compute; reflexivity).
  split; [exact Hr|].
  exact (clip_quad_idempotent quad_overhanging clip_0_10 _ None None
           eq_refl eq_refl Hr).
Defined.
(** ** Line clipping in single precision: a segment through a corner *)

Lemma render_clip_line_round {F} `{Arith F} fuel (bounds clip : render_bounds F) :
  render_clip_line (S fuel) bounds clip =
  match clip_round bounds clip with
  | inl verdict => Some verdict
  | inr bounds' => render_clip_line fuel bounds' clip
  end.
Proof.
  cbn [render_clip_line]. unfold clip_round. cbv zeta.
  destruct (Z.lor _ _ =? 0); [reflexivity|].
  destruct (negb (Z.land _ _ =? 0)); [reflexivity|].
  destruct (negb (Z.land _ 1 =? 0)); [destruct (_ =? _); reflexivity|].
  destruct (negb (Z.land _ 2 =? 0)); [destruct (_ =? _); reflexivity|].
  destruct (negb (Z.land _ 4 =? 0)); destruct (_ =? _); reflexivity.
Qed.

(** The two positions of the second endpoint between which the loop
    alternates: on the line y = 0.2, one unit in the last place short of
    x = 0.8; then on the line x = 0.8, three units in the last place past
    y = 0.2. *)
Lemma corner_round_first :
  clip_round segment_through_corner clip_with_corner
  = inr (mk_bounds (F32.of_Z 2) (F32.of_Z (-1))
                   (S754_finite false 13421772 (-24))
                   (S754_finite false 13421773 (-26))).
Proof. vm_compute. reflexivity. Qed.

Lemma corner_round_left :
  clip_round (mk_bounds (F32.of_Z 2) (F32.of_Z (-1))
                        (S754_finite false 13421772 (-24))
                        (S754_finite false 13421773 (-26)))
             clip_with_corner
  = inr (mk_bounds (F32.of_Z 2) (F32.of_Z (-1))
                   (S754_finite false 13421773 (-24))
                   (S754_finite false 13421776 (-26))).
Proof. vm_compute. reflexivity. Qed.

Lemma corner_round_above :
  clip_round (mk_bounds (F32.of_Z 2) (F32.of_Z (-1))
                        (S754_finite false 13421773 (-24))
                        (S754_finite false 13421776 (-26)))
             clip_with_corner
  = inr (mk_bounds (F32.of_Z 2) (F32.of_Z (-1))
                   (S754_finite false 13421772 (-24))
                   (S754_finite false 13421773 (-26))).
Proof. vm_compute. reflexivity. Qed.

Lemma corner_cycle fuel :
  render_clip_line fuel
    (mk_bounds (F32.of_Z 2) (F32.of_Z (-1))
               (S754_finite false 13421772 (-24))
               (S754_finite false 13421773 (-26)))
    clip_with_corner = None /\
  render_clip_line fuel
    (mk_bounds (F32.of_Z 2) (F32.of_Z (-1))
               (S754_finite false 13421773 (-24))
               (S754_finite false 13421776 (-26)))
    clip_with_corner = None.
Proof.
  induction fuel as [|fuel [IHl IHa]]; [split; reflexivity|].
  split.
  - rewrite render_clip_line_round, corner_round_left. exact IHa.
  - rewrite render_clip_line_round, corner_round_above. exact IHl.
Qed.

(** X6. In single precision the loop of [render_clip_line] need not come to
    an end.  For the segment from (2, -1) to (0.2, 0.8) and the clip
    rectangle from (0.8, -2.9) to (2.2, 0.2), whose corner (0.8, 0.2)
    the segment passes through, the first endpoint is inside and the
    second is moved in turn onto the line y = 0.2, where it comes out
    short of x = 0.8, and onto the line x = 0.8, where it comes out past
    y = 0.2: no number of rounds reaches a verdict. *)
Theorem clip_line_corner_cycle (fuel : nat) :
  render_clip_line fuel segment_through_corner clip_with_corner = None.
Proof.
  destruct fuel as [|fuel]; [reflexivity|].
  rewrite render_clip_line_round, corner_round_first.
  apply corner_cycle.
Qed.


(* ===================================================================== *)
(** * Further properties of the resamplers *)
(* ===================================================================== *)

(** ** Magnification by powers of two *)

Lemma div_pow2_gap m e g :
  Zpos (digits2_pos m) = 24 -> -60 <= e <= 60 -> 0 <= g <= 12 ->
  F32.div (S754_finite false m (e + g)) (S754_finite false m e)
  = S754_finite false 8388608 (g - 23).
Proof.
  intros Hm He Hg.
  unfold F32.div, SFdiv, SFdiv_core_binary. cbn [Zdigits2 xorb].
  rewrite Hm, fexp_normal by lia.
  replace (Z.min (24 + (e + g) - (24 + e) - 24) (e + g - e)) with (g - 24) by lia.
  replace (e + g - e - (g - 24)) with 24 by lia.
  cbv iota. rewrite div_eucl_eq.
  rewrite Z.shiftl_mul_pow2 by lia.
  rewrite Z.mul_comm, Z.div_mul, Z.mod_mul by lia.
  unfold new_location, new_location_even, new_location_odd.
  assert (Hc : g = 0 \/ g = 1 \/ g = 2 \/ g = 3 \/ g = 4 \/ g = 5 \/ g = 6 \/
               g = 7 \/ g = 8 \/ g = 9 \/ g = 10 \/ g = 11 \/ g = 12) by lia.
  destruct (Z.even (Zpos m));
    repeat (destruct Hc as [-> | Hc]; [reflexivity|]); subst g; reflexivity.
Qed.

Lemma ceil_pow2 g :
  0 <= g <= 12 ->
  F32.to_u32 (F32.ceil (S754_finite false 8388608 (g - 23))) = Some (2 ^ g).
Proof.
  intros Hg.
  assert (Hc : g = 0 \/ g = 1 \/ g = 2 \/ g = 3 \/ g = 4 \/ g = 5 \/ g = 6 \/
               g = 7 \/ g = 8 \/ g = 9 \/ g = 10 \/ g = 11 \/ g = 12) by lia.
  repeat (destruct Hc as [-> | Hc]; [reflexivity|]); subst g; reflexivity.
Qed.

(** Magnifying by a power of two: the recomputed step is the exact
    quotient. *)
Lemma ceil_step_pow2 s i :
  1 <= s < 2 ^ 20 -> 0 <= i <= 12 ->
  ceil_step s (s * 2 ^ i) = Some (2 ^ (12 - i)).
Proof.
  intros Hs Hi. unfold ceil_step.
  rewrite shiftl_12, u32_small
    by (change (2 ^ 32) with 4294967296; change (2 ^ 20) with 1048576 in Hs; lia).
  change 4096 with (2 ^ 12) at 1.
  assert (Hs24 : 0 < s < 2 ^ 24)
    by (change (2 ^ 24) with 16777216; change (2 ^ 20) with 1048576 in Hs; lia).
  destruct (of_Z_pow2_mul s 12 Hs24 ltac:(lia)) as (m & Em & Hm & Ex).
  destruct (of_Z_pow2_mul s i Hs24 ltac:(lia)) as (m' & Em' & _ & Ey).
  assert (m' = m) by (apply Pos2Z.inj; congruence). subst m'.
  rewrite Ex, Ey.
  pose proof (Zdigits2_bounds s ltac:(lia)) as Bs.
  assert (Hds : 1 <= Zdigits2 s <= 24).
  { destruct s as [|p|p]; try lia. cbn [Zdigits2] in *.
    split; [lia | apply digits2_pos_le; lia]. }
  replace (Zdigits2 s + 12 - 24) with (Zdigits2 s + i - 24 + (12 - i)) by lia.
  rewrite div_pow2_gap by (try assumption; lia).
  apply ceil_pow2. lia.
Qed.

Lemma pow2_quot i : 0 <= i <= 12 -> 4096 = 2 ^ (12 - i) * 2 ^ i.
Proof.
  intros Hi. rewrite <- Z.pow_add_r by lia.
  replace (12 - i + i) with 12 by lia. reflexivity.
Qed.

Lemma select_pow2 w h i j :
  1 <= w < 2 ^ 20 -> 1 <= h < 2 ^ 20 -> 0 <= i <= 12 -> 0 <= j <= 12 ->
  select_sampler w h (w * 2 ^ i) (h * 2 ^ j) false
  = Some (mk_selection SamplerInteger (2 ^ (12 - i)) (2 ^ (12 - j))).
Proof.
  intros Hw Hh Hi Hj. change (2 ^ 20) with 1048576 in *.
  assert (Pi : 0 < 2 ^ i) by (apply Z.pow_pos_nonneg; lia).
  assert (Pj : 0 < 2 ^ j) by (apply Z.pow_pos_nonneg; lia).
  assert (Qi : 0 < 2 ^ (12 - i) <= 4096).
  { split; [apply Z.pow_pos_nonneg; lia|].
    change 4096 with (2 ^ 12). apply Z.pow_le_mono_r; lia. }
  assert (Qj : 0 < 2 ^ (12 - j) <= 4096).
  { split; [apply Z.pow_pos_nonneg; lia|].
    change 4096 with (2 ^ 12). apply Z.pow_le_mono_r; lia. }
  unfold select_sampler.
  rewrite !shiftl_12, !u32_small by (change (2 ^ 32) with 4294967296; lia).
  assert (Dx : w * 4096 / (w * 2 ^ i) = 2 ^ (12 - i)).
  { rewrite (pow2_quot i Hi) at 1.
    rewrite Z.div_mul_cancel_l by lia. apply Z.div_mul. lia. }
  assert (Dy : h * 4096 / (h * 2 ^ j) = 2 ^ (12 - j)).
  { rewrite (pow2_quot j Hj) at 1.
    rewrite Z.div_mul_cancel_l by lia. apply Z.div_mul. lia. }
  rewrite Dx, Dy.
  replace (2 ^ (12 - i) >? 0x1000) with false
    by (symmetry; rewrite Z.gtb_ltb; apply Z.ltb_ge; lia).
  replace (2 ^ (12 - j) >? 0x1000) with false
    by (symmetry; rewrite Z.gtb_ltb; apply Z.ltb_ge; lia).
  cbn [orb].
  rewrite !ceil_step_pow2 by (change (2 ^ 20) with 1048576; lia).
  cbn [obind]. unfold umod.
  replace (w =? 0) with false by (symmetry; apply Z.eqb_neq; lia).
  replace (h =? 0) with false by (symmetry; apply Z.eqb_neq; lia).
  cbn [obind]. rewrite !(Z.mul_comm _ (2 ^ _)), !Z.mod_mul by lia. reflexivity.
Qed.

Lemma pow2_step_cell n i k :
  0 <= i <= 12 -> 1 <= n < 2 ^ 20 -> 0 <= k < n * 2 ^ i ->
  Z.shiftr (u32 (k * 2 ^ (12 - i))) 12 = k / 2 ^ i /\ 0 <= k / 2 ^ i < n.
Proof.
  intros Hi Hn Hk. change (2 ^ 20) with 1048576 in *.
  assert (Pi : 0 < 2 ^ i) by (apply Z.pow_pos_nonneg; lia).
  assert (Qi : 0 < 2 ^ (12 - i)) by (apply Z.pow_pos_nonneg; lia).
  pose proof (pow2_quot i Hi) as Hq.
  split.
  - rewrite u32_small by (change (2 ^ 32) with 4294967296; nia).
    rewrite shiftr_12. rewrite Hq at 1.
    rewrite (Z.mul_comm k), Z.div_mul_cancel_l by lia. reflexivity.
  - split; [apply Z.div_pos; lia | apply Z.div_lt_upper_bound; lia].
Qed.

(** X8. Magnifying by powers of two replicates pixels.  For a source below
    [2 ^ 20] in each dimension and a destination [2 ^ i] times as wide and
    [2 ^ j] times as high ([i, j <= 12]), resampling with the opaque white
    tint selects the integer sampler, with steps that survive the trip
    through single precision, and destination pixel [(x, y)] receives
    source pixel [(x / 2 ^ i, y / 2 ^ j)]. *)
Theorem hq_magnify_pow2 (dest source : bitmap_argb32) (i j : Z) :
  bm_wf dest -> bm_wf source ->
  1 <= bm_width source < 2 ^ 20 -> 1 <= bm_height source < 2 ^ 20 ->
  0 <= i <= 12 -> 0 <= j <= 12 ->
  bm_width dest = bm_width source * 2 ^ i ->
  bm_height dest = bm_height source * 2 ^ j ->
  exists dest',
    render_resample_argb_bitmap_hq dest source color_white false = Some dest' /\
    bm_width dest' = bm_width dest /\ bm_height dest' = bm_height dest /\
    bm_rowpixels dest' = bm_rowpixels dest /\
    forall y x, 0 <= y < bm_height dest -> 0 <= x < bm_width dest ->
      bm_pix dest' y x = bm_pix source (y / 2 ^ j) (x / 2 ^ i).
Proof.
  intros Hd Hs Hw Hh Hi Hj Ew Eh.
  assert (Pi : 0 < 2 ^ i) by (apply Z.pow_pos_nonneg; lia).
  assert (Pj : 0 < 2 ^ j) by (apply Z.pow_pos_nonneg; lia).
  rewrite hq_runs_selection by nia.
  rewrite Ew, Eh, select_pow2 by assumption.
  cbn [obind sel_sampler sel_dx sel_dy run_sampler].
  pose proof Hd as (Dw & Dh & Dsz & _). pose proof Hs as (Sw & Sh & Ssz & Spx).
  destruct (integer_white (bm_base dest) (bm_rowpixels dest)
              (bm_width source * 2 ^ i) (bm_height source * 2 ^ j)
              (bm_base source) (bm_rowpixels source)
              (bm_width source) (bm_height source)
              (2 ^ (12 - i)) (2 ^ (12 - j)))
    as (m' & E & Hm'); try lia; try assumption.
  rewrite E. cbn [obind]. eexists. split; [reflexivity|].
  cbn [bm_width bm_height bm_rowpixels]. repeat split; try congruence.
  intros y x Hy Hx. unfold bm_pix at 1. cbn [bm_base bm_rowpixels].
  rewrite Hm' by lia.
  destruct (pow2_step_cell (bm_width source) i x Hi Hw ltac:(lia)) as [Cx Rx].
  destruct (pow2_step_cell (bm_height source) j y Hj Hh ltac:(lia)) as [Cy Ry].
  rewrite Cx, Cy, index_small by assumption. reflexivity.
Qed.

Lemma double_dest_wf : bm_wf double_dest.
Proof. unfold bm_wf, double_dest. cbn. repeat split; lia. Qed.

Lemma hq_magnify_pow2_witness :
  exists dest',
    render_resample_argb_bitmap_hq double_dest small_source color_white false
    = Some dest' /\
    bm_width dest' = 4 /\ bm_height dest' = 2 /\ bm_rowpixels dest' = 4 /\
    forall y x, 0 <= y < 2 -> 0 <= x < 4 ->
      bm_pix dest' y x = bm_pix small_source (y / 2 ^ 1) (x / 2 ^ 1).
Proof.
  apply (hq_magnify_pow2 double_dest small_source 1 1);
    first [ exact double_dest_wf | exact small_source_wf
          | reflexivity | cbn; lia ].
Defined.

(** ** The weighted-average sampler on a source of one colour *)

Lemma y_cells_factor_range fuel : forall startx dx cury yremaining c,
  0 <= dx -> 0 <= yremaining ->
  In c (y_cells fuel startx dx cury yremaining) ->
  1 <= cell_factor c <= 16777216.
Proof.
  induction fuel as [|fuel IH]; intros startx dx cury yr c Hdx Hyr Hin.
  - contradiction.
  - rewrite y_cells_S in Hin.
    destruct (yr =? 0) eqn:E; [contradiction|].
    apply Z.eqb_neq in E.
    destruct (chunk_range cury yr ltac:(lia)) as (H1 & H2 & _).
    apply in_app_or in Hin. destruct Hin as [Hin | Hin].
    + apply in_map_iff in Hin. destruct Hin as (xc & <- & Hxc).
      apply x_cells_chunks in Hxc; [|lia].
      unfold cell_factor. cbn [snd].
      rewrite factor_no_wrap by assumption. nia.
    + eapply IH; [| |exact Hin]; lia.
Qed.

Lemma average_sums_from (source : pixmem) (srowpixels pix : Z)
    (cells : list (Z * Z * Z)) : forall T,
  (forall c, In c cells ->
     source (u32 (Z.shiftr (cell_cury c) 12 * srowpixels
                  + Z.shiftr (cell_curx c) 12)) = pix /\
     0 <= cell_factor c <= 16777216) ->
  0 <= T -> (T + zsum (map cell_factor cells)) * 255 < 2 ^ 64 ->
  fold_left (fun sums c =>
    let '(sumr, sumg, sumb, suma) := sums in
    let factor := cell_factor c in
    let pix := source (u32 (Z.shiftr (cell_cury c) 12 * srowpixels
                            + Z.shiftr (cell_curx c) 12)) in
    (u64 (sumr + u32 (factor * pix_r pix)),
     u64 (sumg + u32 (factor * pix_g pix)),
     u64 (sumb + u32 (factor * pix_b pix)),
     u64 (suma + u32 (factor * pix_a pix))))
  cells (T * pix_r pix, T * pix_g pix, T * pix_b pix, T * pix_a pix)
  = ((T + zsum (map cell_factor cells)) * pix_r pix,
     (T + zsum (map cell_factor cells)) * pix_g pix,
     (T + zsum (map cell_factor cells)) * pix_b pix,
     (T + zsum (map cell_factor cells)) * pix_a pix).
Proof.
  destruct (pix_channel_ranges pix) as (Ha & Hr & Hg & Hb).
  induction cells as [|c cells IH]; intros T Hc HT Hsum.
  - cbn [fold_left map]. unfold zsum. cbn [fold_right].
    rewrite Z.add_0_r. reflexivity.
  - rewrite map_cons, zsum_cons in *.
    destruct (Hc c (or_introl eq_refl)) as [Epix Hf].
    assert (Hrest : 0 <= zsum (map cell_factor cells)).
    { clear - Hc. induction cells as [|d cells IH]; [unfold zsum; cbn; lia|].
      rewrite map_cons, zsum_cons.
      destruct (Hc d (or_intror (or_introl eq_refl))) as [_ Hd].
      assert (0 <= zsum (map cell_factor cells)).
      { apply IH. intros c0 [<- | Hin]; apply Hc; [left | right; right];
          auto. }
      lia. }
    cbn [fold_left]. cbv zeta. rewrite Epix.
    change (2 ^ 64) with 18446744073709551616 in *.
    rewrite !u32_small by (change (2 ^ 32) with 4294967296; nia).
    rewrite !u64_small by (change (2 ^ 64) with 18446744073709551616; nia).
    replace (T * pix_r pix + cell_factor c * pix_r pix)
      with ((T + cell_factor c) * pix_r pix) by ring.
    replace (T * pix_g pix + cell_factor c * pix_g pix)
      with ((T + cell_factor c) * pix_g pix) by ring.
    replace (T * pix_b pix + cell_factor c * pix_b pix)
      with ((T + cell_factor c) * pix_b pix) by ring.
    replace (T * pix_a pix + cell_factor c * pix_a pix)
      with ((T + cell_factor c) * pix_a pix) by ring.
    rewrite IH.
    + rewrite !Z.add_assoc. reflexivity.
    + intros c0 Hin. apply Hc. right. exact Hin.
    + lia.
    + lia.
Qed.

Lemma average_sums_uniform (source : pixmem) (srowpixels pix : Z)
    (cells : list (Z * Z * Z)) :
  (forall c, In c cells ->
     source (u32 (Z.shiftr (cell_cury c) 12 * srowpixels
                  + Z.shiftr (cell_curx c) 12)) = pix /\
     0 <= cell_factor c <= 16777216) ->
  zsum (map cell_factor cells) * 255 < 2 ^ 64 ->
  average_sums source srowpixels cells
  = (zsum (map cell_factor cells) * pix_r pix,
     zsum (map cell_factor cells) * pix_g pix,
     zsum (map cell_factor cells) * pix_b pix,
     zsum (map cell_factor cells) * pix_a pix).
Proof.
  intros Hc Hsum.
  pose proof (average_sums_from source srowpixels pix cells 0 Hc
                ltac:(lia) ltac:(rewrite Z.add_0_l; exact Hsum)) as H.
  rewrite !Z.add_0_l in H. exact H.
Qed.

(** When the weighted-average sampler is selected, it is with the integer
    steps. *)
Lemma select_average swidth sheight dwidth dheight force sel :
  select_sampler swidth sheight dwidth dheight force = Some sel ->
  sel_sampler sel = SamplerAverage ->
  sel_dx sel = u32 (Z.shiftl swidth 12) / dwidth /\
  sel_dy sel = u32 (Z.shiftl sheight 12) / dheight.
Proof.
  unfold select_sampler. intros Hs Ha.
  destruct ((u32 (Z.shiftl swidth 12) / dwidth >? 0x1000)
            || (u32 (Z.shiftl sheight 12) / dheight >? 0x1000) || force).
  - injection Hs as <-. split; reflexivity.
  - exfalso.
    destruct (ceil_step swidth dwidth); [|discriminate].
    destruct (ceil_step sheight dheight); [|discriminate].
    destruct (umod dwidth swidth) as [mw|]; [|discriminate].
    cbn [obind] in Hs.
    destruct (mw =? 0).
    + destruct (umod dheight sheight) as [mh|]; [|discriminate].
      cbn [obind] in Hs.
      destruct (mh =? 0); injection Hs as <-; discriminate.
    + injection Hs as <-. discriminate.
Qed.

Lemma quotient_exact S c : 0 < S -> 0 <= c <= 255 -> S * 255 < 2 ^ 64 ->
  udiv (S * c) (u64 S) = Some c.
Proof.
  intros HS Hc Hb. unfold udiv.
  rewrite u64_small by (change (2 ^ 64) with 18446744073709551616 in *; lia).
  replace (S =? 0) with false by (symmetry; apply Z.eqb_neq; lia).
  f_equal. rewrite Z.mul_comm. apply Z.div_mul. lia.
Qed.

(** X9. A source of one colour is resampled to that colour.  Whenever the
    dispatcher selects the weighted-average sampler -- shrinking, or the
    force flag -- for a source below [2 ^ 20] in each dimension that is at
    most 4096 times smaller than the destination, the opaque white tint
    gives every destination pixel exactly the colour all source pixels
    share: the accumulators do not wrap, no read leaves the source, and
    the division by the footprint area is exact. *)
Theorem hq_average_uniform (dest source : bitmap_argb32) (force : bool)
    (sel : selection) (pix : Z) :
  bm_wf dest -> bm_wf source ->
  bm_width source < 2 ^ 20 -> bm_height source < 2 ^ 20 ->
  1 <= bm_width dest <= bm_width source * 4096 ->
  1 <= bm_height dest <= bm_height source * 4096 ->
  (forall y x, 0 <= y < bm_height source -> 0 <= x < bm_width source ->
     bm_pix source y x = pix) ->
  select_sampler (bm_width source) (bm_height source)
                 (bm_width dest) (bm_height dest) force = Some sel ->
  sel_sampler sel = SamplerAverage ->
  exists dest',
    render_resample_argb_bitmap_hq dest source color_white force = Some dest' /\
    bm_width dest' = bm_width dest /\ bm_height dest' = bm_height dest /\
    bm_rowpixels dest' = bm_rowpixels dest /\
    forall y x, 0 <= y < bm_height dest -> 0 <= x < bm_width dest ->
      bm_pix dest' y x = pix.
Proof.
  intros Hd Hs Hw20 Hh20 Hdw Hdh Huni Hsel Havg.
  pose proof Hd as (Dw & Dh & Dsz & _). pose proof Hs as (Sw & Sh & Ssz & Spx).
  change (2 ^ 20) with 1048576 in *. change (2 ^ 32) with 4294967296 in *.
  destruct (select_average _ _ _ _ _ _ Hsel Havg) as [Edx Edy].
  rewrite hq_runs_selection, Hsel by lia.
  cbn [obind]. rewrite Havg, Edx, Edy. cbn [run_sampler].
  assert (Ux : u32 (Z.shiftl (bm_width source) 12) = bm_width source * 4096).
  { rewrite shiftl_12. apply u32_small. change (2 ^ 32) with 4294967296. lia. }
  assert (Uy : u32 (Z.shiftl (bm_height source) 12) = bm_height source * 4096).
  { rewrite shiftl_12. apply u32_small. change (2 ^ 32) with 4294967296. lia. }
  assert (Hdx : 1 <= u32 (Z.shiftl (bm_width source) 12) / bm_width dest < 4294967296).
  { rewrite Ux. split.
    - apply Z.div_le_lower_bound; lia.
    - apply Z.div_lt_upper_bound; nia. }
  assert (Hdy : 1 <= u32 (Z.shiftl (bm_height source) 12) / bm_height dest < 4294967296).
  { rewrite Uy. split.
    - apply Z.div_le_lower_bound; lia.
    - apply Z.div_lt_upper_bound; nia. }
  assert (Fx : forall x, 0 <= x < bm_width dest ->
            0 <= x * (u32 (Z.shiftl (bm_width source) 12) / bm_width dest) /\
            x * (u32 (Z.shiftl (bm_width source) 12) / bm_width dest)
            + u32 (Z.shiftl (bm_width source) 12) / bm_width dest
            <= bm_width source * 4096).
  { intros x Hx.
    destruct (step_footprint (bm_width source) (bm_width dest) x
                ltac:(lia) ltac:(lia) Hx) as (_ & X2 & X3 & X4 & _).
    lia. }
  assert (Fy : forall y, 0 <= y < bm_height dest ->
            0 <= y * (u32 (Z.shiftl (bm_height source) 12) / bm_height dest) /\
            y * (u32 (Z.shiftl (bm_height source) 12) / bm_height dest)
            + u32 (Z.shiftl (bm_height source) 12) / bm_height dest
            <= bm_height source * 4096).
  { intros y Hy.
    destruct (step_footprint (bm_height source) (bm_height dest) y
                ltac:(lia) ltac:(lia) Hy) as (_ & Y2 & Y3 & Y4 & _).
    lia. }
  set (dx := u32 (Z.shiftl (bm_width source) 12) / bm_width dest) in *.
  set (dy := u32 (Z.shiftl (bm_height source) 12) / bm_height dest) in *.
  assert (Hpix : 0 <= pix < 4294967296).
  { rewrite <- (Huni 0 0) by lia. apply Spx. }
  assert (Hpos : 0 < dx * dy) by (apply Z.mul_pos_pos; lia).
  assert (Harea : dx * dy * 255 < 2 ^ 64).
  { change (2 ^ 64) with 18446744073709551616.
    destruct (Fx 0 ltac:(lia)) as [_ Bx]. destruct (Fy 0 ltac:(lia)) as [_ By].
    assert (A1 : dx * dy <= (bm_width source * 4096) * (bm_height source * 4096))
      by (apply Z.mul_le_mono_nonneg; lia).
    assert (A2 : bm_width source * bm_height source
                 <= bm_rowpixels source * bm_height source)
      by (apply Z.mul_le_mono_nonneg_r; lia).
    lia. }
  destruct (pix_channel_ranges pix) as (Ha & Hr & Hg & Hb).
  assert (Hloops : exists m',
    resample_argb_bitmap_average (bm_base dest) (bm_rowpixels dest)
      (bm_width dest) (bm_height dest) (bm_base source) (bm_rowpixels source)
      (bm_width source) (bm_height source) color_white dx dy = Some m' /\
    forall y x, 0 <= y < bm_height dest -> 0 <= x < bm_width dest ->
      m' (y * bm_rowpixels dest + x) = pix).
  { unfold resample_argb_bitmap_average. rewrite tint_white.
    cbn [obind]. cbv zeta.
    apply nested_store_loops; try lia.
    intros y x m Hy Hx.
    destruct (Fx x Hx) as [Fx0 Fx1]. destruct (Fy y Hy) as [Fy0 Fy1].
    assert (Hcells : forall c, In c (average_cells dx dy x y) ->
              bm_base source (u32 (Z.shiftr (cell_cury c) 12 * bm_rowpixels source
                                   + Z.shiftr (cell_curx c) 12)) = pix /\
              0 <= cell_factor c <= 16777216).
    { intros c Hin. split.
      - unfold average_cells in Hin.
        rewrite (u32_small (x * dx)), (u32_small (y * dy)) in Hin
          by (change (2 ^ 32) with 4294967296; lia).
        apply y_cells_footprint in Hin;
          try (change (2 ^ 32) with 4294967296; lia).
        destruct Hin as ((C1 & C2) & (C3 & C4)).
        rewrite !shiftr_12.
        assert (Ry : 0 <= cell_cury c / 4096 < bm_height source).
        { split; [apply Z.div_pos; lia | apply Z.div_lt_upper_bound; lia]. }
        assert (Rx : 0 <= cell_curx c / 4096 < bm_width source).
        { split; [apply Z.div_pos; lia | apply Z.div_lt_upper_bound; lia]. }
        rewrite index_small by assumption.
        apply Huni; assumption.
      - unfold average_cells in Hin.
        apply y_cells_factor_range in Hin; lia. }
    assert (Hsum : zsum (map cell_factor (average_cells dx dy x y)) = dx * dy).
    { unfold average_cells. apply y_cells_sum; lia. }
    rewrite (average_sums_uniform _ _ pix) by (rewrite ?Hsum; assumption).
    rewrite Hsum.
    rewrite !quotient_exact by assumption.
    cbn [obind].
    rewrite !scale_256_64 by assumption.
    rewrite blend_store_opaque, rgb_t_channels by assumption.
    rewrite u32_small; [reflexivity|].
    change (2 ^ 32) with 4294967296.
    assert (y * bm_rowpixels dest <= (bm_height dest - 1) * bm_rowpixels dest)
      by (apply Z.mul_le_mono_nonneg_r; lia).
    assert (0 <= y * bm_rowpixels dest) by (apply Z.mul_nonneg_nonneg; lia).
    lia. }
  destruct Hloops as (m' & E & Hm').
  rewrite E. cbn [obind]. eexists. split; [reflexivity|].
  cbn [bm_width bm_height bm_rowpixels]. repeat split.
  intros y x Hy Hx. unfold bm_pix at 1. cbn [bm_base bm_rowpixels].
  apply Hm'; lia.
Qed.

Lemma uniform_source_wf : bm_wf uniform_source.
Proof. unfold bm_wf, uniform_source. cbn. repeat split; lia. Qed.

Lemma hq_average_uniform_witness :
  exists dest',
    render_resample_argb_bitmap_hq small_dest uniform_source color_white false
    = Some dest' /\
    bm_width dest' = 2 /\ bm_height dest' = 1 /\ bm_rowpixels dest' = 2 /\
    forall y x, 0 <= y < 1 -> 0 <= x < 2 -> bm_pix dest' y x = 0xff336699.
Proof.
  apply (hq_average_uniform small_dest uniform_source false
           (mk_selection SamplerAverage 8192 8192) 0xff336699);
    first [ exact small_dest_wf | exact uniform_source_wf
          | reflexivity | cbn; lia | intros; reflexivity ].
Defined.

(** ** Writes stay inside the destination *)

(** A loop whose rounds leave the cells outside [dom] alone leaves them
    alone as a whole. *)
Lemma for_loop_outside (dom : Z -> Prop) (body : Z -> pixmem -> option pixmem)
    n : forall i0 m m',
  (forall i m m1, i0 <= i < i0 + Z.of_nat n -> body i m = Some m1 ->
     forall j, ~ dom j -> m1 j = m j) ->
  for_loop n i0 body m = Some m' ->
  forall j, ~ dom j -> m' j = m j.
Proof.
  induction n as [|n IH]; intros i0 m m' Hbody Hloop j Hj; cbn [for_loop] in Hloop.
  - injection Hloop as <-. reflexivity.
  - rewrite Nat2Z.inj_succ in Hbody.
    destruct (body i0 m) as [m1|] eqn:E1; [|discriminate].
    cbn [obind] in Hloop.
    rewrite (IH (i0 + 1) m1 m'); try assumption.
    + eapply Hbody; [|exact E1|exact Hj]. lia.
    + intros i m2 m3 Hi. apply Hbody. lia.
Qed.

Lemma blend_store_outside wrap dest idx a suma sumr sumg sumb j :
  j <> idx -> blend_store wrap dest idx a suma sumr sumg sumb j = dest j.
Proof.
  intros Hne. unfold blend_store.
  destruct (a <? 256); apply store_other; exact Hne.
Qed.

(** The two nested loops of a sampler whose rounds, when defined, end in
    a store at [y * drowpixels + x]. *)
Lemma nested_loops_outside (pb : Z -> Z -> pixmem -> option pixmem)
    (drowpixels dwidth dheight : Z) (m m' : pixmem) :
  (forall y x m0 m1, 0 <= y < dheight -> 0 <= x < dwidth ->
     pb y x m0 = Some m1 ->
     forall j, j <> y * drowpixels + x -> m1 j = m0 j) ->
  for_loop (Z.to_nat dheight) 0
    (fun y dest => for_loop (Z.to_nat dwidth) 0 (fun x dest => pb y x dest) dest) m
  = Some m' ->
  forall j, (forall y x, 0 <= y < dheight -> 0 <= x < dwidth ->
               j <> y * drowpixels + x) ->
    m' j = m j.
Proof.
  intros Hpb Hloop j Hj.
  assert (Hrows : forall y m0 m1,
            0 <= y < 0 + Z.of_nat (Z.to_nat dheight) ->
            for_loop (Z.to_nat dwidth) 0 (fun x dest => pb y x dest) m0 = Some m1 ->
            forall j0,
              ~ (exists y x, 0 <= y < dheight /\ 0 <= x < dwidth /\
                             j0 = y * drowpixels + x) ->
              m1 j0 = m0 j0).
  { intros y m0 m1 Hy Hrow j0 Hj0.
    assert (Hpix : forall x m2 m3,
              0 <= x < 0 + Z.of_nat (Z.to_nat dwidth) ->
              pb y x m2 = Some m3 ->
              forall j1, ~ (exists x, 0 <= x < dwidth /\ j1 = y * drowpixels + x) ->
                         m3 j1 = m2 j1).
    { intros x m2 m3 Hx Hp j1 Hj1.
      apply (Hpb y x m2 m3); try lia; try assumption.
      intros E. apply Hj1. exists x. split; [lia | exact E]. }
    apply (for_loop_outside _ _ _ _ _ _ Hpix Hrow).
    intros (x & Hx & E). apply Hj0. exists y, x. repeat split; try lia. }
  apply (for_loop_outside _ _ _ _ _ _ Hrows Hloop).
  intros (y & x & Hy & Hx & E). exact (Hj y x Hy Hx E).
Qed.

Lemma some_blend_outside wrap dest idx a suma sumr sumg sumb m1 j :
  Some (blend_store wrap dest idx a suma sumr sumg sumb) = Some m1 ->
  j <> idx -> m1 j = dest j.
Proof.
  intros E Hne. injection E as <-. apply blend_store_outside. exact Hne.
Qed.

Lemma sampler_writes_inside (s : sampler) (dest : pixmem)
    (drowpixels dwidth dheight : Z) (source : pixmem)
    (srowpixels swidth sheight : Z) (color : render_color) (dx dy : Z)
    (m' : pixmem) :
  0 <= dwidth <= drowpixels -> 0 <= dheight ->
  drowpixels * dheight < 2 ^ 32 ->
  run_sampler s dest drowpixels dwidth dheight source srowpixels swidth sheight
              color dx dy = Some m' ->
  forall j, (forall y x, 0 <= y < dheight -> 0 <= x < dwidth ->
               j <> y * drowpixels + x) ->
    m' j = dest j.
Proof.
  intros Hw Hh Hsz Hrun.
  assert (Hidx : forall y x, 0 <= y < dheight -> 0 <= x < dwidth ->
            u32 (y * drowpixels + x) = y * drowpixels + x).
  { intros y x Hy Hx. apply u32_small.
    assert (y * drowpixels <= (dheight - 1) * drowpixels)
      by (apply Z.mul_le_mono_nonneg_r; lia).
    assert (0 <= y * drowpixels) by (apply Z.mul_nonneg_nonneg; lia).
    lia. }
  destruct s; cbn [run_sampler] in Hrun.
  - unfold resample_argb_bitmap_average in Hrun. cbv zeta in Hrun.
    destruct (tint_factors color) as [[[[r g] b] a]|]; [|discriminate].
    cbn [obind] in Hrun.
    refine (nested_loops_outside _ _ _ _ _ _ _ Hrun).
    intros y x m0 m1 Hy Hx Hp j Hj. cbv beta in Hp.
    destruct (average_sums source srowpixels (average_cells dx dy x y))
      as [[[sumr sumg] sumb] suma].
    destruct (udiv suma (u64 (dx * dy))) as [qa|]; [|discriminate].
    destruct (udiv sumr (u64 (dx * dy))) as [qr|]; [|discriminate].
    destruct (udiv sumg (u64 (dx * dy))) as [qg|]; [|discriminate].
    destruct (udiv sumb (u64 (dx * dy))) as [qb|]; [|discriminate].
    cbn [obind] in Hp.
    refine (some_blend_outside _ _ _ _ _ _ _ _ _ j Hp _).
    rewrite Hidx by assumption. exact Hj.
  - unfold resample_argb_bitmap_integer in Hrun.
    destruct (tint_factors color) as [[[[r g] b] a]|]; [|discriminate].
    cbn [obind] in Hrun.
    refine (nested_loops_outside _ _ _ _ _ _ _ Hrun).
    intros y x m0 m1 Hy Hx Hp j Hj.
    refine (some_blend_outside _ _ _ _ _ _ _ _ _ j Hp _).
    rewrite Hidx by assumption. exact Hj.
  - unfold resample_argb_bitmap_bilinear in Hrun. cbv zeta in Hrun.
    destruct (tint_factors color) as [[[[r g] b] a]|]; [|discriminate].
    cbn [obind] in Hrun.
    refine (nested_loops_outside _ _ _ _ _ _ _ Hrun).
    intros y x m0 m1 Hy Hx Hp j Hj.
    refine (some_blend_outside _ _ _ _ _ _ _ _ _ j Hp _).
    rewrite Hidx by assumption. exact Hj.
Qed.

(** X10. Resampling writes inside the destination rectangle only.  Whatever
    the tint, the sizes and the sampler selected, when the call is
    defined the destination keeps its geometry and every stored cell that
    is not a pixel of the rectangle -- the padding of each row and all
    that follows the last row -- keeps its value. *)
Theorem hq_writes_inside (dest source dest' : bitmap_argb32)
    (color : render_color) (force : bool) :
  bm_wf dest ->
  render_resample_argb_bitmap_hq dest source color force = Some dest' ->
  bm_width dest' = bm_width dest /\ bm_height dest' = bm_height dest /\
  bm_rowpixels dest' = bm_rowpixels dest /\
  forall j, (forall y x, 0 <= y < bm_height dest -> 0 <= x < bm_width dest ->
               j <> y * bm_rowpixels dest + x) ->
    bm_base dest' j = bm_base dest j.
Proof.
  intros (Dw & Dh & Dsz & _) Hr. unfold render_resample_argb_bitmap_hq in Hr.
  destruct ((bm_width dest =? 0) || (bm_height dest =? 0)).
  - injection Hr as <-. repeat split.
  - cbv zeta in Hr.
    destruct (select_sampler (bm_width source) (bm_height source)
                (bm_width dest) (bm_height dest) force) as [sel|];
      [|discriminate].
    cbn [obind] in Hr.
    match type of Hr with
    | context [run_sampler ?s ?d ?rp ?w ?h ?src ?srp ?sw ?sh ?c ?dx ?dy] =>
        destruct (run_sampler s d rp w h src srp sw sh c dx dy) as [base|] eqn:Es
    end; [|discriminate].
    cbn [obind] in Hr. injection Hr as <-.
    cbn [bm_width bm_height bm_rowpixels bm_base]. repeat split.
    intros j Hj.
    exact (sampler_writes_inside _ _ _ _ _ _ _ _ _ _ _ _ _ Dw Dh Dsz Es j Hj).
Qed.

Lemma hq_writes_inside_witness :
  exists dest',
    render_resample_argb_bitmap_hq double_dest small_source color_white false
    = Some dest' /\
    bm_width dest' = 4 /\ bm_height dest' = 2 /\ bm_rowpixels dest' = 4 /\
    forall j, (forall y x, 0 <= y < 2 -> 0 <= x < 4 -> j <> y * 4 + x) ->
      bm_base dest' j = bm_base double_dest j.
Proof.
  destruct (render_resample_argb_bitmap_hq double_dest small_source
              color_white false) as [dest'|] eqn:E.
  - exists dest'. split; [reflexivity|].
    exact (hq_writes_inside double_dest small_source dest' color_white false
             double_dest_wf E).
  - vm_compute in E. discriminate E.
Defined.

(** ** The bilinear sampler at unit steps *)

Lemma s32_small z : 0 <= z < 2 ^ 31 -> s32 z = z.
Proof.
  intros Hz. unfold s32. change (2 ^ 31) with 2147483648 in *.
  rewrite u32_small by (change (2 ^ 32) with 4294967296; lia).
  replace (z <? 2147483648) with true by (symmetry; apply Z.ltb_lt; lia).
  reflexivity.
Qed.

Lemma bilinear_unit_pixel (source : pixmem) (srowpixels swidth sheight y x : Z)
    (m : pixmem) (idx : Z) :
  0 <= swidth <= 2 ^ 19 -> 0 <= sheight <= 2 ^ 19 ->
  0 <= y < sheight -> 0 <= x < swidth ->
  0 <= source (u32 (y * srowpixels + x)) < 2 ^ 32 ->
  (let maxx := u32 (Z.shiftl swidth 12) in
   let maxy := u32 (Z.shiftl sheight 12) in
   let starty := u32 (y * 0x1000) in
   let startx := u32 (x * 0x1000) in
   let curx := u32 (startx + 0x1000 / 2 - 0x800) in
   let cury := u32 (starty + 0x1000 / 2 - 0x800) in
   let nextx := u32 (curx + 0x1000) in
   let nexty := u32 (cury + 0x1000) in
   let inside (cy cx : Z) : bool :=
     (0 <=? s32 cy) && (cy <? maxy) && (0 <=? s32 cx) && (cx <? maxx) in
   let fetch (cy cx : Z) : Z :=
     if inside cy cx
     then source (u32 (Z.shiftr cy 12 * srowpixels + Z.shiftr cx 12))
     else 0 in
   let pix0 := fetch cury curx in
   let pix1 := fetch cury nextx in
   let pix2 := fetch nexty curx in
   let pix3 := fetch nexty nextx in
   let curx := Z.land curx 0xfff in
   let cury := Z.land cury 0xfff in
   let f0 := u32 ((0x1000 - curx) * (0x1000 - cury)) in
   let f1 := u32 (curx * (0x1000 - cury)) in
   let f2 := u32 ((0x1000 - curx) * cury) in
   let f3 := u32 (curx * cury) in
   let acc (ch : Z -> Z) : Z :=
     u32 (u32 (u32 (u32 (f0 * ch pix0) + u32 (f1 * ch pix1))
               + u32 (f2 * ch pix2)) + u32 (f3 * ch pix3)) in
   let suma := u32 (Z.shiftr (acc pix_a) 24 * 256) / 256 in
   let sumr := u32 (Z.shiftr (acc pix_r) 24 * 256) / 256 in
   let sumg := u32 (Z.shiftr (acc pix_g) 24 * 256) / 256 in
   let sumb := u32 (Z.shiftr (acc pix_b) 24 * 256) / 256 in
   blend_store u32 m idx 256 suma sumr sumg sumb)
  = store m idx (source (u32 (y * srowpixels + x))).
Proof.
  intros Hw Hh Hy Hx Hpix.
  change (2 ^ 19) with 524288 in *.
  assert (P32 : 2 ^ 32 = 4294967296) by reflexivity.
  assert (Ex : u32 (x * 0x1000) = x * 4096) by (apply u32_small; lia).
  assert (Ey : u32 (y * 0x1000) = y * 4096) by (apply u32_small; lia).
  cbv zeta. rewrite Ex, Ey.
  change (0x1000 / 2) with 2048.
  replace (x * 4096 + 2048 - 2048) with (x * 4096) by lia.
  replace (y * 4096 + 2048 - 2048) with (y * 4096) by lia.
  rewrite (u32_small (x * 4096)), (u32_small (y * 4096)) by lia.
  rewrite !land_fff, !Z.mod_mul by lia.
  rewrite !shiftl_12, !shiftr_12, !Z.div_mul by lia.
  rewrite (u32_small (swidth * 4096)), (u32_small (sheight * 4096)) by lia.
  rewrite !s32_small by (change (2 ^ 31) with 2147483648; lia).
  replace (0 <=? y * 4096) with true by (symmetry; apply Z.leb_le; lia).
  replace (0 <=? x * 4096) with true by (symmetry; apply Z.leb_le; lia).
  replace (y * 4096 <? sheight * 4096) with true by (symmetry; apply Z.ltb_lt; lia).
  replace (x * 4096 <? swidth * 4096) with true by (symmetry; apply Z.ltb_lt; lia).
  cbn [andb].
  change (0x1000 - 0) with 4096. change (u32 (4096 * 4096)) with 16777216.
  rewrite !Z.mul_0_l. change (u32 0) with 0. rewrite !Z.add_0_r.
  set (pix := source (u32 (y * srowpixels + x))) in *.
  destruct (pix_channel_ranges pix) as (Ha & Hr & Hg & Hb).
  assert (Hacc : forall c, 0 <= c <= 255 ->
            Z.shiftr (u32 (u32 (u32 (u32 (16777216 * c)))))  24 = c).
  { intros c Hc. rewrite !(u32_small (16777216 * c)) by lia.
    rewrite Z.shiftr_div_pow2 by lia. change (2 ^ 24) with 16777216.
    rewrite Z.mul_comm. apply Z.div_mul. lia. }
  rewrite !Hacc by assumption.
  rewrite blend_store_opaque, integer_pixel_unit by (rewrite P32; exact Hpix).
  reflexivity.
Qed.

(** X11. At steps of one pixel the bilinear sampler, like the other two, is
    the identity under the opaque white tint: the second, third and
    fourth tap of every pixel carry weight zero.  The sizes are bounded
    by [2 ^ 19], beyond which the signed coordinate test of the sampler
    would take pixels for outside. *)
Theorem bilinear_unit_identity (dest source : bitmap_argb32) :
  bm_wf dest -> bm_wf source ->
  bm_width dest = bm_width source -> bm_height dest = bm_height source ->
  bm_width source <= 2 ^ 19 -> bm_height source <= 2 ^ 19 ->
  exists m',
    resample_argb_bitmap_bilinear (bm_base dest) (bm_rowpixels dest)
      (bm_width dest) (bm_height dest) (bm_base source) (bm_rowpixels source)
      (bm_width source) (bm_height source) color_white 0x1000 0x1000 = Some m' /\
    forall y x, 0 <= y < bm_height dest -> 0 <= x < bm_width dest ->
      m' (y * bm_rowpixels dest + x) = bm_pix source y x.
Proof.
  intros Hd Hs Ew Eh Hw Hh.
  pose proof Hd as (Dw & Dh & Dsz & _). pose proof Hs as (Sw & Sh & Ssz & Spx).
  unfold resample_argb_bitmap_bilinear. rewrite tint_white.
  cbv zeta. cbn [obind].
  apply (nested_store_loops _ _ _ _ (fun y x => bm_pix source y x));
    try lia.
  intros y x m Hy Hx. f_equal.
  assert (Hi : u32 (y * bm_rowpixels dest + x) = y * bm_rowpixels dest + x).
  { apply index_small; [exact Hd | lia | lia]. }
  rewrite Hi.
  assert (Hsrc : bm_pix source y x
                 = bm_base source (u32 (y * bm_rowpixels source + x))).
  { unfold bm_pix. rewrite index_small by (try assumption; lia). reflexivity. }
  rewrite Hsrc.
  apply (bilinear_unit_pixel (bm_base source) (bm_rowpixels source)
           (bm_width source) (bm_height source) y x m
           (y * bm_rowpixels dest + x)); try lia.
  apply Spx.
Qed.

Lemma bilinear_unit_identity_witness :
  exists m',
    resample_argb_bitmap_bilinear (bm_base small_dest) 2 2 1
      (bm_base small_source) 2 2 1 color_white 0x1000 0x1000 = Some m' /\
    forall y x, 0 <= y < 1 -> 0 <= x < 2 ->
      m' (y * 2 + x) = bm_pix small_source y x.
Proof.
  apply (bilinear_unit_identity small_dest small_source);
    first [ exact small_dest_wf | exact small_source_wf
          | reflexivity | cbn; lia ].
Defined.

(** ** A step of zero in the weighted-average sampler *)

Lemma for_loop_first_fails {S : Type} (body : Z -> S -> option S) n i s :
  (0 < n)%nat -> body i s = None -> for_loop n i body s = None.
Proof.
  intros Hn Hb. destruct n as [|n]; [lia|].
  cbn [for_loop]. rewrite Hb. reflexivity.
Qed.

Lemma average_zero_step (dest : pixmem) (drowpixels dwidth dheight : Z)
    (source : pixmem) (srowpixels swidth sheight : Z) (color : render_color)
    (dx dy : Z) :
  1 <= dwidth -> 1 <= dheight -> dx * dy = 0 ->
  resample_argb_bitmap_average dest drowpixels dwidth dheight
    source srowpixels swidth sheight color dx dy = None.
Proof.
  intros Hw Hh Hz. unfold resample_argb_bitmap_average. cbv zeta.
  destruct (tint_factors color) as [[[[r g] b] a]|]; [|reflexivity].
  cbn [obind].
  apply for_loop_first_fails; [lia|].
  apply for_loop_first_fails; [lia|].
  destruct (average_sums source srowpixels (average_cells dx dy 0 0))
    as [[[sumr sumg] sumb] suma].
  rewrite Hz. reflexivity.
Qed.

(** X12. The weighted-average sampler divides by the footprint area
    [dx * dy] without looking at it.  So whenever the dispatcher selects
    that sampler -- the force flag, or one axis shrinking -- with a step
    that rounds down to zero on either axis (an empty source, or a
    destination more than 4096 times the source along that axis), the
    call is undefined: an integer division by zero. *)
Theorem hq_average_zero_step (dest source : bitmap_argb32)
    (color : render_color) (force : bool) :
  1 <= bm_width dest -> 1 <= bm_height dest ->
  force = true \/
  u32 (Z.shiftl (bm_width source) 12) / bm_width dest > 0x1000 \/
  u32 (Z.shiftl (bm_height source) 12) / bm_height dest > 0x1000 ->
  u32 (Z.shiftl (bm_width source) 12) < bm_width dest \/
  u32 (Z.shiftl (bm_height source) 12) < bm_height dest ->
  render_resample_argb_bitmap_hq dest source color force = None.
Proof.
  intros Hw Hh Hsel Hzero.
  rewrite hq_runs_selection by lia.
  unfold select_sampler.
  set (dx := u32 (Z.shiftl (bm_width source) 12) / bm_width dest).
  set (dy := u32 (Z.shiftl (bm_height source) 12) / bm_height dest).
  replace ((dx >? 0x1000) || (dy >? 0x1000) || force) with true.
  2:{ symmetry. destruct Hsel as [-> | [H | H]].
      - apply orb_true_r.
      - replace (dx >? 0x1000) with true; [reflexivity|].
        symmetry. apply Z.gtb_lt. fold dx in H. lia.
      - replace (dy >? 0x1000) with true; [apply orb_true_iff; left; apply orb_true_r|].
        symmetry. apply Z.gtb_lt. fold dy in H. lia. }
  cbn [obind sel_sampler sel_dx sel_dy run_sampler].
  rewrite average_zero_step; [reflexivity | lia | lia |].
  pose proof (u32_range (Z.shiftl (bm_width source) 12)) as Rx.
  pose proof (u32_range (Z.shiftl (bm_height source) 12)) as Ry.
  destruct Hzero as [H | H].
  - unfold dx. rewrite Z.div_small by lia. reflexivity.
  - unfold dy. rewrite Z.div_small by lia. apply Z.mul_0_r.
Qed.

Lemma hq_average_zero_step_witness :
  render_resample_argb_bitmap_hq tall_dest small_source color_white false = None.
Proof.
  apply (hq_average_zero_step tall_dest small_source color_white false);
    [ cbn; lia | cbn; lia
    | right; left; vm_compute; reflexivity
    | right; vm_compute; reflexivity ].
Defined.

(* ===================================================================== *)
(** * Further properties of the image loaders *)
(* ===================================================================== *)

(** ** Packed pixels *)

Lemma pix_rgb_t a r g b :
  pix_a (rgb_t a r g b) = u8 a /\ pix_r (rgb_t a r g b) = u8 r /\
  pix_g (rgb_t a r g b) = u8 g /\ pix_b (rgb_t a r g b) = u8 b.
Proof.
  unfold rgb_t, pix_a, pix_r, pix_g, pix_b.
  pose proof (u8_range a) as Ha. pose proof (u8_range r) as Hr.
  pose proof (u8_range g) as Hg. pose proof (u8_range b) as Hb.
  set (A := u8 a) in *. set (R := u8 r) in *.
  set (G := u8 g) in *. set (B := u8 b) in *.
  unfold u8.
  change (2 ^ 8) with 256 in *. change (2 ^ 16) with 65536.
  change (2 ^ 24) with 16777216.
  repeat split; Z.to_euclidean_division_equations; lia.
Qed.

Lemma u8_idem z : u8 (u8 z) = u8 z.
Proof. unfold u8. apply Z.mod_mod. lia. Qed.

(** ** The alpha overlay keeps the colours *)

Lemma same_colour_refl b : same_colour b b.
Proof. unfold same_colour. repeat split. Qed.

Lemma same_colour_trans b1 b2 b3 :
  same_colour b1 b2 -> same_colour b2 b3 -> same_colour b1 b3.
Proof.
  intros (W1 & H1 & R1 & C1) (W2 & H2 & R2 & C2).
  unfold same_colour. repeat split; try congruence;
    destruct (C1 i) as (? & ? & ?); destruct (C2 i) as (? & ? & ?); congruence.
Qed.

Lemma copy_pixel_same_colour brightness png pass y x s :
  same_colour (cs_bitmap s) (cs_bitmap (copy_pixel brightness png pass y x s)).
Proof.
  unfold copy_pixel.
  destruct (if png_interlace_method png =? 0 then (y, x)
            else (y_trans pass y, x_trans pass x)) as [dy dx].
  cbn [cs_bitmap]. unfold same_colour, bm_set, bm_pix.
  cbn [bm_width bm_height bm_rowpixels bm_base].
  repeat split; unfold store;
    (destruct (i =? dy * bm_rowpixels (cs_bitmap s) + dx) eqn:E;
     [apply Z.eqb_eq in E; subst i | reflexivity]);
    match goal with
    | |- context [rgb_t ?a ?r ?g ?b] =>
        destruct (pix_rgb_t a r g b) as (_ & Er & Eg & Eb)
    end.
  - rewrite Er. unfold pix_r. apply u8_idem.
  - rewrite Eg. unfold pix_g. apply u8_idem.
  - rewrite Eb. unfold pix_b. apply u8_idem.
Qed.

Lemma copy_row_same_colour brightness png pass y n : forall x s,
  same_colour (cs_bitmap s) (cs_bitmap (copy_row brightness png pass y n x s)).
Proof.
  induction n as [|n IH]; intros x s; cbn [copy_row].
  - apply same_colour_refl.
  - eapply same_colour_trans; [apply copy_pixel_same_colour | apply IH].
Qed.

Lemma copy_rows_same_colour brightness png pass width n : forall y s,
  same_colour (cs_bitmap s)
              (cs_bitmap (copy_rows brightness png pass width n y s)).
Proof.
  induction n as [|n IH]; intros y s; cbn [copy_rows].
  - apply same_colour_refl.
  - eapply same_colour_trans; [apply copy_row_same_colour | apply IH].
Qed.

Lemma copy_passes_same_colour brightness png n : forall pass s,
  same_colour (cs_bitmap s) (cs_bitmap (copy_passes brightness png n pass s)).
Proof.
  induction n as [|n IH]; intros pass s; cbn [copy_passes].
  - apply same_colour_refl.
  - eapply same_colour_trans; [|apply IH].
    unfold copy_pass.
    exact (copy_rows_same_colour brightness png _ _ _ 0
             (mk_copy (pass_offset png pass) (cs_accumalpha s) (cs_bitmap s))).
Qed.

(** X13. In overlay mode [render_load_png] never touches the colours: whatever
    the file holds and whatever the reader reports -- read error, upsample
    error, size mismatch, unsupported depth, or a completed copy of any
    colour type, interlaced or not -- the bitmap keeps its geometry and
    the red, green and blue channels of every pixel.  Whenever a
    diagnostic is logged the verdict is "no alpha" and the bitmap is the
    one passed in (overlay mode) or the empty bitmap (load mode). *)
Theorem load_png_keeps_colour (brightness : Z -> Z -> Z -> Z)
    (reader : png_reader) (bitmap : bitmap_argb32) (file : random_read) :
  same_colour bitmap
    (snd (fst (render_load_png brightness reader bitmap file true))) /\
  forall overlay,
    snd (render_load_png brightness reader bitmap file overlay) <> [] ->
    fst (fst (render_load_png brightness reader bitmap file overlay)) = false /\
    snd (fst (render_load_png brightness reader bitmap file overlay))
    = (if overlay then bitmap else bm_empty).
Proof.
  split.
  - unfold render_load_png. cbn [negb].
    destruct (png_read_file reader file) as [png|];
      [|apply same_colour_refl].
    destruct (png_expand_buffer_8bit reader png) as [png'|];
      [|apply same_colour_refl].
    destruct ((png_width png' =? bm_width bitmap)
              && (png_height png' =? bm_height bitmap));
      [|apply same_colour_refl].
    destruct (png_bit_depth png' >? 8); [apply same_colour_refl|].
    unfold copy_png_alpha_to_bitmap. cbn [fst snd].
    exact (copy_passes_same_colour brightness png' _ 0 (mk_copy 0 0xff bitmap)).
  - intros overlay. unfold render_load_png.
    destruct (png_read_file reader file) as [png|];
      [|destruct overlay; intros _; split; reflexivity].
    destruct (png_expand_buffer_8bit reader png) as [png'|];
      [|destruct overlay; intros _; split; reflexivity].
    destruct overlay; cbn [negb].
    + destruct ((png_width png' =? bm_width bitmap)
                && (png_height png' =? bm_height bitmap));
        [|intros H; exfalso; apply H; reflexivity].
      destruct (png_bit_depth png' >? 8); [intros _; split; reflexivity|].
      destruct (copy_png_alpha_to_bitmap brightness bitmap png').
      intros H; exfalso; apply H; reflexivity.
    + destruct (png_copy_to_bitmap reader png') as [[b' ha]|];
        [intros H; exfalso; apply H; reflexivity | intros _; split; reflexivity].
Qed.

(** ** The interlace passes *)

Ltac adam7_pass pass H :=
  assert (pass = 0 \/ pass = 1 \/ pass = 2 \/ pass = 3 \/ pass = 4 \/
          pass = 5 \/ pass = 6) as Hcases by lia;
  clear H;
  repeat (destruct Hcases as [-> | Hcases]); [ | | | | | | subst pass].

Ltac adam7_tables :=
  repeat match goal with
  | |- context [byte_at ?t ?n] =>
      let v := eval vm_compute in (byte_at t n) in
      change (byte_at t n) with v in *
  | H : context [byte_at ?t ?n] |- _ =>
      let v := eval vm_compute in (byte_at t n) in
      change (byte_at t n) with v in *
  end.

Ltac adam7_norm :=
  unfold pass_width, pass_height, x_trans, y_trans in *;
  repeat match goal with
  | H : context [png_interlace_method ?p =? 0] |- _ =>
      replace (png_interlace_method p =? 0) with false in H
        by (symmetry; apply Z.eqb_neq; assumption)
  | |- context [png_interlace_method ?p =? 0] =>
      replace (png_interlace_method p =? 0) with false
        by (symmetry; apply Z.eqb_neq; assumption)
  end;
  adam7_tables;
  rewrite ?Z.shiftl_mul_pow2, ?Z.shiftr_div_pow2 in * by lia;
  unfold u32 in *;
  change (2 ^ 0) with 1 in *; change (2 ^ 1) with 2 in *;
  change (2 ^ 2) with 4 in *; change (2 ^ 3) with 8 in *;
  change (2 ^ 31) with 2147483648 in *;
  change (2 ^ 32) with 4294967296 in *.

Lemma adam7_inside (png : png_info) (pass x y : Z) :
  png_interlace_method png <> 0 -> 0 <= pass < 7 ->
  0 <= png_width png < 2 ^ 31 -> 0 <= png_height png < 2 ^ 31 ->
  0 <= y < pass_height png pass -> 0 <= x < pass_width png pass ->
  0 <= y_trans pass y < png_height png /\
  0 <= x_trans pass x < png_width png.
Proof.
  intros Hi Hp Hw Hh Hy Hx.
  adam7_pass pass Hp; adam7_norm;
    Z.to_euclidean_division_equations; lia.
Qed.

Lemma adam7_unique (png : png_info) (pass x y pass' x' y' : Z) :
  png_interlace_method png <> 0 ->
  0 <= png_width png < 2 ^ 31 -> 0 <= png_height png < 2 ^ 31 ->
  0 <= pass < 7 -> 0 <= y < pass_height png pass -> 0 <= x < pass_width png pass ->
  0 <= pass' < 7 ->
  0 <= y' < pass_height png pass' -> 0 <= x' < pass_width png pass' ->
  y_trans pass y = y_trans pass' y' -> x_trans pass x = x_trans pass' x' ->
  pass = pass' /\ y = y' /\ x = x'.
Proof.
  intros Hi Hw Hh Hp Hy Hx Hp' Hy' Hx' Ey Ex.
  adam7_pass pass Hp; adam7_pass pass' Hp'; adam7_norm;
    Z.to_euclidean_division_equations; lia.
Qed.

(** X14. With interlacing, every pixel the loops of a pass visit is sent by
    [x_trans], [y_trans] to a pixel of the image: the overlay never
    writes outside a bitmap whose dimensions match the image's (both
    below [2 ^ 31]). *)
Theorem adam7_in_bounds (png : png_info) (pass x y : Z) :
  png_interlace_method png <> 0 -> 0 <= pass < 7 ->
  0 <= png_width png < 2 ^ 31 -> 0 <= png_height png < 2 ^ 31 ->
  0 <= y < pass_height png pass -> 0 <= x < pass_width png pass ->
  0 <= y_trans pass y < png_height png /\
  0 <= x_trans pass x < png_width png.
Proof.
  intros Hi Hp Hw Hh Hy Hx.
  adam7_pass pass Hp; adam7_norm;
    Z.to_euclidean_division_equations; lia.
Qed.

Ltac by_evaluation :=
  vm_compute; repeat split; first [ reflexivity | discriminate ].

Lemma adam7_in_bounds_witness :
  0 <= y_trans 3 0 < png_height png_interlaced /\
  0 <= x_trans 3 0 < png_width png_interlaced.
Proof.
  apply (adam7_in_bounds png_interlaced 3 0 0); by_evaluation.
Defined.

(** X15. With interlacing, the seven passes partition the image: every pixel
    of the image is the target of exactly one pass and one position
    within that pass, so the overlay writes every alpha exactly once. *)
Theorem adam7_partition (png : png_info) (X Y : Z) :
  png_interlace_method png <> 0 ->
  0 <= png_width png < 2 ^ 31 -> 0 <= png_height png < 2 ^ 31 ->
  0 <= Y < png_height png -> 0 <= X < png_width png ->
  exists pass x y,
    (0 <= pass < 7 /\
     0 <= y < pass_height png pass /\ 0 <= x < pass_width png pass /\
     y_trans pass y = Y /\ x_trans pass x = X) /\
    forall pass' x' y',
      0 <= pass' < 7 ->
      0 <= y' < pass_height png pass' -> 0 <= x' < pass_width png pass' ->
      y_trans pass' y' = Y -> x_trans pass' x' = X ->
      pass' = pass /\ x' = x /\ y' = y.
Proof.
  intros Hi Hw Hh HY HX.
  assert (Hex : exists pass x y,
            0 <= pass < 7 /\
            0 <= y < pass_height png pass /\ 0 <= x < pass_width png pass /\
            y_trans pass y = Y /\ x_trans pass x = X).
  { assert (Hres :
      (Y mod 8 = 0 /\ X mod 8 = 0) \/ (Y mod 8 = 0 /\ X mod 8 = 4) \/
      (Y mod 8 = 4 /\ X mod 4 = 0) \/ (Y mod 4 = 0 /\ X mod 4 = 2) \/
      (Y mod 4 = 2 /\ X mod 2 = 0) \/ (Y mod 2 = 0 /\ X mod 2 = 1) \/
      Y mod 2 = 1)
      by (Z.to_euclidean_division_equations; lia).
    destruct Hres as [R | [R | [R | [R | [R | [R | R]]]]]];
      [ exists 0, (X / 8), (Y / 8) | exists 1, (X / 8), (Y / 8)
      | exists 2, (X / 4), (Y / 8) | exists 3, (X / 4), (Y / 4)
      | exists 4, (X / 2), (Y / 4) | exists 5, (X / 2), (Y / 2)
      | exists 6, X, (Y / 2) ];
      adam7_norm; Z.to_euclidean_division_equations; lia. }
  destruct Hex as (pass & x & y & Hp & Hy & Hx & Ey & Ex).
  exists pass, x, y. split; [repeat split; try lia; assumption|].
  intros pass' x' y' Hp' Hy' Hx' Ey' Ex'.
  destruct (adam7_unique png pass' x' y' pass x y) as (E1 & E2 & E3);
    try assumption; try congruence.
  repeat split; assumption.
Qed.

Lemma adam7_partition_witness :
  exists pass x y,
    (0 <= pass < 7 /\
     0 <= y < pass_height png_interlaced pass /\
     0 <= x < pass_width png_interlaced pass /\
     y_trans pass y = 0 /\ x_trans pass x = 2) /\
    forall pass' x' y',
      0 <= pass' < 7 ->
      0 <= y' < pass_height png_interlaced pass' ->
      0 <= x' < pass_width png_interlaced pass' ->
      y_trans pass' y' = 0 -> x_trans pass' x' = 2 ->
      pass' = pass /\ x' = x /\ y' = y.
Proof.
  apply (adam7_partition png_interlaced 2 0); by_evaluation.
Defined.

(** ** What the alpha overlay writes *)

Lemma wrote_nothing b : wrote b b (fun _ _ => False).
Proof. unfold wrote. repeat split; intros; tauto. Qed.

Lemma wrote_ext b b' (A A' : Z -> Z -> Prop) :
  (forall idx alpha, A' idx alpha <-> A idx alpha) ->
  wrote b b' A -> wrote b b' A'.
Proof.
  intros Hext (W & H & R & Hw & Hn). unfold wrote. repeat split; try assumption.
  - intros idx alpha Ha. apply Hw, Hext, Ha.
  - intros idx Hno. apply Hn. intros alpha Ha. apply (Hno alpha), Hext, Ha.
Qed.

(** Two rounds of writes to different cells add up. *)
Lemma wrote_seq b1 b2 b3 (A B : Z -> Z -> Prop) :
  wrote b1 b2 A -> wrote b2 b3 B ->
  (forall idx alpha beta, A idx alpha -> B idx beta -> False) ->
  wrote b1 b3 (fun idx alpha => A idx alpha \/ B idx alpha).
Proof.
  intros (W1 & H1 & R1 & Hw1 & Hn1) (W2 & H2 & R2 & Hw2 & Hn2) Hdis.
  unfold wrote. repeat split; try congruence.
  - intros idx alpha [Ha | Hb].
    + rewrite Hn2; [apply Hw1; exact Ha|].
      intros beta Hb. exact (Hdis idx alpha beta Ha Hb).
    + rewrite (Hw2 idx alpha Hb), Hn1; [reflexivity|].
      intros beta Ha. exact (Hdis idx beta alpha Ha Hb).
  - intros idx Hno. rewrite Hn2, Hn1; [reflexivity | |].
    + intros alpha Ha. apply (Hno alpha). left. exact Ha.
    + intros alpha Hb. apply (Hno alpha). right. exact Hb.
Qed.

Section OverlayWrites.
Variable brightness : Z -> Z -> Z -> Z.
Variable png : png_info.

Lemma copy_pixel_wrote pass y x s :
  wrote (cs_bitmap s) (cs_bitmap (copy_pixel brightness png pass y x s))
        (fun idx alpha =>
           idx = overlay_target png (bm_rowpixels (cs_bitmap s)) pass y x /\
           alpha = derived_alpha brightness png (cs_src s)) /\
  cs_src (copy_pixel brightness png pass y x s) = cs_src s + src_stride png.
Proof.
  unfold copy_pixel, overlay_target.
  destruct (png_interlace_method png =? 0);
    (split; [|reflexivity]);
    cbn [cs_bitmap]; unfold wrote, bm_set, bm_pix;
    cbn [bm_width bm_height bm_rowpixels bm_base];
    repeat split.
  - intros idx alpha [-> ->]. apply store_same.
  - intros idx Hno. apply store_other. intros E. eapply Hno. split; [exact E | reflexivity].
  - intros idx alpha [-> ->]. apply store_same.
  - intros idx Hno. apply store_other. intros E. eapply Hno. split; [exact E | reflexivity].
Qed.

Lemma copy_row_wrote pass y n : forall x s,
  (forall k k', 0 <= k < Z.of_nat n -> 0 <= k' < Z.of_nat n ->
     overlay_target png (bm_rowpixels (cs_bitmap s)) pass y (x + k)
     = overlay_target png (bm_rowpixels (cs_bitmap s)) pass y (x + k') ->
     k = k') ->
  wrote (cs_bitmap s) (cs_bitmap (copy_row brightness png pass y n x s))
        (fun idx alpha => exists k, 0 <= k < Z.of_nat n /\
           idx = overlay_target png (bm_rowpixels (cs_bitmap s)) pass y (x + k) /\
           alpha = derived_alpha brightness png (cs_src s + src_stride png * k)) /\
  cs_src (copy_row brightness png pass y n x s)
  = cs_src s + src_stride png * Z.of_nat n.
Proof.
  induction n as [|n IH]; intros x s Hinj; cbn [copy_row].
  - split; [|cbn; lia].
    eapply wrote_ext; [|apply wrote_nothing].
    intros idx alpha. split; [intros (k & Hk & _); lia | tauto].
  - destruct (copy_pixel_wrote pass y x s) as [Wp Sp].
    set (s1 := copy_pixel brightness png pass y x s) in *.
    assert (R1 : bm_rowpixels (cs_bitmap s1) = bm_rowpixels (cs_bitmap s))
      by apply Wp.
    destruct (IH (x + 1) s1) as [Wr Sr].
    { rewrite R1. intros k k' Hk Hk' E.
      assert (k + 1 = k' + 1); [|lia].
      apply Hinj; try lia.
      replace (x + (k + 1)) with (x + 1 + k) by lia.
      replace (x + (k' + 1)) with (x + 1 + k') by lia. exact E. }
    rewrite R1, Sp in Wr. rewrite Sr, Sp, Nat2Z.inj_succ.
    split; [|lia].
    eapply wrote_ext; [|eapply wrote_seq; [exact Wp | exact Wr |]].
    + intros idx alpha. split.
      * intros (k & Hk & Ei & Ea).
        destruct (Z.eq_dec k 0) as [-> | Hne].
        -- left. rewrite Z.add_0_r in Ei. rewrite Z.mul_0_r, Z.add_0_r in Ea.
           split; assumption.
        -- right. exists (k - 1). split; [lia|].
           replace (x + 1 + (k - 1)) with (x + k) by lia.
           replace (cs_src s + src_stride png + src_stride png * (k - 1))
             with (cs_src s + src_stride png * k) by lia.
           split; assumption.
      * intros [[Ei Ea] | (k & Hk & Ei & Ea)].
        -- exists 0. rewrite Z.add_0_r, Z.mul_0_r, Z.add_0_r.
           split; [lia | split; assumption].
        -- exists (k + 1). split; [lia|].
           replace (x + (k + 1)) with (x + 1 + k) by lia.
           replace (cs_src s + src_stride png * (k + 1))
             with (cs_src s + src_stride png + src_stride png * k) by lia.
           split; assumption.
    + intros idx alpha beta [Ei _] (k & Hk & Ei' & _).
      assert (0 = k + 1); [|lia].
      apply Hinj; try lia.
      rewrite Z.add_0_r, <- Ei.
      replace (x + (k + 1)) with (x + 1 + k) by lia. exact Ei'.
Qed.

Lemma copy_rows_wrote pass width n : forall y s,
  0 <= width ->
  (forall r k r' k', 0 <= r < Z.of_nat n -> 0 <= k < width ->
     0 <= r' < Z.of_nat n -> 0 <= k' < width ->
     overlay_target png (bm_rowpixels (cs_bitmap s)) pass (y + r) k
     = overlay_target png (bm_rowpixels (cs_bitmap s)) pass (y + r') k' ->
     r = r' /\ k = k') ->
  wrote (cs_bitmap s) (cs_bitmap (copy_rows brightness png pass width n y s))
        (fun idx alpha => exists r k, 0 <= r < Z.of_nat n /\ 0 <= k < width /\
           idx = overlay_target png (bm_rowpixels (cs_bitmap s)) pass (y + r) k /\
           alpha = derived_alpha brightness png
                     (cs_src s + src_stride png * (width * r + k))).
Proof.
  induction n as [|n IH]; intros y s Hw Hinj; cbn [copy_rows].
  - eapply wrote_ext; [|apply wrote_nothing].
    intros idx alpha. split; [intros (r & k & Hr & _); lia | tauto].
  - destruct (copy_row_wrote pass y (Z.to_nat width) 0 s) as [Wr Sr].
    { rewrite Z2Nat.id by lia. intros k k' Hk Hk' E.
      apply (Hinj 0 k 0 k'); try lia.
      rewrite Z.add_0_r. exact E. }
    rewrite Z2Nat.id in Wr, Sr by lia.
    set (s1 := copy_row brightness png pass y (Z.to_nat width) 0 s) in *.
    assert (R1 : bm_rowpixels (cs_bitmap s1) = bm_rowpixels (cs_bitmap s))
      by apply Wr.
    specialize (IH (y + 1) s1 Hw).
    rewrite R1, Sr in IH.
    assert (Wn := IH). clear IH.
    assert (Hinj1 : forall r k r' k', 0 <= r < Z.of_nat n -> 0 <= k < width ->
              0 <= r' < Z.of_nat n -> 0 <= k' < width ->
              overlay_target png (bm_rowpixels (cs_bitmap s)) pass (y + 1 + r) k
              = overlay_target png (bm_rowpixels (cs_bitmap s)) pass (y + 1 + r') k' ->
              r = r' /\ k = k').
    { intros r k r' k' Hr Hk Hr' Hk' E.
      destruct (Hinj (r + 1) k (r' + 1) k'); try lia.
      replace (y + (r + 1)) with (y + 1 + r) by lia.
      replace (y + (r' + 1)) with (y + 1 + r') by lia. exact E. }
    specialize (Wn Hinj1).
    rewrite Nat2Z.inj_succ.
    eapply wrote_ext; [|eapply wrote_seq; [exact Wr | exact Wn |]].
    + intros idx alpha. split.
      * intros (r & k & Hr & Hk & Ei & Ea).
        destruct (Z.eq_dec r 0) as [-> | Hne].
        -- left. exists k. rewrite Z.add_0_r in Ei.
           rewrite Z.mul_0_r, Z.add_0_l in Ea.
           rewrite Z.add_0_l. repeat split; try lia; assumption.
        -- right. exists (r - 1), k. split; [lia|]. split; [lia|].
           replace (y + 1 + (r - 1)) with (y + r) by lia.
           replace (cs_src s + src_stride png * width
                    + src_stride png * (width * (r - 1) + k))
             with (cs_src s + src_stride png * (width * r + k)) by lia.
           split; assumption.
      * intros [(k & Hk & Ei & Ea) | (r & k & Hr & Hk & Ei & Ea)].
        -- exists 0, k. rewrite Z.add_0_r, Z.mul_0_r, Z.add_0_l.
           rewrite Z.add_0_l in Ei. repeat split; try lia; assumption.
        -- exists (r + 1), k. split; [lia|]. split; [lia|].
           replace (y + (r + 1)) with (y + 1 + r) by lia.
           replace (cs_src s + src_stride png * (width * (r + 1) + k))
             with (cs_src s + src_stride png * width
                   + src_stride png * (width * r + k)) by lia.
           split; assumption.
    + intros idx alpha beta (k & Hk & Ei & _) (r & k' & Hr & Hk' & Ei' & _).
      destruct (Hinj 0 k (r + 1) k'); try lia.
      rewrite Z.add_0_r. rewrite Z.add_0_l in Ei. rewrite <- Ei.
      replace (y + (r + 1)) with (y + 1 + r) by lia. exact Ei'.
Qed.

(** Where and what all the passes write, given that no cell is the
    target of two positions. *)
Lemma copy_passes_wrote n : forall pass s,
  0 <= png_width png -> 0 <= png_height png ->
  (forall p y x p' y' x',
     Z.of_nat pass <= p < Z.of_nat pass + Z.of_nat n ->
     0 <= y < pass_height png p -> 0 <= x < pass_width png p ->
     Z.of_nat pass <= p' < Z.of_nat pass + Z.of_nat n ->
     0 <= y' < pass_height png p' -> 0 <= x' < pass_width png p' ->
     overlay_target png (bm_rowpixels (cs_bitmap s)) p y x
     = overlay_target png (bm_rowpixels (cs_bitmap s)) p' y' x' ->
     p = p' /\ y = y' /\ x = x') ->
  wrote (cs_bitmap s) (cs_bitmap (copy_passes brightness png n pass s))
        (fun idx alpha => exists p y x,
           Z.of_nat pass <= p < Z.of_nat pass + Z.of_nat n /\
           0 <= y < pass_height png p /\ 0 <= x < pass_width png p /\
           idx = overlay_target png (bm_rowpixels (cs_bitmap s)) p y x /\
           alpha = derived_alpha brightness png
                     (pass_offset png (Z.to_nat p)
                      + src_stride png * (pass_width png p * y + x))).
Proof.
  induction n as [|n IH]; intros pass s Hw Hh Hinj; cbn [copy_passes].
  - eapply wrote_ext; [|apply wrote_nothing].
    intros idx alpha. split; [intros (p & y & x & Hp & _); lia | tauto].
  - pose proof (pass_width_nonneg png Hw (Z.of_nat pass)) as Hpw.
    pose proof (pass_height_nonneg png Hh (Z.of_nat pass)) as Hph.
    assert (Wp : wrote (cs_bitmap s) (cs_bitmap (copy_pass brightness png pass s))
              (fun idx alpha => exists r k,
                 0 <= r < pass_height png (Z.of_nat pass) /\
                 0 <= k < pass_width png (Z.of_nat pass) /\
                 idx = overlay_target png (bm_rowpixels (cs_bitmap s))
                                      (Z.of_nat pass) r k /\
                 alpha = derived_alpha brightness png
                           (pass_offset png pass
                            + src_stride png
                              * (pass_width png (Z.of_nat pass) * r + k)))).
    { unfold copy_pass.
      pose proof (copy_rows_wrote (Z.of_nat pass) (pass_width png (Z.of_nat pass))
                    (Z.to_nat (pass_height png (Z.of_nat pass))) 0
                    (mk_copy (pass_offset png pass) (cs_accumalpha s) (cs_bitmap s))
                    Hpw) as W.
      cbn [cs_bitmap cs_src] in W. rewrite Z2Nat.id in W by lia.
      eapply wrote_ext; [|apply W].
      - intros idx alpha. split; intros (r & k & Hr & Hk & Ei & Ea);
          exists r, k; rewrite ?Z.add_0_l in *; repeat split; try lia; assumption.
      - intros r k r' k' Hr Hk Hr' Hk' E. rewrite !Z.add_0_l in E.
        destruct (Hinj (Z.of_nat pass) r k (Z.of_nat pass) r' k'); lia. }
    set (s1 := copy_pass brightness png pass s) in *.
    assert (R1 : bm_rowpixels (cs_bitmap s1) = bm_rowpixels (cs_bitmap s))
      by apply Wp.
    specialize (IH (S pass) s1 Hw Hh). rewrite R1 in IH.
    assert (Wn := IH). clear IH.
    rewrite Nat2Z.inj_succ in *.
    assert (Hinj1 : forall p y x p' y' x',
              Z.succ (Z.of_nat pass) <= p < Z.succ (Z.of_nat pass) + Z.of_nat n ->
              0 <= y < pass_height png p -> 0 <= x < pass_width png p ->
              Z.succ (Z.of_nat pass) <= p' < Z.succ (Z.of_nat pass) + Z.of_nat n ->
              0 <= y' < pass_height png p' -> 0 <= x' < pass_width png p' ->
              overlay_target png (bm_rowpixels (cs_bitmap s)) p y x
              = overlay_target png (bm_rowpixels (cs_bitmap s)) p' y' x' ->
              p = p' /\ y = y' /\ x = x').
    { intros p y x p' y' x' Hp Hy Hx Hp' Hy' Hx' E.
      apply Hinj; try lia; assumption. }
    specialize (Wn Hinj1).
    eapply wrote_ext; [|eapply wrote_seq; [exact Wp | exact Wn |]].
    + intros idx alpha. split.
      * intros (p & y & x & Hp & Hy & Hx & Ei & Ea).
        destruct (Z.eq_dec p (Z.of_nat pass)) as [-> | Hne].
        -- left. exists y, x. rewrite Nat2Z.id in Ea.
           repeat split; try lia; assumption.
        -- right. exists p, y, x. repeat split; try lia; assumption.
      * intros [(y & x & Hy & Hx & Ei & Ea) | (p & y & x & Hp & Hy & Hx & Ei & Ea)].
        -- exists (Z.of_nat pass), y, x. rewrite Nat2Z.id.
           repeat split; try lia; assumption.
        -- exists p, y, x. repeat split; try lia; assumption.
    + intros idx alpha beta (y & x & Hy & Hx & Ei & _)
             (p & y' & x' & Hp & Hy' & Hx' & Ei' & _).
      destruct (Hinj (Z.of_nat pass) y x p y' x'); try lia.
Qed.
End OverlayWrites.

Lemma index_unique rowpixels y x y' x' :
  0 <= x < rowpixels -> 0 <= x' < rowpixels ->
  y * rowpixels + x = y' * rowpixels + x' -> y = y' /\ x = x'.
Proof.
  intros Hx Hx' E.
  assert (Hy : y = y').
  { destruct (Z.lt_trichotomy y y') as [H | [H | H]]; [exfalso | exact H | exfalso].
    - assert (y * rowpixels + rowpixels <= y' * rowpixels)
        by (replace (y * rowpixels + rowpixels) with ((y + 1) * rowpixels) by ring;
            apply Z.mul_le_mono_nonneg_r; lia).
      lia.
    - assert (y' * rowpixels + rowpixels <= y * rowpixels)
        by (replace (y' * rowpixels + rowpixels) with ((y' + 1) * rowpixels) by ring;
            apply Z.mul_le_mono_nonneg_r; lia).
      lia. }
  subst y'. split; [reflexivity | lia].
Qed.

Lemma overlay_target_injective (png : png_info) (rowpixels : Z)
    (p y x p' y' x' : Z) :
  0 <= png_width png <= rowpixels ->
  png_width png < 2 ^ 31 -> 0 <= png_height png < 2 ^ 31 ->
  0 <= p < pass_count png ->
  0 <= y < pass_height png p -> 0 <= x < pass_width png p ->
  0 <= p' < pass_count png ->
  0 <= y' < pass_height png p' -> 0 <= x' < pass_width png p' ->
  overlay_target png rowpixels p y x = overlay_target png rowpixels p' y' x' ->
  p = p' /\ y = y' /\ x = x'.
Proof.
  intros Hw Hw31 Hh Hp Hy Hx Hp' Hy' Hx' E.
  unfold overlay_target, pass_count in *.
  destruct (png_interlace_method png =? 0) eqn:Ei.
  - unfold pass_width, pass_height in *. rewrite Ei in *.
    destruct (index_unique rowpixels y x y' x') as [Ey Ex]; lia.
  - apply Z.eqb_neq in Ei.
    destruct (adam7_inside png p x y) as [Iy Ix]; try assumption; try lia.
    destruct (adam7_inside png p' x' y') as [Iy' Ix']; try assumption; try lia.
    destruct (index_unique rowpixels (y_trans p y) (x_trans p x)
                (y_trans p' y') (x_trans p' x')) as [Ey Ex]; try lia.
    apply (adam7_unique png p x y p' x' y'); try assumption; lia.
Qed.

(** X16. What the overlay writes.  For an image no wider than the rows of the
    bitmap (dimensions below [2 ^ 31]), interlaced or not and of any
    colour type: every position [(x, y)] of every pass has a cell of its
    own, which ends up with the alpha derived from the sample at
    [pass_offset + src_stride * (width * y + x)] and with its red, green
    and blue unchanged; every other cell of the bitmap keeps its
    value. *)
Theorem overlay_alpha_written (brightness : Z -> Z -> Z -> Z)
    (bitmap : bitmap_argb32) (png : png_info) :
  0 <= png_width png <= bm_rowpixels bitmap ->
  png_width png < 2 ^ 31 -> 0 <= png_height png < 2 ^ 31 ->
  let b' := snd (copy_png_alpha_to_bitmap brightness bitmap png) in
  (forall pass y x,
     0 <= pass < pass_count png ->
     0 <= y < pass_height png pass -> 0 <= x < pass_width png pass ->
     bm_base b' (overlay_target png (bm_rowpixels bitmap) pass y x)
     = rgb_t (derived_alpha brightness png
                (pass_offset png (Z.to_nat pass)
                 + src_stride png * (pass_width png pass * y + x)))
             (pix_r (bm_base bitmap (overlay_target png (bm_rowpixels bitmap) pass y x)))
             (pix_g (bm_base bitmap (overlay_target png (bm_rowpixels bitmap) pass y x)))
             (pix_b (bm_base bitmap (overlay_target png (bm_rowpixels bitmap) pass y x)))) /\
  (forall idx,
     (forall pass y x,
        0 <= pass < pass_count png ->
        0 <= y < pass_height png pass -> 0 <= x < pass_width png pass ->
        idx <> overlay_target png (bm_rowpixels bitmap) pass y x) ->
     bm_base b' idx = bm_base bitmap idx).
Proof.
  intros Hw Hw31 Hh. cbv zeta. unfold copy_png_alpha_to_bitmap. cbn [snd].
  assert (Hc : 0 <= pass_count png)
    by (unfold pass_count; destruct (png_interlace_method png =? 0); lia).
  pose proof (copy_passes_wrote brightness png (Z.to_nat (pass_count png)) 0
                (mk_copy 0 0xff bitmap) ltac:(lia) ltac:(lia)) as W.
  cbn [cs_bitmap] in W. rewrite Z2Nat.id in W by lia.
  change (Z.of_nat 0) with 0 in W. rewrite Z.add_0_l in W.
  destruct W as (_ & _ & _ & Hwr & Hno).
  { intros p y x p' y' x' Hp Hy Hx Hp' Hy' Hx' E.
    apply (overlay_target_injective png (bm_rowpixels bitmap)); assumption. }
  split.
  - intros pass y x Hp Hy Hx. apply Hwr.
    exists pass, y, x. repeat split; try lia.
  - intros idx Hidx. apply Hno.
    intros alpha (p & y & x & Hp & Hy & Hx & Ei & _).
    exact (Hidx p y x Hp Hy Hx Ei).
Qed.

Lemma overlay_alpha_written_witness :
  let b' := snd (copy_png_alpha_to_bitmap luma bitmap_1x1 (png_1x1 10 20 30 40)) in
  (forall pass y x,
     0 <= pass < 1 -> 0 <= y < 1 -> 0 <= x < 1 ->
     bm_base b' (overlay_target (png_1x1 10 20 30 40) 1 pass y x)
     = rgb_t (derived_alpha luma (png_1x1 10 20 30 40)
                (pass_offset (png_1x1 10 20 30 40) (Z.to_nat pass)
                 + 4 * (1 * y + x)))
             (pix_r (bm_base bitmap_1x1
                       (overlay_target (png_1x1 10 20 30 40) 1 pass y x)))
             (pix_g (bm_base bitmap_1x1
                       (overlay_target (png_1x1 10 20 30 40) 1 pass y x)))
             (pix_b (bm_base bitmap_1x1
                       (overlay_target (png_1x1 10 20 30 40) 1 pass y x)))) /\
  (forall idx,
     (forall pass y x,
        0 <= pass < 1 -> 0 <= y < 1 -> 0 <= x < 1 ->
        idx <> overlay_target (png_1x1 10 20 30 40) 1 pass y x) ->
     bm_base b' idx = bm_base bitmap_1x1 idx).
Proof.
  apply (overlay_alpha_written luma bitmap_1x1 (png_1x1 10 20 30 40));
    by_evaluation.
Defined.

(** ** The compressed-format loader: what a load leaves behind *)

(** The source manager and the decoder add warnings to the log, never an
    error of the loader. *)
Lemma warnings_added_refl l : warnings_added l l.
Proof. exists []. split; [symmetry; apply app_nil_r | intros d []]. Qed.

Lemma warnings_added_trans l1 l2 l3 :
  warnings_added l1 l2 -> warnings_added l2 l3 -> warnings_added l1 l3.
Proof.
  intros (e1 & -> & H1) (e2 & -> & H2). exists (e1 ++ e2).
  split; [symmetry; apply app_assoc|].
  intros d Hin. apply in_app_or in Hin. destruct Hin; auto.
Qed.

Lemma warnings_added_errors l l' :
  warnings_added l l' -> (error_logged l' <-> error_logged l).
Proof.
  intros (extra & -> & Hw). unfold error_logged. split.
  - intros (msg & Hin). apply in_app_or in Hin. destruct Hin as [Hin | Hin].
    + exists msg. exact Hin.
    + destruct (Hw _ Hin) as (code & Hd). discriminate.
  - intros (msg & Hin). exists msg. apply in_or_app. left. exact Hin.
Qed.

Lemma do_fill_log st r st' :
  do_fill st = (r, st') -> warnings_added (js_log st) (js_log st').
Proof.
  unfold do_fill.
  destruct (file_read (infile (js_src st)) INPUT_BUF_SIZE) as [got infile'].
  destruct (Z.of_nat (List.length got) <=? 0).
  - destruct (start_of_file (js_src st)); intros H; injection H as <- <-;
      cbn [js_log with_src]; [apply warnings_added_refl|].
    exists [jpeg_warning JWRN_JPEG_EOF]. split; [reflexivity|].
    intros d [<- | []]. eexists. reflexivity.
  - intros H; injection H as <- <-. cbn [js_log with_src].
    apply warnings_added_refl.
Qed.

Lemma do_skip_loop_log fuel : forall n st r st',
  do_skip_loop fuel n st = Some (r, st') ->
  warnings_added (js_log st) (js_log st').
Proof.
  induction fuel as [|fuel IH]; intros n st r st' Hs; cbn [do_skip_loop] in Hs.
  - discriminate.
  - destruct (bytes_in_buffer (js_src st) <? n).
    + destruct (do_fill st) as [[[] | code] st1] eqn:Ef.
      * eapply warnings_added_trans; [eapply do_fill_log; exact Ef|].
        eapply IH; exact Hs.
      * injection Hs as <- <-. eapply do_fill_log; exact Ef.
    + injection Hs as <- <-. apply warnings_added_refl.
Qed.

Lemma do_skip_log n st r st' :
  do_skip n st = (r, st') -> warnings_added (js_log st) (js_log st').
Proof.
  unfold do_skip.
  destruct (0 <? n); [|intros H; injection H as <- <-; apply warnings_added_refl].
  destruct (do_skip_loop (S (S (Z.to_nat n))) n st) as [[[m | code] st1]|] eqn:El;
    intros H; injection H as <- <-; cbn [js_log with_src];
    first [ eapply do_skip_loop_log; exact El | apply warnings_added_refl ].
Qed.

Lemma run_script_fill {A} (k : list Z -> jscript A) st :
  run_script (JFillInput k) st
  = match do_fill st with
    | (Returned _, st1) => run_script (k (available st1)) st1
    | (Jumped code, st1) => (Jumped code, st1)
    end.
Proof. reflexivity. Qed.

Lemma run_script_skip {A} n (k : list Z -> jscript A) st :
  run_script (JSkipInput n k) st
  = match do_skip n st with
    | (Returned _, st1) => run_script (k (available st1)) st1
    | (Jumped code, st1) => (Jumped code, st1)
    end.
Proof. reflexivity. Qed.

Lemma run_script_log {A} (s : jscript A) : forall st r st',
  run_script s st = (r, st') -> warnings_added (js_log st) (js_log st').
Proof.
  induction s as [a | code | k IH | k IH | n k IH | n k IH];
    intros st r st' Hr.
  - injection Hr as <- <-. apply warnings_added_refl.
  - injection Hr as <- <-. apply warnings_added_refl.
  - exact (IH _ _ _ Hr).
  - rewrite run_script_fill in Hr.
    destruct (do_fill st) as [[[] | code] st1] eqn:Ef.
    + eapply warnings_added_trans; [eapply do_fill_log; exact Ef|].
      eapply IH; exact Hr.
    + injection Hr as <- <-. eapply do_fill_log; exact Ef.
  - rewrite run_script_skip in Hr.
    destruct (do_skip n st) as [[[] | code] st1] eqn:Es.
    + eapply warnings_added_trans; [eapply do_skip_log; exact Es|].
      eapply IH; exact Hr.
    + injection Hr as <- <-. eapply do_skip_log; exact Es.
  - exact (IH _ _ _ _ Hr).
Qed.

Lemma call_log {A} (s : jscript A) ls r ls' :
  call s ls = (r, ls') ->
  ls_bitmap ls' = ls_bitmap ls /\ ls_buffer ls' = ls_buffer ls /\
  (error_logged (js_log (ls_js ls')) <-> error_logged (js_log (ls_js ls))).
Proof.
  unfold call. destruct (run_script s (ls_js ls)) as [r0 st] eqn:Er.
  intros H; injection H as <- <-. cbn [ls_bitmap ls_buffer ls_js set_js].
  split; [reflexivity | split; [reflexivity|]].
  apply warnings_added_errors. eapply run_script_log. exact Er.
Qed.

Lemma store_scanline_opaque s j row n : forall i b,
  let b' := store_scanline s j row n i b in
  bm_width b' = bm_width b /\ bm_height b' = bm_height b /\
  bm_rowpixels b' = bm_rowpixels b /\
  forall idx,
    pix_a (bm_base b idx) = 255 \/
    j * bm_rowpixels b + i <= idx < j * bm_rowpixels b + i + Z.of_nat n ->
    pix_a (bm_base b' idx) = 255.
Proof.
  induction n as [|n IH]; intros i b; cbn [store_scanline]; cbv zeta.
  - repeat split. intros idx [H | H]; [exact H | lia].
  - match goal with
    | |- context [bm_set b j i ?px] =>
        set (p := px);
        assert (Hp : pix_a p = 255)
          by (unfold p; destruct (s =? 1);
              match goal with
              | |- pix_a (rgb_t ?a ?r ?g ?c) = _ =>
                  destruct (pix_rgb_t a r g c) as (E & _); rewrite E; reflexivity
              end)
    end.
    destruct (IH (i + 1) (bm_set b j i p)) as (Ew & Eh & Er & Ea).
    cbv zeta in Ew, Eh, Er, Ea. cbn [bm_set bm_width bm_height bm_rowpixels] in *.
    repeat split; try assumption.
    intros idx Hidx. apply Ea.
    assert (Hb : bm_base (bm_set b j i p) idx
                 = if idx =? j * bm_rowpixels b + i then p else bm_base b idx)
      by reflexivity.
    rewrite Hb.
    destruct (idx =? j * bm_rowpixels b + i) eqn:E.
    + left. exact Hp.
    + apply Z.eqb_neq in E. destruct Hidx as [H | H]; [left; exact H | right; lia].
Qed.

Section LoaderResult.
Context {D : Type}.
Variable lib : libjpeg D.
Variable env : jpeg_env.

(** Rows [0 .. j) of a [w] x [h] bitmap with packed rows are opaque. *)
Lemma read_lines_result w h s n : forall j d ls r ls',
  0 < w -> 0 <= j -> j + Z.of_nat n = h ->
  read_lines lib w s n j d ls = (r, ls') ->
  ~ error_logged (js_log (ls_js ls)) ->
  bm_width (ls_bitmap ls) = w -> bm_height (ls_bitmap ls) = h ->
  bm_rowpixels (ls_bitmap ls) = w ->
  (forall y x, 0 <= y < j -> 0 <= x < w ->
     pix_a (bm_base (ls_bitmap ls) (y * w + x)) = 255) ->
  ls_buffer ls' = ls_buffer ls /\
  match r with
  | Jumped _ => True
  | Returned _ =>
      (error_logged (js_log (ls_js ls')) /\ ls_bitmap ls' = bm_empty) \/
      (~ error_logged (js_log (ls_js ls')) /\
       bm_width (ls_bitmap ls') = w /\ bm_height (ls_bitmap ls') = h /\
       bm_rowpixels (ls_bitmap ls') = w /\
       forall y x, 0 <= y < h -> 0 <= x < w ->
         pix_a (bm_base (ls_bitmap ls') (y * w + x)) = 255)
  end.
Proof.
  induction n as [|n IH]; intros j d ls r ls' Hw Hj Hn Hr Hlog Ew Eh Er Hrows;
    cbn [read_lines] in Hr.
  - injection Hr as <- <-. split; [reflexivity|]. right.
    repeat split; try assumption. intros y x Hy Hx. apply Hrows; lia.
  - destruct (call (jpeg_read_scanlines lib d) ls) as [[[d1 row] | code] ls1] eqn:Ec.
    + destruct (call_log _ _ _ _ Ec) as (Cb & Cu & Cl).
      destruct ((s =? 1) || (s =? 3)).
      * destruct (store_scanline_opaque s j row (Z.to_nat w) 0 (ls_bitmap ls1))
          as (Sw & Sh & Sr & Sa).
        cbv zeta in Sw, Sh, Sr, Sa. rewrite Cb in Sw, Sh, Sr, Sa.
        rewrite Z2Nat.id in Sa by lia.
        eapply IH in Hr; try lia.
        -- destruct Hr as [Hbuf Hres]. split; [|exact Hres].
           rewrite Hbuf. exact Cu.
        -- cbn [ls_js set_bitmap]. intros He. apply Hlog, Cl, He.
        -- cbn [ls_bitmap set_bitmap]. rewrite Cb. congruence.
        -- cbn [ls_bitmap set_bitmap]. rewrite Cb. congruence.
        -- cbn [ls_bitmap set_bitmap]. rewrite Cb. congruence.
        -- cbn [ls_bitmap set_bitmap]. rewrite Cb. intros y x Hy Hx.
           apply Sa. rewrite Er.
           destruct (Z.eq_dec y j) as [-> | Hne]; [right; lia|].
           left. apply Hrows; lia.
      * injection Hr as <- <-. split; [exact Cu|]. left.
        split; [|reflexivity].
        cbn [ls_js set_bitmap log_error set_js js_log].
        eexists. apply in_or_app. right. left. reflexivity.
    + injection Hr as <- <-. split; [|exact I].
      apply (call_log _ _ _ _ Ec).
Qed.

Lemma bm_empty_invalid : bm_valid bm_empty = false.
Proof. reflexivity. Qed.

Lemma bm_allocate_valid w h :
  bm_valid (bm_allocate w h) = true ->
  0 < w /\ 0 < h /\ bm_allocate w h = mk_bitmap w h w (fun _ => 0).
Proof.
  unfold bm_allocate.
  destruct (Z.leb_spec w 0) as [Hw | Hw]; [discriminate|].
  destruct (Z.leb_spec h 0) as [Hh | Hh]; [discriminate|].
  cbn [orb]. intros _. repeat split; assumption.
Qed.

Lemma log_error_logged ls msg :
  error_logged (js_log (ls_js (log_error ls msg))).
Proof.
  exists msg. unfold log_error. cbn [ls_js set_js js_log].
  apply in_or_app. right. left. reflexivity.
Qed.

(** Leaving the body by its end: the loader has reported an error and
    reset the bitmap, or has reported none and stored every row. *)
Lemma finish_after_failure d0 l msg r lf :
  call (jpeg_finish_decompress lib d0) (set_bitmap (log_error l msg) bm_empty)
  = (r, lf) ->
  error_logged (js_log (ls_js lf)) /\ ls_bitmap lf = bm_empty.
Proof.
  intros Ec. destruct (call_log _ _ _ _ Ec) as (B & _ & L).
  split; [apply L; cbn [set_bitmap ls_js]; apply log_error_logged | exact B].
Qed.

Lemma decode_body_result bitmap file ls' :
  decode_body lib env file (at_setjmp env bitmap file) = (Returned tt, ls') ->
  (error_logged (js_log (ls_js ls')) /\ ls_bitmap ls' = bm_empty) \/
  (~ error_logged (js_log (ls_js ls')) /\ opaque_image (ls_bitmap ls')).
Proof.
  unfold decode_body, at_setjmp. intros Hb.
  destruct (jpeg_create_decompress lib) as [d | code]; [|discriminate].
  cbn [ls_bitmap ls_buffer ls_heap ls_js js_log] in Hb.
  match type of Hb with
  | context [call (jpeg_read_header lib d) ?l] =>
      assert (Hl0 : ~ error_logged (js_log (ls_js l)))
        by (intros (msg & []));
      destruct (call (jpeg_read_header lib d) l) as [[d1 | code] ls1] eqn:E1
  end; [|discriminate].
  destruct (call_log _ _ _ _ E1) as (_ & Bu1 & L1).
  cbn [ls_buffer] in Bu1.
  destruct (call (jpeg_start_decompress lib d1) ls1) as [[d2 | code] ls2] eqn:E2;
    [|discriminate].
  destruct (call_log _ _ _ _ E2) as (_ & Bu2 & L2).
  assert (Hl2 : ~ error_logged (js_log (ls_js ls2))) by tauto.
  assert (Hbuf2 : ls_buffer ls2 = None) by congruence.
  cbv zeta in Hb.
  set (w := output_width lib d2) in *. set (h := output_height lib d2) in *.
  set (s := output_components lib d2) in *.
  destruct (malloc_buffer_ok env); [destruct (malloc_row_ok env)|].
  - cbn [ls_buffer ls_bitmap set_bitmap] in Hb.
    destruct (bm_valid (bm_allocate w h)) eqn:Ev.
    + destruct (bm_allocate_valid w h Ev) as (Hw & Hh & Ea).
      match type of Hb with
      | context [read_lines lib w s ?n 0 d2 ?l] =>
          destruct (read_lines lib w s n 0 d2 l) as [[d3 | code] ls3] eqn:E3
      end; [|discriminate].
      eapply read_lines_result with (h := h) in E3; try lia;
        try (cbn [ls_bitmap]; rewrite Ea; reflexivity);
        try (cbn [ls_js]; exact Hl2);
        try (intros; lia).
      destruct E3 as [_ Hres].
      destruct (call (jpeg_finish_decompress lib d3) ls3) as [[d4 | code] ls4] eqn:E4;
        [|discriminate].
      injection Hb as <-.
      destruct (call_log _ _ _ _ E4) as (B4 & _ & L4).
      rewrite B4.
      destruct Hres as [(He & Hbm) | (Hne & Rw & Rh & Rr & Ra)].
      * left. split; [apply L4; exact He | exact Hbm].
      * right. split; [tauto|].
        unfold opaque_image, bm_pix. rewrite Rw, Rh, Rr.
        repeat split; try lia. exact Ra.
    + match type of Hb with
      | context [call (jpeg_finish_decompress lib d2) ?l] =>
          destruct (call (jpeg_finish_decompress lib d2) l) as [[d4 | code] ls4] eqn:E4
      end; [|discriminate].
      injection Hb as <-. left. eapply finish_after_failure. exact E4.
  - cbn [ls_buffer ls_bitmap set_bitmap] in Hb.
    match type of Hb with
    | context [call (jpeg_finish_decompress lib d2) ?l] =>
        destruct (call (jpeg_finish_decompress lib d2) l) as [[d4 | code] ls4] eqn:E4
    end; [|discriminate].
    injection Hb as <-. left. eapply finish_after_failure. exact E4.
  - cbn [ls_buffer ls_bitmap set_bitmap] in Hb. rewrite Hbuf2 in Hb.
    match type of Hb with
    | context [call (jpeg_finish_decompress lib d2) ?l] =>
        destruct (call (jpeg_finish_decompress lib d2) l) as [[d4 | code] ls4] eqn:E4
    end; [|discriminate].
    injection Hb as <-. left. eapply finish_after_failure. exact E4.
Qed.

End LoaderResult.

(** X17. What [render_load_jpeg] leaves behind, whatever the file holds and
    whatever the decoder and the allocator do: either the loader has
    logged an error and the bitmap is empty, or it has logged none and the
    bitmap is a complete image -- storage attached, every row stored,
    every pixel opaque. *)
Theorem load_jpeg_result {D : Type} (lib : libjpeg D) (env : jpeg_env)
    (bitmap : bitmap_argb32) (file : random_read) :
  let ls := render_load_jpeg lib env bitmap file in
  (error_logged (js_log (ls_js ls)) /\ ls_bitmap ls = bm_empty) \/
  (~ error_logged (js_log (ls_js ls)) /\ opaque_image (ls_bitmap ls)).
Proof.
  cbv zeta. unfold render_load_jpeg.
  destruct (decode_body lib env file (at_setjmp env bitmap file))
    as [[[] | code] ls'] eqn:Eb.
  - exact (decode_body_result lib env bitmap file ls' Eb).
  - left. unfold cleanup, on_longjmp. cbn [ls_js ls_bitmap set_bitmap].
    split; [apply log_error_logged | reflexivity].
Qed.

(** X20. Whatever the file holds and whatever the decoder, the allocator and
    the implementation of [longjmp] do, [render_load_jpeg] returns with
    the decoder state destroyed; whenever the decoder leaves through its
    error exit, the diagnostic built from its message is logged and the
    bitmap handed back is empty; whenever the body runs to its end, no
    scratch block is left allocated; and where the local [buffer] is
    found after a jump as it was left, none is left on any path. *)
Theorem load_jpeg_containment {D : Type} (lib : libjpeg D) (env : jpeg_env)
    (bitmap : bitmap_argb32) (file : random_read) :
  let result := render_load_jpeg lib env bitmap file in
  ls_decoder_live result = false /\
  (forall code ls,
     decode_body lib env file (at_setjmp env bitmap file) = (Jumped code, ls) ->
     ls_bitmap result = bm_empty /\
     In (osd_error ("JPEG error reading data from file: " ++ format_message lib code))
        (js_log (ls_js result))) /\
  (forall ls,
     decode_body lib env file (at_setjmp env bitmap file) = (Returned tt, ls) ->
     ls_heap result = 0) /\
  ((forall b, buffer_after_longjmp env b = b) -> ls_heap result = 0).
Proof.
  cbv zeta. unfold render_load_jpeg.
  destruct (decode_body lib env file (at_setjmp env bitmap file))
    as [[[] | code] ls] eqn:Eb.
  - destruct (decode_body_heap lib env _ _ _ _ Eb eq_refl eq_refl)
      as (ls0 & Hok & [<- | ((code & Hc) & _)]); [|discriminate].
    split; [reflexivity|]. split; [intros code ls' H; discriminate|].
    split; [intros ls' _ | intros _]; apply cleanup_releases; exact Hok.
  - split; [reflexivity|]. split; [|split].
    + intros code' ls' H. injection H as <- <-.
      split; [reflexivity|].
      cbn. apply in_or_app. right. left. reflexivity.
    + intros ls' H. discriminate.
    + intros Hid.
      destruct (decode_body_heap lib env _ _ _ _ Eb eq_refl eq_refl)
        as (ls0 & Hok & [<- | (_ & ->)]).
      * apply cleanup_releases, on_longjmp_heap_ok, Hok.
      * apply cleanup_releases, on_longjmp_heap_ok.
        unfold heap_ok, longjmp_after_assignment in *.
        cbn [ls_heap ls_buffer]. rewrite Hid. exact Hok.
Qed.

Lemma load_jpeg_containment_witness :
  decode_body corrupt_scan_decoder env_ok jpeg_like_file
              (at_setjmp env_ok bitmap_1x1 jpeg_like_file)
  = (Jumped (JMSG_LIBRARY 9),
     mk_load (mk_bitmap 1 1 1 (fun _ => 0)) (Some (Some tt)) 2 true
             (mk_jstate (mk_source (mk_file [0xff; 0xd8; 0xff; 0xd9] 4)
                                   ([0xff; 0xd8; 0xff; 0xd9] ++ repeat 0 4092)
                                   false 0 4) [])) /\
  ls_bitmap (render_load_jpeg corrupt_scan_decoder env_ok bitmap_1x1 jpeg_like_file)
  = bm_empty /\
  In (osd_error ("JPEG error reading data from file: "
                 ++ format_message corrupt_scan_decoder (JMSG_LIBRARY 9)))
     (js_log (ls_js (render_load_jpeg corrupt_scan_decoder env_ok bitmap_1x1
                                      jpeg_like_file))) /\
  ls_heap (render_load_jpeg corrupt_scan_decoder env_ok bitmap_1x1 jpeg_like_file)
  = 0.
Proof.
  assert (Hb : decode_body corrupt_scan_decoder env_ok jpeg_like_file
                 (at_setjmp env_ok bitmap_1x1 jpeg_like_file)
               = (Jumped (JMSG_LIBRARY 9),
                  mk_load (mk_bitmap 1 1 1 (fun _ => 0)) (Some (Some tt)) 2 true
                    (mk_jstate (mk_source (mk_file [0xff; 0xd8; 0xff; 0xd9] 4)
                                          ([0xff; 0xd8; 0xff; 0xd9] ++ repeat 0 4092)
                                          false 0 4) [])))
    by reflexivity.
  pose proof (load_jpeg_containment corrupt_scan_decoder env_ok bitmap_1x1
                                    jpeg_like_file) as (_ & HJ & _ & HI).
  split; [exact Hb|].
  split; [exact (proj1 (HJ _ _ Hb))|].
  split; [exact (proj2 (HJ _ _ Hb))|].
  exact (HI (fun b => eq_refl)).
Defined.

(** ** The source manager: the stream the decoder sees *)

Lemma firstn_skipn_length {A} (k : nat) (l : list A) :
  firstn k l ++ skipn (List.length (firstn k l)) l = l.
Proof.
  revert l. induction k as [|k IH]; intros [|a l]; cbn; try reflexivity.
  f_equal. apply IH.
Qed.

Lemma skipn_skipn_add {A} (a b : nat) (l : list A) :
  skipn a (skipn b l) = skipn (b + a) l.
Proof.
  revert l. induction b as [|b IH]; intros l; cbn [Nat.add skipn].
  - reflexivity.
  - destruct l as [|x l]; [destruct a; reflexivity | apply IH].
Qed.

Lemma available_length st :
  source_wf st ->
  List.length (available st) = Z.to_nat (bytes_in_buffer (js_src st)).
Proof.
  intros (Hl & Hn & Hb & Hs & _). unfold available.
  rewrite length_firstn, length_skipn. unfold INPUT_BUF_SIZE in *. lia.
Qed.

(** A refill asked for when the stream still has data: the window is
    the bytes read, and the stream as the decoder sees it starts with
    them. *)
Lemma do_fill_more st :
  source_wf st ->
  skipn (Z.to_nat (file_pos (infile (js_src st))))
        (file_data (infile (js_src st))) <> [] ->
  exists st',
    do_fill st = (Returned tt, st') /\ source_wf st' /\
    js_log st' = js_log st /\
    1 <= bytes_in_buffer (js_src st') /\
    unread st' = skipn (Z.to_nat (file_pos (infile (js_src st))))
                       (file_data (infile (js_src st))).
Proof.
  intros (Hl & Hn & Hb & Hs & Hp) Hrest.
  unfold do_fill, file_read.
  set (R := skipn (Z.to_nat (file_pos (infile (js_src st))))
                  (file_data (infile (js_src st)))) in *.
  set (got := firstn (Z.to_nat INPUT_BUF_SIZE) R).
  assert (Hgot : (1 <= List.length got <= 4096)%nat).
  { unfold got. rewrite length_firstn. unfold INPUT_BUF_SIZE.
    destruct R as [|r R]; [congruence|]. cbn [List.length]. lia. }
  replace (Z.of_nat (List.length got) <=? 0) with false
    by (symmetry; apply Z.leb_gt; lia).
  eexists. split; [reflexivity|].
  unfold source_wf, unread, available, with_src.
  cbn [js_src js_log buffer next_input_byte bytes_in_buffer infile
       file_pos file_data].
  unfold INPUT_BUF_SIZE in *.
  repeat split; try lia.
  - rewrite length_app, length_skipn. lia.
  - cbn [Z.to_nat skipn]. rewrite Nat2Z.id.
    rewrite firstn_app, firstn_all, Nat.sub_diag. cbn [firstn].
    rewrite app_nil_r.
    replace (Z.to_nat (file_pos (infile (js_src st)) + Z.of_nat (List.length got)))
      with (Z.to_nat (file_pos (infile (js_src st))) + List.length got)%nat by lia.
    rewrite <- skipn_skipn_add. fold R. unfold got.
    apply firstn_skipn_length.
Qed.

Lemma unread_split st :
  source_wf st ->
  forall n, bytes_in_buffer (js_src st) <= n ->
  skipn (Z.to_nat n) (unread st)
  = skipn (Z.to_nat (n - bytes_in_buffer (js_src st)))
          (skipn (Z.to_nat (file_pos (infile (js_src st))))
                 (file_data (infile (js_src st)))).
Proof.
  intros Hwf n Hn. pose proof (available_length st Hwf) as Hlen.
  destruct Hwf as (_ & _ & Hb & _).
  unfold unread. rewrite skipn_app, Hlen.
  rewrite skipn_all2 by lia. cbn [app]. f_equal. lia.
Qed.

Lemma do_skip_loop_stream fuel : forall n st,
  source_wf st -> 0 <= n <= Z.of_nat (List.length (unread st)) ->
  (Z.to_nat n + (if (bytes_in_buffer (js_src st) <=? 0)%Z then 2 else 1)
   <= fuel)%nat ->
  exists m st',
    do_skip_loop fuel n st = Some (Returned m, st') /\
    source_wf st' /\ js_log st' = js_log st /\
    0 <= m <= bytes_in_buffer (js_src st') /\
    skipn (Z.to_nat m) (unread st') = skipn (Z.to_nat n) (unread st).
Proof.
  induction fuel as [|fuel IH]; intros n st Hwf Hn Hfuel.
  - destruct (bytes_in_buffer (js_src st) <=? 0); lia.
  - cbn [do_skip_loop].
    destruct (Z.ltb_spec (bytes_in_buffer (js_src st)) n) as [Hlt | Hge].
    + pose proof (available_length st Hwf) as Hlen.
      pose proof Hwf as (_ & _ & Hb & _).
      assert (Hrest : skipn (Z.to_nat (file_pos (infile (js_src st))))
                            (file_data (infile (js_src st))) <> []).
      { intros E. unfold unread in Hn. rewrite E, app_nil_r, Hlen in Hn. lia. }
      destruct (do_fill_more st Hwf Hrest) as (st1 & Ef & Hwf1 & Hlog1 & Hb1 & Hu1).
      rewrite Ef.
      destruct (IH (n - bytes_in_buffer (js_src st)) st1 Hwf1)
        as (m & st' & El & Hwf' & Hlog' & Hm & Hs).
      * rewrite Hu1. unfold unread in Hn. rewrite length_app, Hlen in Hn. lia.
      * replace (bytes_in_buffer (js_src st1) <=? 0) with false
          by (symmetry; apply Z.leb_gt; lia).
        destruct (Z.leb_spec (bytes_in_buffer (js_src st)) 0); lia.
      * exists m, st'. split; [exact El|]. split; [exact Hwf'|].
        split; [congruence|]. split; [exact Hm|].
        rewrite Hs, Hu1. symmetry. apply unread_split; [exact Hwf | lia].
    + exists n, st. split; [reflexivity|]. split; [exact Hwf|].
      split; [reflexivity|]. split; [lia | reflexivity].
Qed.

(** X18. [do_skip] discards exactly the bytes it is asked to, across as many
    refills as it takes: when the stream still holds [num_bytes] bytes,
    the call returns, logs nothing, and the input the decoder has yet to
    see is the previous one without its first [num_bytes] bytes. *)
Theorem do_skip_drops (num_bytes : Z) (st : jstate) :
  source_wf st ->
  0 <= num_bytes <= Z.of_nat (List.length (unread st)) ->
  exists st',
    do_skip num_bytes st = (Returned tt, st') /\
    source_wf st' /\ js_log st' = js_log st /\
    unread st' = skipn (Z.to_nat num_bytes) (unread st).
Proof.
  intros Hwf Hn. unfold do_skip.
  destruct (Z.ltb_spec 0 num_bytes) as [Hpos | Hzero].
  - destruct (do_skip_loop_stream (S (S (Z.to_nat num_bytes))) num_bytes st Hwf Hn)
      as (m & st' & El & Hwf' & Hlog' & Hm & Hs).
    { destruct (bytes_in_buffer (js_src st) <=? 0); lia. }
    rewrite El. eexists. split; [reflexivity|].
    destruct Hwf' as (Hl & Hnx & Hb & Hsum & Hp).
    unfold source_wf, unread, available, with_src in *.
    cbn [js_src js_log buffer next_input_byte bytes_in_buffer infile] in *.
    repeat split; try lia; try assumption.
    rewrite <- Hs, skipn_app, skipn_firstn_comm, skipn_skipn_add.
    rewrite length_firstn, length_skipn.
    unfold INPUT_BUF_SIZE in *.
    replace (Z.to_nat m - Nat.min (Z.to_nat (bytes_in_buffer (js_src st')))
                                  (List.length (buffer (js_src st'))
                                   - Z.to_nat (next_input_byte (js_src st'))))%nat
      with 0%nat by lia.
    cbn [skipn]. f_equal. f_equal; [lia | f_equal; lia].
  - exists st. replace num_bytes with 0 by lia.
    split; [reflexivity|]. split; [exact Hwf|]. split; reflexivity.
Qed.

Lemma midstream_wf : source_wf midstream.
Proof. vm_compute. repeat split; first [ reflexivity | discriminate ]. Qed.

Lemma do_skip_drops_witness :
  exists st',
    do_skip 5 midstream = (Returned tt, st') /\
    source_wf st' /\ js_log st' = js_log midstream /\
    unread st' = skipn (Z.to_nat 5) (unread midstream).
Proof.
  apply (do_skip_drops 5 midstream);
    [exact midstream_wf | vm_compute; split; discriminate].
Defined.

(** What a read leaves of the stream: the bytes past the [n] asked for. *)
Lemma file_read_rest f n :
  0 <= file_pos f ->
  skipn (Z.to_nat (file_pos (snd (file_read f n)))) (file_data (snd (file_read f n)))
  = skipn (Z.to_nat n) (skipn (Z.to_nat (file_pos f)) (file_data f)).
Proof.
  intros Hp. unfold file_read. cbn [snd file_pos file_data].
  set (R := skipn (Z.to_nat (file_pos f)) (file_data f)).
  replace (Z.to_nat (file_pos f + Z.of_nat (List.length (firstn (Z.to_nat n) R))))
    with (Z.to_nat (file_pos f) + List.length (firstn (Z.to_nat n) R))%nat by lia.
  rewrite <- skipn_skipn_add. fold R.
  rewrite length_firstn.
  destruct (Nat.le_gt_cases (Z.to_nat n) (List.length R)) as [H | H].
  - rewrite Nat.min_l by exact H. reflexivity.
  - rewrite Nat.min_r by lia. rewrite !skipn_all2 by lia. reflexivity.
Qed.

Lemma do_fill_infile st r st' :
  do_fill st = (r, st') ->
  infile (js_src st') = snd (file_read (infile (js_src st)) INPUT_BUF_SIZE).
Proof.
  unfold do_fill.
  destruct (file_read (infile (js_src st)) INPUT_BUF_SIZE) as [got infile'].
  destruct (Z.of_nat (List.length got) <=? 0).
  - destruct (start_of_file (js_src st)); intros H; injection H as <- <-;
      reflexivity.
  - intros H; injection H as <- <-. reflexivity.
Qed.

(** What a refill leaves of the stream behind the window: the bytes past
    the [INPUT_BUF_SIZE] it asked for. *)
Lemma do_fill_rest st r st' :
  do_fill st = (r, st') ->
  0 <= file_pos (infile (js_src st)) ->
  skipn (Z.to_nat (file_pos (infile (js_src st'))))
        (file_data (infile (js_src st')))
  = skipn (Z.to_nat INPUT_BUF_SIZE)
          (skipn (Z.to_nat (file_pos (infile (js_src st))))
                 (file_data (infile (js_src st)))).
Proof.
  intros Hf Hp. rewrite (do_fill_infile st r st' Hf).
  apply file_read_rest. exact Hp.
Qed.

(** X19. A refill asked for with the window used up never loses or repeats
    input: while the stream has data, the refill returns, logs nothing,
    and leaves the input still to be seen unchanged.  If the stream ends
    within the window just read, then once the decoder has consumed the
    window the next refill hands it the two bytes of an end-of-image
    marker, with the end-of-file warning added to the log -- whatever
    the start-of-file flag was before the first of the two refills. *)
Theorem do_fill_stream (st : jstate) :
  source_wf st -> bytes_in_buffer (js_src st) = 0 -> unread st <> [] ->
  exists st',
    do_fill st = (Returned tt, st') /\ source_wf st' /\
    js_log st' = js_log st /\ unread st' = unread st /\
    (Z.of_nat (List.length (unread st)) <= INPUT_BUF_SIZE ->
     exists st'',
       run_script (JConsume (bytes_in_buffer (js_src st'))
                            (fun _ => JFillInput (fun bytes => JRet bytes))) st'
       = (Returned [0xff; JPEG_EOI], st'') /\
       js_log st'' = js_log st ++ [jpeg_warning JWRN_JPEG_EOF] /\
       unread st'' = [0xff; JPEG_EOI]).
Proof.
  intros Hwf Hb Hne.
  assert (Hu : unread st
               = skipn (Z.to_nat (file_pos (infile (js_src st))))
                       (file_data (infile (js_src st)))).
  { unfold unread, available. rewrite Hb. reflexivity. }
  rewrite Hu in Hne.
  destruct (do_fill_more st Hwf Hne) as (st' & Ef & Hwf' & Hlog & _ & Hs).
  exists st'. split; [exact Ef|]. split; [exact Hwf'|]. split; [exact Hlog|].
  split; [rewrite Hu; exact Hs|].
  intros Hlen.
  pose proof Hwf as (_ & _ & _ & _ & Hpos).
  pose proof Hwf' as (_ & _ & _ & _ & Hpos').
  pose proof (do_fill_rest st _ st' Ef Hpos) as Hrest.
  rewrite <- Hu in Hrest.
  rewrite (skipn_all2 (unread st)) in Hrest by lia.
  cbn [run_script].
  match goal with
  | |- context [do_fill ?s] => set (sc := s)
  end.
  assert (Hflag : start_of_file (js_src sc) = false)
    by exact (do_fill_clears_flag st st' Ef).
  assert (Hempty : fst (file_read (infile (js_src sc)) INPUT_BUF_SIZE) = []).
  { unfold file_read, sc. cbn [fst js_src with_src infile].
    rewrite Hrest. apply firstn_nil. }
  destruct (do_fill_marker sc Hflag Hempty) as (st2 & Ef2 & Ha & _ & Hl).
  rewrite Ef2. exists st2. split; [rewrite Ha; reflexivity|].
  split; [rewrite Hl, <- Hlog; reflexivity|].
  unfold unread. rewrite Ha.
  rewrite (do_fill_rest sc _ st2 Ef2) by exact Hpos'.
  change (infile (js_src sc)) with (infile (js_src st')).
  rewrite Hrest, skipn_nil. reflexivity.
Qed.

Lemma do_fill_stream_witness :
  exists st',
    do_fill (mk_jstate (mk_source (mk_file [7; 8; 9] 1) (repeat 0 4096) true 0 0) [])
    = (Returned tt, st') /\ source_wf st' /\ js_log st' = [] /\
    unread st' = [8; 9] /\
    (Z.of_nat (List.length [8; 9]) <= INPUT_BUF_SIZE ->
     exists st'',
       run_script (JConsume (bytes_in_buffer (js_src st'))
                            (fun _ => JFillInput (fun bytes => JRet bytes))) st'
       = (Returned [0xff; JPEG_EOI], st'') /\
       js_log st'' = [] ++ [jpeg_warning JWRN_JPEG_EOF] /\
       unread st'' = [0xff; JPEG_EOI]).
Proof.
  apply (do_fill_stream
           (mk_jstate (mk_source (mk_file [7; 8; 9] 1) (repeat 0 4096) true 0 0) []));
    [vm_compute; repeat split; first [ reflexivity | discriminate ]
    | reflexivity | discriminate].
Defined.
